(** * Job queue: store, queue manager and scheduler

    A shallow embedding of [queue/jobStore.js], [queue/queueManager.js] and
    [queue/scheduler.js], and the properties of the job state machine, the
    retry schedule and the dispatcher that hold on it.

    Conventions of the embedding.
    - JavaScript numbers that the code uses as counters and millisecond
      timestamps are integers of [Z] (they stay far below 2^53, where the
      arithmetic of the source is exact).
    - [Date.now()] and [uuidv4()] are inputs of the operation that calls
      them: [now] and [uuid]. No operation of the store or of the queue
      manager uses more than one reading of the clock on any of its paths.
    - [process.env] is the record [Env], already parsed by [parseInt].
    - The [Map] of jobs is a [gmap]; every [Set] of ids is a list without
      duplicates in insertion order, the order [Array.from] enumerates.
    - A call either returns or throws, and the store it leaves behind is
      kept in both cases: [M A := JobStore -> Completion A * JobStore].
    - [jobEvents.emit...] only feeds loggers and counters, which never touch
      the store; these calls are left out.
    - Every process has a queue manager of its own. A world is the state of
      one process; the transition system lets it take submissions and run
      the scheduler, which covers the API processes (submissions only) and
      the master (scheduler only). *)

From stdpp Require Import gmap strings list fin_maps.
From Stdlib Require Import ZArith Lia.

Local Open Scope Z_scope.

(** ** Data model *)

Inductive Status : Set :=
| PENDING | RUNNING | COMPLETED | FAILED | RETRYING | DEAD.

#[global] Instance Status_eq_dec : EqDecision Status.
Proof. solve_decision. Defined.

(** A job payload is an object of string fields ([to], [subject], [body]). *)
Definition Payload : Type := list (string * string).

Record Job : Type := mkJob {
  id : string;
  type : string;
  payload : Payload;
  status : Status;
  attempts : Z;
  maxAttempts : Z;
  createdAt : Z;
  startedAt : option Z;
  finishedAt : option Z;
  error : option string;
  retryAt : option Z
}.

(** The [updates] object of [updateJobStatus]: [None] is an absent key. *)
Record Updates : Type := mkUpdates {
  u_startedAt : option Z;
  u_attempts : option Z;
  u_finishedAt : option Z;
  u_error : option string;
  u_retryAt : option Z
}.

(** [job.status = newStatus] *)
Definition set_status (st : Status) (j : Job) : Job :=
  mkJob (id j) (type j) (payload j) st (attempts j) (maxAttempts j)
        (createdAt j) (startedAt j) (finishedAt j) (error j) (retryAt j).

Definition patch {A : Type} (new : option A) (old : option A) : option A :=
  match new with
  | Some v => Some v
  | None => old
  end.

(** [Object.assign(job, updates)] *)
Definition assign (j : Job) (u : Updates) : Job :=
  mkJob (id j) (type j) (payload j) (status j)
        (default (attempts j) (u_attempts u)) (maxAttempts j) (createdAt j)
        (patch (u_startedAt u) (startedAt j))
        (patch (u_finishedAt u) (finishedAt j))
        (patch (u_error u) (error j))
        (patch (u_retryAt u) (retryAt j)).

(** [{ maxAttempts }], the only option [createJob] reads. *)
Record Options : Type := mkOptions { o_maxAttempts : option Z }.

Definition no_options : Options := mkOptions None.

Record Env : Type := mkEnv {
  QUEUE_MAX_SIZE : Z;
  MAX_JOB_ATTEMPTS : Z;
  RETRY_BACKOFF_BASE_MS : Z
}.

(** The defaults of the source: ['10000'], ['3'] and ['1000']. *)
Definition default_env : Env := mkEnv 10000 3 1000.

Inductive Error : Type :=
| QueueFull
| JobNotFound (jobId : string)
| AlreadyRunning (jobId : string)
| TypeError.

Definition message (e : Error) : string :=
  match e with
  | QueueFull => "Queue is at maximum capacity"
  | JobNotFound jobId => "Job " +:+ jobId +:+ " not found"
  | AlreadyRunning jobId => "Job " +:+ jobId +:+ " is already running"
  | TypeError => "Cannot read properties of null"
  end.

Inductive Completion (A : Type) : Type :=
| Return (a : A)
| Throw (e : Error).

Arguments Return {A} a.
Arguments Throw {A} e.

(** ** Insertion-ordered sets of ids *)

Definition set_add (x : string) (l : list string) : list string :=
  if decide (x ∈ l) then l else l ++ [x].

Definition set_delete (x : string) (l : list string) : list string :=
  filter (λ y, y ≠ x) l.

(** [jobsByStatus]: one set per status. *)
Record Buckets : Type := mkBuckets {
  b_PENDING : list string;
  b_RUNNING : list string;
  b_COMPLETED : list string;
  b_FAILED : list string;
  b_RETRYING : list string;
  b_DEAD : list string
}.

Definition empty_buckets : Buckets := mkBuckets [] [] [] [] [] [].

(** [jobsByStatus[st]] *)
Definition bucket (st : Status) (b : Buckets) : list string :=
  match st with
  | PENDING => b_PENDING b
  | RUNNING => b_RUNNING b
  | COMPLETED => b_COMPLETED b
  | FAILED => b_FAILED b
  | RETRYING => b_RETRYING b
  | DEAD => b_DEAD b
  end.

Definition with_bucket (st : Status) (f : list string → list string)
    (b : Buckets) : Buckets :=
  match st with
  | PENDING => mkBuckets (f (b_PENDING b)) (b_RUNNING b) (b_COMPLETED b) (b_FAILED b) (b_RETRYING b) (b_DEAD b)
  | RUNNING => mkBuckets (b_PENDING b) (f (b_RUNNING b)) (b_COMPLETED b) (b_FAILED b) (b_RETRYING b) (b_DEAD b)
  | COMPLETED => mkBuckets (b_PENDING b) (b_RUNNING b) (f (b_COMPLETED b)) (b_FAILED b) (b_RETRYING b) (b_DEAD b)
  | FAILED => mkBuckets (b_PENDING b) (b_RUNNING b) (b_COMPLETED b) (f (b_FAILED b)) (b_RETRYING b) (b_DEAD b)
  | RETRYING => mkBuckets (b_PENDING b) (b_RUNNING b) (b_COMPLETED b) (b_FAILED b) (f (b_RETRYING b)) (b_DEAD b)
  | DEAD => mkBuckets (b_PENDING b) (b_RUNNING b) (b_COMPLETED b) (b_FAILED b) (b_RETRYING b) (f (b_DEAD b))
  end.

(** ** jobStore.js *)

Record JobStore : Type := mkJobStore {
  jobs : gmap string Job;
  jobsByStatus : Buckets;
  maxQueueSize : Z
}.

Definition M (A : Type) : Type := JobStore → Completion A * JobStore.

Definition ret {A : Type} (a : A) : M A := λ s, (Return a, s).

Definition bind {A B : Type} (m : M A) (k : A → M B) : M B :=
  λ s, match m s with
       | (Return a, s') => k a s'
       | (Throw e, s') => (Throw e, s')
       end.

Notation "'let!' x ':=' m 'in' k" := (bind m (λ x, k))
  (at level 10, x name, m at level 100, k at level 200, only parsing).

Module JobStore.

(** [constructor()] *)
Definition new (env : Env) : JobStore :=
  mkJobStore ∅ empty_buckets (QUEUE_MAX_SIZE env).

(** [options.maxAttempts || parseInt(process.env.MAX_JOB_ATTEMPTS || '3', 10)]:
    an absent or zero option falls through to the configured value. *)
Definition maxAttempts_of (env : Env) (options : Options) : Z :=
  match o_maxAttempts options with
  | Some m => if decide (m = 0) then MAX_JOB_ATTEMPTS env else m
  | None => MAX_JOB_ATTEMPTS env
  end.

Definition createJob (env : Env) (uuid : string) (now : Z)
    (type : string) (payload : Payload) (options : Options) : M Job :=
  λ s,
    if decide (maxQueueSize s ≤ Z.of_nat (size (jobs s))) then
      (Throw QueueFull, s)
    else
      let job := mkJob uuid type payload PENDING 0 (maxAttempts_of env options)
                       now None None None None in
      (Return job,
       mkJobStore (<[uuid := job]> (jobs s))
                  (with_bucket PENDING (set_add uuid) (jobsByStatus s))
                  (maxQueueSize s)).

(** [this.jobs.get(jobId) || null] *)
Definition getJob (s : JobStore) (jobId : string) : option Job :=
  jobs s !! jobId.

Definition updateJobStatus (jobId : string) (newStatus : Status)
    (updates : Updates) : M Job :=
  λ s,
    match jobs s !! jobId with
    | None => (Throw (JobNotFound jobId), s)
    | Some job =>
        let removed := with_bucket (status job) (set_delete jobId) (jobsByStatus s) in
        let job' := assign (set_status newStatus job) updates in
        let added := with_bucket newStatus (set_add jobId) removed in
        (Return job', mkJobStore (<[jobId := job']> (jobs s)) added (maxQueueSize s))
    end.

(** The argument object is built before [updateJobStatus] is entered, so
    reading [attempts] of an absent job throws first. *)
Definition markJobStarted (now : Z) (jobId : string) : M Job :=
  λ s,
    match getJob s jobId with
    | None => (Throw TypeError, s)
    | Some job =>
        updateJobStatus jobId RUNNING
          (mkUpdates (Some now) (Some (attempts job + 1)) None None None) s
    end.

Definition markJobCompleted (now : Z) (jobId : string) : M Job :=
  updateJobStatus jobId COMPLETED (mkUpdates None None (Some now) None None).

Definition markJobFailed (now : Z) (jobId : string) (error : string) : M Job :=
  λ s,
    match getJob s jobId with
    | None => (Throw TypeError, s)
    | Some job =>
        if decide (maxAttempts job ≤ attempts job) then
          updateJobStatus jobId DEAD
            (mkUpdates None None (Some now) (Some error) None) s
        else
          updateJobStatus jobId FAILED
            (mkUpdates None None None (Some error) None) s
    end.

Definition markJobRetrying (jobId : string) (retryAt : Z) : M Job :=
  updateJobStatus jobId RETRYING (mkUpdates None None None None (Some retryAt)).

(** [jobIds.map(id => this.jobs.get(id)).filter(Boolean)] *)
Definition getJobsByStatus (s : JobStore) (st : Status) : list Job :=
  omap (λ jobId, jobs s !! jobId) (bucket st (jobsByStatus s)).

(** [job.retryAt && job.retryAt <= now]: an unset or zero [retryAt] is falsy. *)
Definition retry_elapsed (now : Z) (job : Job) : bool :=
  match retryAt job with
  | Some t => bool_decide (t ≠ 0) && bool_decide (t ≤ now)
  | None => false
  end.

Definition getJobsReadyForExecution (now : Z) (s : JobStore) : list Job :=
  let pendingJobs := getJobsByStatus s PENDING in
  let retryingJobs := filter (λ job, retry_elapsed now job = true) (getJobsByStatus s RETRYING) in
  pendingJobs ++ retryingJobs.

(** [job && job.status === 'RUNNING'], as the condition of an [if]. *)
Definition isJobRunning (s : JobStore) (jobId : string) : bool :=
  match getJob s jobId with
  | Some job => bool_decide (status job = RUNNING)
  | None => false
  end.

Record Stats : Type := mkStats {
  total : nat;
  pending : nat;
  running : nat;
  completed : nat;
  failed : nat;
  retrying : nat;
  dead : nat
}.

(** [this.jobs.size] and the [size] of every status set. *)
Definition getStats (s : JobStore) : Stats :=
  mkStats (size (jobs s))
          (length (bucket PENDING (jobsByStatus s)))
          (length (bucket RUNNING (jobsByStatus s)))
          (length (bucket COMPLETED (jobsByStatus s)))
          (length (bucket FAILED (jobsByStatus s)))
          (length (bucket RETRYING (jobsByStatus s)))
          (length (bucket DEAD (jobsByStatus s))).

End JobStore.

(** ** queueManager.js *)

Module QueueManager.

(** The [catch] of the source logs and rethrows. *)
Definition createJob (env : Env) (uuid : string) (now : Z)
    (type : string) (payload : Payload) (options : Options) : M Job :=
  JobStore.createJob env uuid now type payload options.

Definition getJob (s : JobStore) (jobId : string) : option Job :=
  JobStore.getJob s jobId.

Definition startJob (now : Z) (jobId : string) : M Job :=
  λ s,
    if JobStore.isJobRunning s jobId then
      (Throw (AlreadyRunning jobId), s)
    else
      JobStore.markJobStarted now jobId s.

Definition completeJob (now : Z) (jobId : string) : M Job :=
  JobStore.markJobCompleted now jobId.

(** [baseDelay * Math.pow(2, attempts)] *)
Definition calculateRetryDelay (env : Env) (attempts : Z) : Z :=
  RETRY_BACKOFF_BASE_MS env * 2 ^ attempts.

Definition failJob (env : Env) (now : Z) (jobId : string)
    (errorMessage : string) : M Job :=
  λ s,
    match JobStore.getJob s jobId with
    | None => (Throw (JobNotFound jobId), s)
    | Some job =>
        if decide (attempts job < maxAttempts job) then
          let retryDelay := calculateRetryDelay env (attempts job) in
          let retryAt := now + retryDelay in
          (let! _ := JobStore.markJobFailed now jobId errorMessage in
           let! updatedJob := JobStore.markJobRetrying jobId retryAt in
           ret updatedJob) s
        else
          (let! deadJob := JobStore.markJobFailed now jobId errorMessage in
           ret deadJob) s
    end.

Definition getJobsReadyForExecution (now : Z) (s : JobStore) : list Job :=
  JobStore.getJobsReadyForExecution now s.

Definition getStats (s : JobStore) : JobStore.Stats := JobStore.getStats s.

Definition getJobsByStatus (s : JobStore) (st : Status) : list Job :=
  JobStore.getJobsByStatus s st.

End QueueManager.

(** ** scheduler.js

    The event loop runs one callback at a time, so the scheduler is a
    transition system over [World]: each turn (an API request, a firing of
    the poll timer, the settling of a worker-pool promise) runs to its end
    before the next starts. An activation of [dispatchJob] that has reached
    [await this.workerPool.executeJob(job)] is parked in [suspended] under
    its [job.id] until that promise settles. [calls] records, oldest first,
    the calls the scheduler makes on the queue manager. *)

Record Scheduler : Type := mkScheduler {
  isRunning : bool;
  isPaused : bool;
  activeExecutions : gset string
}.

Inductive Call : Type :=
| StartJob (jobId : string)
| CompleteJob (jobId : string)
| FailJob (jobId : string).

(** How the promise of [workerPool.executeJob] settles. *)
Inductive Outcome : Type :=
| Resolved
| Rejected (errorMessage : string).

Record World : Type := mkWorld {
  store : JobStore;
  scheduler : Scheduler;
  suspended : list string;
  calls : list Call
}.

Fixpoint remove_first (x : string) (l : list string) : list string :=
  match l with
  | [] => []
  | y :: l' => if decide (y = x) then l' else y :: remove_first x l'
  end.

Module Scheduler.

Definition new : Scheduler := mkScheduler false false ∅.

Definition start (sc : Scheduler) : Scheduler :=
  if isRunning sc then sc else mkScheduler true false (activeExecutions sc).

Definition pause (sc : Scheduler) : Scheduler :=
  if negb (isRunning sc) then sc else mkScheduler (isRunning sc) true (activeExecutions sc).

Definition resume (sc : Scheduler) : Scheduler :=
  if negb (isRunning sc) || negb (isPaused sc) then sc
  else mkScheduler (isRunning sc) false (activeExecutions sc).

Definition stop (sc : Scheduler) : Scheduler :=
  mkScheduler false false (activeExecutions sc).

Definition with_active (f : gset string → gset string) (sc : Scheduler) : Scheduler :=
  mkScheduler (isRunning sc) (isPaused sc) (f (activeExecutions sc)).

(** [dispatchJob] up to its [await]: the id joins [activeExecutions], then
    [startJob] runs. If it throws, the [catch] reports the failure and the
    [finally] releases the id within the same turn; an exception of
    [failJob] itself leaves through the rejected promise that nobody awaits. *)
Definition dispatchJob (env : Env) (now : Z) (job : Job) (w : World) : World :=
  let sc := with_active (λ a, {[id job]} ∪ a) (scheduler w) in
  match QueueManager.startJob now (id job) (store w) with
  | (Return _, s) =>
      mkWorld s sc (suspended w ++ [id job]) (calls w ++ [StartJob (id job)])
  | (Throw e, s) =>
      let s' := (QueueManager.failJob env now (id job) (message e) s).2 in
      mkWorld s' (with_active (λ a, a ∖ {[id job]}) sc) (suspended w)
              (calls w ++ [StartJob (id job); FailJob (id job)])
  end.

(** [dispatchJob] from its [await] on, for the activation parked under
    [jobId]. *)
Definition dispatchJob_settled (env : Env) (now : Z) (jobId : string)
    (outcome : Outcome) (w : World) : World :=
  let parked := remove_first jobId (suspended w) in
  let sc := with_active (λ a, a ∖ {[jobId]}) (scheduler w) in
  match outcome with
  | Resolved =>
      match QueueManager.completeJob now jobId (store w) with
      | (Return _, s) => mkWorld s sc parked (calls w ++ [CompleteJob jobId])
      | (Throw e, s) =>
          let s' := (QueueManager.failJob env now jobId (message e) s).2 in
          mkWorld s' sc parked (calls w ++ [CompleteJob jobId; FailJob jobId])
      end
  | Rejected errorMessage =>
      let s' := (QueueManager.failJob env now jobId errorMessage (store w)).2 in
      mkWorld s' sc parked (calls w ++ [FailJob jobId])
  end.

(** The [for] loop of [poll]; [clock k] is the time at which the loop
    reaches the [k]-th job of the list. *)
Fixpoint dispatch_all (env : Env) (clock : nat → Z) (ready : list Job)
    (w : World) : World :=
  match ready with
  | [] => w
  | job :: rest =>
      dispatch_all env (λ k, clock (S k)) rest
        (if decide (id job ∈ activeExecutions (scheduler w)) then w
         else dispatchJob env (clock O) job w)
  end.

(** [now] is the time at which the ready list is taken. *)
Definition poll (env : Env) (now : Z) (clock : nat → Z) (w : World) : World :=
  if isPaused (scheduler w) || negb (isRunning (scheduler w)) then w
  else dispatch_all env clock
         (QueueManager.getJobsReadyForExecution now (store w)) w.

(** [this.activeExecutions.size > 0] *)
Definition hasActiveExecutions (sc : Scheduler) : bool :=
  bool_decide (0 < size (activeExecutions sc))%nat.

Record Stats : Type := mkStats {
  stats_isRunning : bool;
  stats_isPaused : bool;
  stats_activeExecutions : nat
}.

Definition getStats (sc : Scheduler) : Stats :=
  mkStats (isRunning sc) (isPaused sc) (size (activeExecutions sc)).

End Scheduler.

(** ** The system *)

Definition with_scheduler (f : Scheduler → Scheduler) (w : World) : World :=
  mkWorld (store w) (f (scheduler w)) (suspended w) (calls w).

(** [POST /jobs/email]: the controller calls [queueManager.createJob] and
    answers 503 when it throws. *)
Definition submit (env : Env) (uuid : string) (now : Z) (type : string)
    (payload : Payload) (options : Options) (w : World) : World :=
  mkWorld (QueueManager.createJob env uuid now type payload options (store w)).2
          (scheduler w) (suspended w) (calls w).

Definition boot (env : Env) : World :=
  mkWorld (JobStore.new env) Scheduler.new [] [].

(** A [maxAttempts] option is a positive integer; zero reads as absent. *)
Definition options_ok (options : Options) : Prop :=
  match o_maxAttempts options with
  | Some m => 0 ≤ m
  | None => True
  end.

(** One turn of the event loop. The clock reads milliseconds since the
    epoch, a positive number, and [uuidv4] yields an id that no job of the
    store carries. When the poll timer fires and when and how a worker-pool
    promise settles is up to the environment. *)
Inductive step (env : Env) (w : World) : World → Prop :=
| step_submit uuid now type payload options :
    0 < now →
    jobs (store w) !! uuid = None →
    options_ok options →
    step env w (submit env uuid now type payload options w)
| step_poll now clock :
    0 < now →
    (∀ k, 0 < clock k) →
    step env w (Scheduler.poll env now clock w)
| step_settled now jobId outcome :
    0 < now →
    jobId ∈ suspended w →
    step env w (Scheduler.dispatchJob_settled env now jobId outcome w)
| step_start : step env w (with_scheduler Scheduler.start w)
| step_pause : step env w (with_scheduler Scheduler.pause w)
| step_resume : step env w (with_scheduler Scheduler.resume w)
| step_stop : step env w (with_scheduler Scheduler.stop w).

Inductive reachable (env : Env) : World → Prop :=
| reach_boot : reachable env (boot env)
| reach_step w w' : reachable env w → step env w w' → reachable env w'.

(** Capacity is a size, the attempt limit is positive and the backoff base
    is a duration. *)
Definition env_ok (env : Env) : Prop :=
  0 ≤ QUEUE_MAX_SIZE env ∧ 1 ≤ MAX_JOB_ATTEMPTS env ∧ 0 ≤ RETRY_BACKOFF_BASE_MS env.

(** ** Invariants and orderings *)

(** The status index agrees with the jobs: an id sits in the bucket of a
    status exactly when the job stored under it has that status. *)
Record index_ok (s : JobStore) : Prop := mk_index_ok {
  idx_bucket : ∀ st i,
    i ∈ bucket st (jobsByStatus s) ↔ ∃ j, jobs s !! i = Some j ∧ status j = st;
  idx_nodup : ∀ st, NoDup (bucket st (jobsByStatus s));
  idx_id : ∀ i j, jobs s !! i = Some j → id j = i
}.

Definition job_ok (j : Job) : Prop :=
  attempts j ≤ maxAttempts j ∧
  (status j = PENDING ∨ status j = RETRYING → attempts j < maxAttempts j) ∧
  (status j = DEAD → attempts j = maxAttempts j) ∧
  (status j = RETRYING → ∃ t, retryAt j = Some t ∧ 0 < t).

Definition jobs_ok (s : JobStore) : Prop :=
  map_Forall (λ _ j, job_ok j) (jobs s).

Definition size_ok (env : Env) (s : JobStore) : Prop :=
  maxQueueSize s = QUEUE_MAX_SIZE env ∧ Z.of_nat (size (jobs s)) ≤ maxQueueSize s.

(** The statuses from which the scheduler picks a job up. *)
Definition dispatchable (s : JobStore) (jobId : string) : Prop :=
  ∃ j, jobs s !! jobId = Some j ∧ (status j = PENDING ∨ status j = RETRYING).

(** The ids whose dispatch is open after the calls [cs], starting from
    [open]: [startJob] opens one, [completeJob] and [failJob] close it. *)
Fixpoint open_after (open : gset string) (cs : list Call) : gset string :=
  match cs with
  | [] => open
  | StartJob i :: cs' => open_after ({[i]} ∪ open) cs'
  | CompleteJob i :: cs' => open_after (open ∖ {[i]}) cs'
  | FailJob i :: cs' => open_after (open ∖ {[i]}) cs'
  end.

(** No [startJob] of an id whose dispatch is still open. *)
Fixpoint no_overlap (open : gset string) (cs : list Call) : bool :=
  match cs with
  | [] => true
  | StartJob i :: cs' =>
      if decide (i ∈ open) then false else no_overlap ({[i]} ∪ open) cs'
  | CompleteJob i :: cs' => no_overlap (open ∖ {[i]}) cs'
  | FailJob i :: cs' => no_overlap (open ∖ {[i]}) cs'
  end.

Definition sched_ok (w : World) : Prop :=
  NoDup (suspended w) ∧
  (∀ i, i ∈ suspended w ↔ i ∈ activeExecutions (scheduler w)) ∧
  no_overlap ∅ (calls w) = true ∧
  open_after ∅ (calls w) = activeExecutions (scheduler w).

Definition store_ok (env : Env) (s : JobStore) : Prop :=
  index_ok s ∧ (env_ok env → jobs_ok s ∧ size_ok env s).

Definition world_ok (env : Env) (w : World) : Prop :=
  store_ok env (store w) ∧ sched_ok w.

(** [s'] is [s] with the job under [jobId] replaced by [job']. *)
Definition rewrites (jobId : string) (job' : Job) (s s' : JobStore) : Prop :=
  jobs s' = <[jobId := job']> (jobs s) ∧
  maxQueueSize s' = maxQueueSize s ∧
  (index_ok s → index_ok s').



(** ** The life of a job *)

(** What the fields of a job look like in each status, between two turns of
    the event loop. *)
Definition job_life (j : Job) : Prop :=
  match status j with
  | PENDING =>
      attempts j = 0 ∧ startedAt j = None ∧ finishedAt j = None ∧
      error j = None ∧ retryAt j = None
  | RUNNING => 1 ≤ attempts j ∧ is_Some (startedAt j) ∧ finishedAt j = None
  | COMPLETED =>
      1 ≤ attempts j ∧ is_Some (startedAt j) ∧ is_Some (finishedAt j)
  | FAILED => False
  | RETRYING =>
      1 ≤ attempts j ∧ is_Some (startedAt j) ∧ finishedAt j = None ∧
      is_Some (error j) ∧ is_Some (retryAt j)
  | DEAD =>
      1 ≤ attempts j ∧ is_Some (startedAt j) ∧ is_Some (finishedAt j) ∧
      is_Some (error j)
  end.

#[global] Instance Call_eq_dec : EqDecision Call.
Proof. solve_decision. Defined.

(** How often the scheduler has called [startJob] on an id. *)
Definition starts (jobId : string) (cs : list Call) : nat :=
  length (filter (λ c, c = StartJob jobId) cs).

Definition life_ok (w : World) : Prop :=
  map_Forall (λ _ j, job_life j) (jobs (store w)) ∧
  (∀ i, i ∈ suspended w ↔
        ∃ j, jobs (store w) !! i = Some j ∧ status j = RUNNING) ∧
  (∀ i, match jobs (store w) !! i with
        | Some j => attempts j = Z.of_nat (starts i (calls w))
        | None => starts i (calls w) = 0%nat
        end).

(** The job as [startJob] leaves it when it returns. *)
Definition started (now : Z) (j : Job) : Job :=
  mkJob (id j) (type j) (payload j) RUNNING (attempts j + 1) (maxAttempts j)
        (createdAt j) (Some now) (finishedAt j) (error j) (retryAt j).

(** The job as [completeJob] leaves it. *)
Definition completed_at (now : Z) (j : Job) : Job :=
  mkJob (id j) (type j) (payload j) COMPLETED (attempts j) (maxAttempts j)
        (createdAt j) (startedAt j) (Some now) (error j) (retryAt j).

(** The job as [failJob] leaves it: to be retried, or dead. *)
Definition failed_at (env : Env) (now : Z) (msg : string) (j : Job) : Job :=
  if decide (attempts j < maxAttempts j) then
    mkJob (id j) (type j) (payload j) RETRYING (attempts j) (maxAttempts j)
          (createdAt j) (startedAt j) (finishedAt j) (Some msg)
          (Some (now + RETRY_BACKOFF_BASE_MS env * 2 ^ attempts j))
  else
    mkJob (id j) (type j) (payload j) DEAD (attempts j) (maxAttempts j)
          (createdAt j) (startedAt j) (Some now) (Some msg) (retryAt j).

(** The job as a settled dispatch leaves it, and the call that does it. *)
Definition settled_job (env : Env) (now : Z) (outcome : Outcome) (j : Job) : Job :=
  match outcome with
  | Resolved => completed_at now j
  | Rejected msg => failed_at env now msg j
  end.

Definition settle_call (jobId : string) (outcome : Outcome) : Call :=
  match outcome with
  | Resolved => CompleteJob jobId
  | Rejected _ => FailJob jobId
  end.

(** [j'] is a later state of the job [j]: what creation fixed is kept and
    the attempts have not gone down. *)
Definition evolves (j j' : Job) : Prop :=
  id j' = id j ∧ type j' = type j ∧ payload j' = payload j ∧
  maxAttempts j' = maxAttempts j ∧ createdAt j' = createdAt j ∧
  attempts j ≤ attempts j'.

(** Every job of [s] is still in [s'], in a later state. *)
Definition store_evolves (s s' : JobStore) : Prop :=
  ∀ i j, jobs s !! i = Some j → ∃ j', jobs s' !! i = Some j' ∧ evolves j j'.

(** ** The poll timer

    [scheduleNextPoll], and with it the timer halves of [start], [pause],
    [resume], [stop] and [poll]. [setTimeout] hands out a new handle and arms
    it; [clearTimeout] disarms a handle, and is harmless on one that has
    fired. A timeout that fires is disarmed and runs [poll]. *)

Record Timers : Type := mkTimers {
  armed : gset nat;
  next_handle : nat
}.

Definition setTimeout (t : Timers) : nat * Timers :=
  (next_handle t, mkTimers ({[next_handle t]} ∪ armed t) (S (next_handle t))).

Definition clearTimeout (h : nat) (t : Timers) : Timers :=
  mkTimers (armed t ∖ {[h]}) (next_handle t).

(** The world together with [this.schedulerTimer] and the timers of the
    process. *)
Record Timed : Type := mkTimed {
  world : World;
  schedulerTimer : option nat;
  timers : Timers
}.

Definition with_world (f : World → World) (x : Timed) : Timed :=
  mkTimed (f (world x)) (schedulerTimer x) (timers x).

Module Polling.

Definition scheduleNextPoll (x : Timed) : Timed :=
  if negb (isRunning (scheduler (world x))) then x
  else
    let '(h, t) := setTimeout (timers x) in
    mkTimed (world x) (Some h) t.

(** [if (this.schedulerTimer) { clearTimeout(...); this.schedulerTimer = null }] *)
Definition clearPollTimer (x : Timed) : Timed :=
  match schedulerTimer x with
  | Some h => mkTimed (world x) None (clearTimeout h (timers x))
  | None => x
  end.

Definition start (x : Timed) : Timed :=
  if isRunning (scheduler (world x)) then x
  else scheduleNextPoll (with_world (with_scheduler Scheduler.start) x).

Definition pause (x : Timed) : Timed :=
  if negb (isRunning (scheduler (world x))) then x
  else clearPollTimer (with_world (with_scheduler Scheduler.pause) x).

Definition resume (x : Timed) : Timed :=
  if negb (isRunning (scheduler (world x))) || negb (isPaused (scheduler (world x)))
  then x
  else scheduleNextPoll (with_world (with_scheduler Scheduler.resume) x).

Definition stop (x : Timed) : Timed :=
  clearPollTimer (with_world (with_scheduler Scheduler.stop) x).

(** [poll] returns at once when paused or stopped, and otherwise ends by
    scheduling the next poll. *)
Definition poll (env : Env) (now : Z) (clock : nat → Z) (x : Timed) : Timed :=
  if isPaused (scheduler (world x)) || negb (isRunning (scheduler (world x)))
  then x
  else scheduleNextPoll (with_world (Scheduler.poll env now clock) x).

(** The timeout [h] fires. *)
Definition fire (env : Env) (now : Z) (clock : nat → Z) (h : nat) (x : Timed) : Timed :=
  poll env now clock
    (mkTimed (world x) (schedulerTimer x) (clearTimeout h (timers x))).

End Polling.

Definition timed_boot (env : Env) : Timed :=
  mkTimed (boot env) None (mkTimers ∅ 0).

(** The turns of the process with its timer: a poll runs only when an armed
    timeout fires. *)
Inductive timed_step (env : Env) (x : Timed) : Timed → Prop :=
| timed_submit uuid now type payload options :
    0 < now →
    jobs (store (world x)) !! uuid = None →
    options_ok options →
    timed_step env x (with_world (submit env uuid now type payload options) x)
| timed_fire h now clock :
    h ∈ armed (timers x) →
    0 < now →
    (∀ k, 0 < clock k) →
    timed_step env x (Polling.fire env now clock h x)
| timed_settled now jobId outcome :
    0 < now →
    jobId ∈ suspended (world x) →
    timed_step env x
      (with_world (Scheduler.dispatchJob_settled env now jobId outcome) x)
| timed_start : timed_step env x (Polling.start x)
| timed_pause : timed_step env x (Polling.pause x)
| timed_resume : timed_step env x (Polling.resume x)
| timed_stop : timed_step env x (Polling.stop x).

Inductive timed_reachable (env : Env) : Timed → Prop :=
| timed_reach_boot : timed_reachable env (timed_boot env)
| timed_reach_step x x' :
    timed_reachable env x → timed_step env x x' → timed_reachable env x'.

(** One timeout is armed, the one in [schedulerTimer], while the scheduler
    runs unpaused; none otherwise. *)
Definition timer_ok (x : Timed) : Prop :=
  if isRunning (scheduler (world x)) && negb (isPaused (scheduler (world x)))
  then ∃ h, schedulerTimer x = Some h ∧ armed (timers x) = {[h]}
  else schedulerTimer x = None ∧ armed (timers x) = ∅.

(** The scheduler is paused or stopped. *)
Definition idle (x : Timed) : Prop :=
  isPaused (scheduler (world x)) = true ∨ isRunning (scheduler (world x)) = false.

(** A turn that leaves the scheduler paused or stopped. *)
Definition idle_step (env : Env) (x x' : Timed) : Prop :=
  timed_step env x x' ∧ idle x'.

(** ** shutdown/graceful.js

    The handlers are opaque asynchronous functions, known by their names.
    How the call of the [k]-th handler goes is given by [call k]: it throws
    at once, or returns a promise that [shutdown] awaits and that settles in
    a later turn. [log] is what the logger receives; [exited] is the code
    [process.exit] was called with.

    What a handler throws or rejects with can be any value. The [catch]
    around the handler reads [error.message] of it. [WithMessage m]: the
    read gives [m], the text the logger gets (an [Error], or any value other
    than [null] and [undefined]). [NoMessage t]: the read itself throws, as
    it does on [null] and on [undefined] (a TypeError) and on an object
    whose getter throws; what it throws reaches the outer [catch], which
    reads the message and the stack of that, and [t] is that message, or
    [None] if that read throws as well. *)

Module GracefulShutdown.

Inductive LogEvent : Type :=
| AlreadyInProgress
| Started (signal : string) (handlers : nat)
| ExecutingHandler (name : string)
| HandlerComplete (name : string)
| HandlerError (name : string) (error : string)
| Complete
| ShutdownError (error : string)
| Timeout.

Inductive Thrown : Type :=
| WithMessage (message : string)
| NoMessage (thrown : option string).

Inductive HandlerCall : Type :=
| ThrowsNow (error : Thrown)
| Awaited.

Inductive Settled : Type :=
| Fulfilled
| RejectedWith (error : Thrown).

Record State : Type := mkState {
  isShuttingDown : bool;
  shutdownHandlers : list string;
  awaiting : option nat;
  forceExitTimer : bool;
  log : list LogEvent;
  exited : option Z
}.

Definition new : State := mkState false [] None false [] None.

Definition registerHandler (name : string) (st : State) : State :=
  mkState (isShuttingDown st) (shutdownHandlers st ++ [name]) (awaiting st)
          (forceExitTimer st) (log st) (exited st).

Definition isShutdown (st : State) : bool := isShuttingDown st.

Definition logged (e : LogEvent) (st : State) : State :=
  mkState (isShuttingDown st) (shutdownHandlers st) (awaiting st)
          (forceExitTimer st) (log st ++ [e]) (exited st).

(** The outer [catch], entered with what the read of [error.message] in
    the inner [catch] threw. With a message that can be read it logs it,
    clears the timer and exits with code 1. Otherwise building the log
    record throws again: nothing is logged, the timer stays armed, and the
    promise of [shutdown] rejects with the loop left where it was. *)
Definition outer_catch (thrown : option string) (st : State) : State :=
  match thrown with
  | Some message =>
      mkState (isShuttingDown st) (shutdownHandlers st) None false
              (log st ++ [ShutdownError message]) (Some 1)
  | None =>
      mkState (isShuttingDown st) (shutdownHandlers st) None
              (forceExitTimer st) (log st) (exited st)
  end.

(** The [for] loop from the [k]-th handler on, [rest] being the handlers
    from there; it runs until a handler has to be awaited, or an error
    takes it to the outer [catch], or the list ends, where the timer is
    cleared and the process exits with code 0. *)
Fixpoint run (call : nat → HandlerCall) (k : nat) (rest : list string)
    (st : State) : State :=
  match rest with
  | [] =>
      mkState (isShuttingDown st) (shutdownHandlers st) None false
              (log st ++ [Complete]) (Some 0)
  | name :: rest' =>
      match call k with
      | ThrowsNow (WithMessage error) =>
          run call (S k) rest'
            (logged (HandlerError name error) (logged (ExecutingHandler name) st))
      | ThrowsNow (NoMessage thrown) =>
          outer_catch thrown (logged (ExecutingHandler name) st)
      | Awaited =>
          mkState (isShuttingDown st) (shutdownHandlers st) (Some k)
                  (forceExitTimer st) (log st ++ [ExecutingHandler name])
                  (exited st)
      end
  end.

Definition shutdown (call : nat → HandlerCall) (signal : string) (st : State) : State :=
  if isShuttingDown st then logged AlreadyInProgress st
  else
    run call 0 (shutdownHandlers st)
      (mkState true (shutdownHandlers st) (awaiting st) true
               (log st ++ [Started signal (length (shutdownHandlers st))])
               (exited st)).

(** The promise of the awaited handler settles and the loop goes on, or is
    left through the outer [catch]. *)
Definition handler_settled (call : nat → HandlerCall) (r : Settled) (st : State) : State :=
  match awaiting st with
  | None => st
  | Some k =>
      match shutdownHandlers st !! k with
      | None => st
      | Some name =>
          match r with
          | Fulfilled =>
              run call (S k) (drop (S k) (shutdownHandlers st))
                (logged (HandlerComplete name) st)
          | RejectedWith (WithMessage error) =>
              run call (S k) (drop (S k) (shutdownHandlers st))
                (logged (HandlerError name error) st)
          | RejectedWith (NoMessage thrown) => outer_catch thrown st
          end
      end
  end.

(** The force-exit timer fires. *)
Definition timeout (st : State) : State :=
  if forceExitTimer st then
    mkState (isShuttingDown st) (shutdownHandlers st) (awaiting st) false
            (log st ++ [Timeout]) (Some 1)
  else st.

(** The names of the handlers that have been called, oldest first. *)
Definition executed (l : list LogEvent) : list string :=
  omap (λ e, match e with ExecutingHandler name => Some name | _ => None end) l.

(** The turns of the process until it exits. *)
Inductive step (call : nat → HandlerCall) (st : State) : State → Prop :=
| step_register name :
    exited st = None → step call st (registerHandler name st)
| step_signal signal :
    exited st = None → step call st (shutdown call signal st)
| step_settled r :
    exited st = None → is_Some (awaiting st) →
    step call st (handler_settled call r st)
| step_timeout :
    exited st = None → forceExitTimer st = true →
    step call st (timeout st).

Inductive reachable (call : nat → HandlerCall) : State → Prop :=
| reach_new : reachable call new
| reach_step st st' : reachable call st → step call st st' → reachable call st'.

(** Where the loop stands. *)
Definition progress_ok (st : State) : Prop :=
  executed (log st) `prefix_of` shutdownHandlers st ∧
  (isShuttingDown st = false →
   awaiting st = None ∧ forceExitTimer st = false ∧ exited st = None ∧
   executed (log st) = []) ∧
  (∀ k, awaiting st = Some k →
        executed (log st) = take (S k) (shutdownHandlers st) ∧
        (k < length (shutdownHandlers st))%nat) ∧
  (isShuttingDown st = true → exited st = None → forceExitTimer st = true) ∧
  (exited st = Some 0 →
   awaiting st = None ∧ executed (log st) = shutdownHandlers st) ∧
  (∀ c, exited st = Some c →
        c = 0 ∨ c = 1 ∧ (Timeout ∈ log st ∨ ∃ m, ShutdownError m ∈ log st)) ∧
  (Timeout ∈ log st → exited st = Some 1) ∧
  (∀ m, ShutdownError m ∈ log st →
        exited st = Some 1 ∧ forceExitTimer st = false).

(** The message of the error can be read. *)
Definition readable (error : Thrown) : bool :=
  match error with
  | WithMessage _ => true
  | NoMessage _ => false
  end.

Definition call_readable (c : HandlerCall) : bool :=
  match c with
  | ThrowsNow error => readable error
  | Awaited => true
  end.

Definition settled_readable (r : Settled) : bool :=
  match r with
  | Fulfilled => true
  | RejectedWith error => readable error
  end.

(** The handlers still to be settled. *)
Definition remaining (st : State) : nat :=
  match awaiting st with
  | Some k => length (shutdownHandlers st) - k
  | None => 0
  end.

(** The settlements [rs], one after the other. *)
Definition settle_all (call : nat → HandlerCall) (rs : list Settled) (st : State) : State :=
  foldl (λ st r, handler_settled call r st) st rs.

End GracefulShutdown.

(** A shutdown of the three handlers that the master registers; the call of
    the second one throws at once, the third one is rejected. In [sd_failed]
    the first one rejects with [null] instead. *)
Definition sd_call (k : nat) : GracefulShutdown.HandlerCall :=
  match k with
  | 1%nat => GracefulShutdown.ThrowsNow (GracefulShutdown.WithMessage "pool gone")
  | _ => GracefulShutdown.Awaited
  end.

Definition sd_registered : GracefulShutdown.State :=
  GracefulShutdown.registerHandler "api-cluster"
    (GracefulShutdown.registerHandler "worker-pool"
       (GracefulShutdown.registerHandler "scheduler" GracefulShutdown.new)).

Definition sd_signalled : GracefulShutdown.State :=
  GracefulShutdown.shutdown sd_call "SIGTERM" sd_registered.

Definition sd_done : GracefulShutdown.State :=
  GracefulShutdown.handler_settled sd_call
    (GracefulShutdown.RejectedWith (GracefulShutdown.WithMessage "late"))
    (GracefulShutdown.handler_settled sd_call GracefulShutdown.Fulfilled
       sd_signalled).


(** ** api/controllers.js: the address format

    [emailRegex.test(to)] for a string [to]. A string is its list of UTF-16
    code units. The pattern has both anchors and no flags, so [test] asks
    whether the whole string is in the language of the pattern; it is
    decided here by derivatives. *)

Module Email.

Inductive Regex : Type :=
| Never
| Empty
| Class (p : Z → bool)
| Seq (r1 r2 : Regex)
| Alt (r1 r2 : Regex)
| Star (r : Regex).

(** [r+] *)
Definition Plus (r : Regex) : Regex := Seq r (Star r).

Fixpoint nullable (r : Regex) : bool :=
  match r with
  | Never => false
  | Empty => true
  | Class _ => false
  | Seq r1 r2 => nullable r1 && nullable r2
  | Alt r1 r2 => nullable r1 || nullable r2
  | Star _ => true
  end.

Fixpoint deriv (c : Z) (r : Regex) : Regex :=
  match r with
  | Never => Never
  | Empty => Never
  | Class p => if p c then Empty else Never
  | Seq r1 r2 =>
      if nullable r1 then Alt (Seq (deriv c r1) r2) (deriv c r2)
      else Seq (deriv c r1) r2
  | Alt r1 r2 => Alt (deriv c r1) (deriv c r2)
  | Star r1 => Seq (deriv c r1) (Star r1)
  end.

(** [regex.test(s)] for an anchored pattern. *)
Definition test (r : Regex) (s : list Z) : bool :=
  nullable (foldl (λ r c, deriv c r) r s).

(** [\s]: the white space and line terminator code units of ECMAScript. *)
Definition is_space (c : Z) : bool :=
  bool_decide (c ∈ [9; 10; 11; 12; 13; 32; 160; 5760; 8232; 8233; 8239; 8287;
                    12288; 65279]) ||
  (bool_decide (8192 ≤ c) && bool_decide (c ≤ 8202)).

Definition at_sign : Z := 64.
Definition dot : Z := 46.

(** [[^\s@]] *)
Definition atom (c : Z) : bool := negb (is_space c) && negb (bool_decide (c = at_sign)).

(** [/^[^\s@]+@[^\s@]+\.[^\s@]+$/] *)
Definition emailRegex : Regex :=
  Seq (Plus (Class atom))
    (Seq (Class (λ c, bool_decide (c = at_sign)))
       (Seq (Plus (Class atom))
          (Seq (Class (λ c, bool_decide (c = dot)))
             (Plus (Class atom))))).

(** The language of a pattern. *)
Inductive lang : Regex → list Z → Prop :=
| lang_Empty : lang Empty []
| lang_Class p c : p c = true → lang (Class p) [c]
| lang_Seq r1 r2 s1 s2 : lang r1 s1 → lang r2 s2 → lang (Seq r1 r2) (s1 ++ s2)
| lang_Alt_l r1 r2 s : lang r1 s → lang (Alt r1 r2) s
| lang_Alt_r r1 r2 s : lang r2 s → lang (Alt r1 r2) s
| lang_Star_nil r : lang (Star r) []
| lang_Star_cons r s1 s2 : lang r s1 → lang (Star r) s2 → lang (Star r) (s1 ++ s2).

(** The code units of an ASCII string, for examples. *)
Definition code_units (s : string) : list Z :=
  (λ a, Z.of_nat (Ascii.nat_of_ascii a)) <$> String.list_ascii_of_string s.

End Email.

(** ** workers/taskRunner.js and workers/worker.js

    What a worker thread does with a job. The SMTP transporter is a
    parameter: [None] when the constructor could not create it, otherwise
    the function [sendMail] as the way the promise it returns settles.
    A string is read as its sequence of code units, all below 256. *)

Module TaskRunner.

Record MailOptions : Type := mkMailOptions {
  from : string;
  to : string;
  subject : string;
  text : string
}.

(** The [info] of a delivered message. *)
Record Info : Type := mkInfo {
  messageId : string;
  response : string
}.

(** How the promise of [transporter.sendMail] settles. *)
Inductive Sent : Type :=
| Delivered (info : Info)
| SendError (message : string).

(** How the promise of [executeJob] settles. *)
Inductive Result : Type :=
| Success (info : Info)
| Failure (message : string).

(** A property of the payload object; [None] is [undefined]. *)
Fixpoint field (name : string) (payload : Payload) : option string :=
  match payload with
  | [] => None
  | (k, v) :: rest => if decide (k = name) then Some v else field name rest
  end.

(** [!x] for a string or [undefined]. *)
Definition falsy (x : option string) : bool :=
  match x with
  | Some s => bool_decide (s = "")
  | None => true
  end.

Definition isValidEmail (email : string) : bool :=
  Email.test Email.emailRegex (Email.code_units email).

(** [process.env.EMAIL_FROM || 'noreply@example.com'] *)
Definition sender (EMAIL_FROM : option string) : string :=
  if falsy EMAIL_FROM then "noreply@example.com" else default "" EMAIL_FROM.

Definition executeSendEmail (transporter : option (MailOptions → Sent))
    (EMAIL_FROM : option string) (job : Job) : Result :=
  let to := field "to" (payload job) in
  let subject := field "subject" (payload job) in
  let body := field "body" (payload job) in
  if falsy to || falsy subject || falsy body then
    Failure "Missing required email fields: to, subject, body"
  else if negb (isValidEmail (default "" to)) then
    Failure ("Invalid email address: " +:+ default "" to)
  else
    match transporter with
    | None =>
        Failure "Email transporter not initialized. Check SMTP configuration."
    | Some sendMail =>
        match sendMail (mkMailOptions (sender EMAIL_FROM) (default "" to)
                          (default "" subject) (default "" body)) with
        | Delivered info => Success info
        | SendError message => Failure ("Email send failed: " +:+ message)
        end
    end.

Definition executeJob (transporter : option (MailOptions → Sent))
    (EMAIL_FROM : option string) (job : Job) : Result :=
  if decide (type job = "SEND_EMAIL") then
    executeSendEmail transporter EMAIL_FROM job
  else Failure ("Unknown job type: " +:+ type job).

End TaskRunner.

Module Worker.

(** The messages a worker thread posts to its parent. *)
Inductive Message : Type :=
| Ready
| Success (jobId : string) (result : TaskRunner.Info)
| Failure (jobId : string) (message : string)
| WorkerError (message : string)
| Terminated.

(** The reply to [{ type: 'execute', job }]. *)
Definition executeJob (transporter : option (TaskRunner.MailOptions → TaskRunner.Sent))
    (EMAIL_FROM : option string) (job : Job) : Message :=
  match TaskRunner.executeJob transporter EMAIL_FROM job with
  | TaskRunner.Success info => Success (id job) info
  | TaskRunner.Failure message => Failure (id job) message
  end.

End Worker.

(** ** api/controllers.js

    A request body is an object whose [to], [subject] and [body] are
    strings or absent. The store is the one of the process that serves the
    request. *)

Module Api.

Record Body : Type := mkBody {
  to : option string;
  subject : option string;
  body : option string
}.

(** The job as [GET /jobs/:id] shows it. *)
Record JobView : Type := mkJobView {
  v_jobId : string;
  v_type : string;
  v_status : Status;
  v_attempts : Z;
  v_maxAttempts : Z;
  v_createdAt : Z;
  v_startedAt : option Z;
  v_finishedAt : option Z;
  v_error : option string;
  v_payload : Payload
}.

(** Status code and body of the answer. *)
Inductive Response : Type :=
| Created (jobId : string) (status : Status) (createdAt : Z)
| BadRequest (error : string)
| ServiceUnavailable
| InternalServerError (message : string)
| NotFound (jobId : string)
| Ok (job : JobView).

(** [s.includes(part)] *)
Definition includes (part s : string) : bool :=
  bool_decide (is_Some (String.index 0 part s)).

Definition createEmailJob (env : Env) (uuid : string) (now : Z) (b : Body)
    (s : JobStore) : Response * JobStore :=
  if TaskRunner.falsy (to b) || TaskRunner.falsy (subject b)
     || TaskRunner.falsy (body b) then
    (BadRequest "Missing required fields", s)
  else if negb (Email.test Email.emailRegex
                  (Email.code_units (default "" (to b)))) then
    (BadRequest "Invalid email address format", s)
  else
    match QueueManager.createJob env uuid now "SEND_EMAIL"
            [("to", default "" (to b)); ("subject", default "" (subject b));
             ("body", default "" (body b))] no_options s with
    | (Return job, s') => (Created (id job) (status job) (createdAt job), s')
    | (Throw e, s') =>
        if includes "maximum capacity" (message e) then (ServiceUnavailable, s')
        else (InternalServerError (message e), s')
    end.

Definition view (job : Job) : JobView :=
  mkJobView (id job) (type job) (status job) (attempts job) (maxAttempts job)
            (createdAt job) (startedAt job) (finishedAt job) (error job)
            (payload job).

Definition getJobStatus (jobId : string) (s : JobStore) : Response :=
  match QueueManager.getJob s jobId with
  | None => NotFound jobId
  | Some job => Ok (view job)
  end.

End Api.

(** ** workers/workerPool.js

    A worker is known by its [threadId]; the [workerInfo] object of a
    worker is its entry in [currentJob] (absent for [null]) and its
    membership of the arrays. The promise returned by the [p]-th call of
    [executeJob] is promise [p]; [jobCallbacks] maps a job id to the promise
    its callbacks settle. What the pool does to the outside is recorded as a
    list of effects. *)

Module WorkerPool.

Record Pool : Type := mkPool {
  poolSize : Z;
  currentJob : gmap nat string;
  workers : list nat;
  availableWorkers : list nat;
  busyWorkers : gmap nat string;
  jobCallbacks : gmap string nat;
  readyHandlers : gset nat;
  isShuttingDown : bool
}.

Inductive Effect : Type :=
| Spawn (w : nat)
| Post (w : nat) (jobId : string)
| Resolve (p : nat) (result : TaskRunner.Info)
| Reject (p : nat) (message : string).

(** [poolSize || parseInt(process.env.WORKER_POOL_SIZE || '4', 10)] *)
Definition new (poolSize : option Z) (WORKER_POOL_SIZE : Z) : Pool :=
  mkPool (match poolSize with
          | Some n => if decide (n = 0) then WORKER_POOL_SIZE else n
          | None => WORKER_POOL_SIZE
          end) ∅ [] [] ∅ ∅ ∅ false.

Definition with_workers (f : list nat → list nat) (pl : Pool) : Pool :=
  mkPool (poolSize pl) (currentJob pl) (f (workers pl)) (availableWorkers pl)
         (busyWorkers pl) (jobCallbacks pl) (readyHandlers pl)
         (isShuttingDown pl).

Definition with_available (f : list nat → list nat) (pl : Pool) : Pool :=
  mkPool (poolSize pl) (currentJob pl) (workers pl) (f (availableWorkers pl))
         (busyWorkers pl) (jobCallbacks pl) (readyHandlers pl)
         (isShuttingDown pl).

Definition with_currentJob (f : gmap nat string → gmap nat string)
    (pl : Pool) : Pool :=
  mkPool (poolSize pl) (f (currentJob pl)) (workers pl) (availableWorkers pl)
         (busyWorkers pl) (jobCallbacks pl) (readyHandlers pl)
         (isShuttingDown pl).

Definition with_busy (f : gmap nat string → gmap nat string)
    (pl : Pool) : Pool :=
  mkPool (poolSize pl) (currentJob pl) (workers pl) (availableWorkers pl)
         (f (busyWorkers pl)) (jobCallbacks pl) (readyHandlers pl)
         (isShuttingDown pl).

Definition with_callbacks (f : gmap string nat → gmap string nat)
    (pl : Pool) : Pool :=
  mkPool (poolSize pl) (currentJob pl) (workers pl) (availableWorkers pl)
         (busyWorkers pl) (f (jobCallbacks pl)) (readyHandlers pl)
         (isShuttingDown pl).

Definition with_readyHandlers (f : gset nat → gset nat) (pl : Pool) : Pool :=
  mkPool (poolSize pl) (currentJob pl) (workers pl) (availableWorkers pl)
         (busyWorkers pl) (jobCallbacks pl) (f (readyHandlers pl))
         (isShuttingDown pl).

(** [const i = l.indexOf(w); if (i > -1) l.splice(i, 1)] *)
Fixpoint splice_out (w : nat) (l : list nat) : list nat :=
  match l with
  | [] => []
  | x :: rest => if decide (x = w) then rest else x :: splice_out w rest
  end.

(** [createWorker] up to the promise it returns: the thread [w] is new, its
    [workerInfo] has no job, and [readyHandler] listens for its first
    message. *)
Definition createWorker (w : nat) (pl : Pool) : list Effect * Pool :=
  ([Spawn w],
   with_readyHandlers (λ h, {[w]} ∪ h) (with_currentJob (delete w) pl)).

(** The timeout of [createWorker]: [worker.off('message', readyHandler)].
    The rejection it causes ends [initialize], or is logged when the worker
    was a replacement. *)
Definition readyTimeout (w : nat) (pl : Pool) : Pool :=
  with_readyHandlers (λ h, h ∖ {[w]}) pl.

Definition releaseWorker (w : nat) (pl : Pool) : Pool :=
  let pl' := with_busy (delete w) (with_currentJob (delete w) pl) in
  if bool_decide (w ∈ workers pl') && negb (isShuttingDown pl') then
    with_available (λ l, l ++ [w]) pl'
  else pl'.

Definition removeWorker (w : nat) (pl : Pool) : Pool :=
  with_busy (delete w)
    (with_available (splice_out w) (with_workers (splice_out w) pl)).

(** [const callback = this.jobCallbacks.get(jobId); if (callback) { ...;
    this.jobCallbacks.delete(jobId) }] *)
Definition settle (jobId : string) (how : nat → Effect) (pl : Pool) :
    list Effect * Pool :=
  match jobCallbacks pl !! jobId with
  | Some p => ([how p], with_callbacks (delete jobId) pl)
  | None => ([], pl)
  end.

Definition handleJobSuccess (w : nat) (jobId : string)
    (result : TaskRunner.Info) (pl : Pool) : list Effect * Pool :=
  let (es, pl') := settle jobId (λ p, Resolve p result) pl in
  (es, releaseWorker w pl').

Definition handleJobFailure (w : nat) (jobId : string) (message : string)
    (pl : Pool) : list Effect * Pool :=
  let (es, pl') := settle jobId (λ p, Reject p message) pl in
  (es, releaseWorker w pl').

Definition handleWorkerMessage (w : nat) (msg : Worker.Message) (pl : Pool) :
    list Effect * Pool :=
  match msg with
  | Worker.Success jobId result => handleJobSuccess w jobId result pl
  | Worker.Failure jobId message => handleJobFailure w jobId message pl
  | Worker.WorkerError _ | Worker.Terminated | Worker.Ready => ([], pl)
  end.

(** [readyHandler], attached with [once]: the first message of the worker
    detaches it, and only a ['ready'] adds the worker to the pool. *)
Definition readyHandler (w : nat) (msg : Worker.Message) (pl : Pool) : Pool :=
  if decide (w ∈ readyHandlers pl) then
    let pl' := with_readyHandlers (λ h, h ∖ {[w]}) pl in
    match msg with
    | Worker.Ready =>
        with_available (λ l, l ++ [w]) (with_workers (λ l, l ++ [w]) pl')
    | _ => pl'
    end
  else pl.

(** A message of worker [w] runs the listeners of ['message'] in the order
    in which [createWorker] attached them. *)
Definition onMessage (w : nat) (msg : Worker.Message) (pl : Pool) :
    list Effect * Pool :=
  let (es, pl') := handleWorkerMessage w msg pl in
  (es, readyHandler w msg pl').

(** [if (workerInfo.currentJob) { ... }]: the empty id counts as no job. *)
Definition failCurrentJob (w : nat) (message : string) (pl : Pool) :
    list Effect * Pool :=
  match currentJob pl !! w with
  | Some jobId =>
      if decide (jobId = "") then ([], pl)
      else settle jobId (λ p, Reject p message) pl
  | None => ([], pl)
  end.

(** [fresh] is the [threadId] of the replacement, if one is created. *)
Definition handleWorkerError (fresh : nat) (w : nat) (message : string)
    (pl : Pool) : list Effect * Pool :=
  let (es, pl1) := failCurrentJob w ("Worker crashed: " +:+ message) pl in
  let pl2 := removeWorker w pl1 in
  if isShuttingDown pl2 then (es, pl2)
  else let (es', pl3) := createWorker fresh pl2 in (es ++ es', pl3).

(** [code] is the exit code as the template string prints it. *)
Definition handleWorkerExit (w : nat) (code : string) (pl : Pool) :
    list Effect * Pool :=
  let (es, pl1) := failCurrentJob w ("Worker exited with code " +:+ code) pl in
  (es, removeWorker w pl1).

(** [getAvailableWorker] when it is called, and each time its interval
    fires afterwards: [this.availableWorkers.shift()] if there is one. *)
Definition getAvailableWorker (pl : Pool) : option nat * Pool :=
  match availableWorkers pl with
  | w :: rest => (Some w, with_available (λ _, rest) pl)
  | [] => (None, pl)
  end.

(** [executeJob] from the [await] on: worker [w] has been taken for the job
    [jobId] of promise [p]. *)
Definition assign (w : nat) (jobId : string) (p : nat) (pl : Pool) :
    list Effect * Pool :=
  ([Post w jobId],
   with_busy (<[w := jobId]>)
     (with_currentJob (<[w := jobId]>)
        (with_callbacks (<[jobId := p]>) pl))).

Definition hasBusyWorkers (pl : Pool) : bool :=
  bool_decide (0 < size (busyWorkers pl))%nat.

Record Stats : Type := mkStats {
  total : nat;
  available : nat;
  busy : nat
}.

Definition getStats (pl : Pool) : Stats :=
  mkStats (length (workers pl)) (length (availableWorkers pl))
          (size (busyWorkers pl)).

(** What [shutdown] does to the pool: it raises the flag. Its wait for the
    busy workers reads [busyWorkers] only, and the threads it terminates
    at the end leave the pool through their ['exit'] events. *)
Definition shutdown (pl : Pool) : Pool :=
  mkPool (poolSize pl) (currentJob pl) (workers pl) (availableWorkers pl)
         (busyWorkers pl) (jobCallbacks pl) (readyHandlers pl) true.

(** *** The pool and its threads

    What a worker thread can do next, as [workers/worker.js] has it: it
    posts ['ready'] once it has started, answers each ['execute'] with one
    ['success'] or ['failure'] that carries the id of the job, may post
    ['worker-error'] at any time, and ends with an ['error'] followed by an
    ['exit'], or with an ['exit'] alone. *)

Inductive Thread : Type :=
| Starting
| Idle
| Executing (jobId : string)
| Crashed
| Exited.

#[global] Instance Thread_eq_dec : EqDecision Thread.
Proof. solve_decision. Defined.

(** The thread after it has posted [msg], if it can post it. *)
Definition posts (t : Thread) (msg : Worker.Message) : option Thread :=
  match t, msg with
  | Starting, Worker.Ready => Some Idle
  | Executing jobId, Worker.Success jobId' _
  | Executing jobId, Worker.Failure jobId' _ =>
      if decide (jobId' = jobId) then Some Idle else None
  | (Starting | Idle | Executing _), Worker.WorkerError _ => Some t
  | _, _ => None
  end.

Definition alive (t : Thread) : bool :=
  match t with
  | Starting | Idle | Executing _ => true
  | Crashed | Exited => false
  end.

(** An ['execute'] message reaches an idle thread at once; a thread that
    is busy or gone does not start on it. *)
Definition receive (w : nat) (jobId : string) (ts : gmap nat Thread) :
    gmap nat Thread :=
  match ts !! w with
  | Some Idle => <[w := Executing jobId]> ts
  | _ => ts
  end.

(** The promises that have settled, in the order in which they did. *)
Definition settled (es : list Effect) : list nat :=
  omap (λ e, match e with
             | Resolve p _ | Reject p _ => Some p
             | _ => None
             end) es.

(** A call of [executeJob] that has not settled yet: the job id and the
    promise. *)
Definition Execution : Type := string * nat.

Record State : Type := mkState {
  pool : Pool;
  threads : gmap nat Thread;
  (** the number of [createWorker] calls [initialize] has made *)
  created : nat;
  (** the job id of every call of [executeJob], in call order *)
  executions : list string;
  (** the calls that poll for a worker every 100 ms *)
  waiting : list Execution;
  (** the calls that have taken a worker and resume in a microtask *)
  resuming : list (nat * Execution);
  effects : list Effect
}.

Definition boot (poolSize : option Z) (WORKER_POOL_SIZE : Z) : State :=
  mkState (new poolSize WORKER_POOL_SIZE) ∅ 0 [] [] [] [].

Definition with_pool (f : Pool → list Effect * Pool) (st : State) : State :=
  let (es, pl) := f (pool st) in
  mkState pl (threads st) (created st) (executions st) (waiting st)
          (resuming st) (effects st ++ es).

Definition with_threads (f : gmap nat Thread → gmap nat Thread)
    (st : State) : State :=
  mkState (pool st) (f (threads st)) (created st) (executions st)
          (waiting st) (resuming st) (effects st).

(** One more turn of the loop of [initialize]. *)
Definition initialize_next (fresh : nat) (st : State) : State :=
  let st' := with_threads (<[fresh := Starting]>)
               (with_pool (createWorker fresh) st) in
  mkState (pool st') (threads st') (S (created st)) (executions st')
          (waiting st') (resuming st') (effects st').

(** [executeJob(job)] up to its [await]. *)
Definition executeJob (jobId : string) (st : State) : State :=
  let p := length (executions st) in
  if isShuttingDown (pool st) then
    mkState (pool st) (threads st) (created st) (executions st ++ [jobId])
            (waiting st) (resuming st)
            (effects st ++ [Reject p "Worker pool is shutting down"])
  else
    match getAvailableWorker (pool st) with
    | (Some w, pl) =>
        mkState pl (threads st) (created st) (executions st ++ [jobId])
                (waiting st) (resuming st ++ [(w, (jobId, p))]) (effects st)
    | (None, pl) =>
        mkState pl (threads st) (created st) (executions st ++ [jobId])
                (waiting st ++ [(jobId, p)]) (resuming st) (effects st)
    end.

(** The interval of the [k]-th waiting call fires. *)
Definition interval (k : nat) (st : State) : State :=
  match waiting st !! k with
  | Some e =>
      match getAvailableWorker (pool st) with
      | (Some w, pl) =>
          mkState pl (threads st) (created st) (executions st)
                  (delete k (waiting st)) (resuming st ++ [(w, e)])
                  (effects st)
      | (None, _) => st
      end
  | None => st
  end.

(** The oldest resuming call runs to its end. *)
Definition resume (st : State) : State :=
  match resuming st with
  | (w, (jobId, p)) :: rest =>
      let st' := with_threads (receive w jobId)
                   (with_pool (assign w jobId p) st) in
      mkState (pool st') (threads st') (created st') (executions st')
              (waiting st') rest (effects st')
  | [] => st
  end.

(** One turn of the event loop. The microtasks of a turn, the resuming
    calls, run before the next event is taken; only further calls of
    [executeJob] by the same turn can come in between. A caller has one
    call per job id in flight, as the scheduler has, and job ids are not
    empty. [initialize] is called once. *)
Inductive step : State → State → Prop :=
| step_initialize fresh st :
    resuming st = [] →
    fresh ∉ dom (threads st) →
    Z.of_nat (created st) < poolSize (pool st) →
    step st (initialize_next fresh st)
| step_readyTimeout w st :
    resuming st = [] →
    step st (with_pool (λ pl, ([], readyTimeout w pl)) st)
| step_message w msg t t' st :
    resuming st = [] →
    threads st !! w = Some t →
    posts t msg = Some t' →
    step st (with_threads (<[w := t']>) (with_pool (onMessage w msg) st))
| step_error fresh w message t st :
    resuming st = [] →
    threads st !! w = Some t →
    alive t = true →
    fresh ∉ dom (threads st) →
    step st
      (with_threads
         (λ ts, if isShuttingDown (pool st) then <[w := Crashed]> ts
                else <[fresh := Starting]> (<[w := Crashed]> ts))
         (with_pool (handleWorkerError fresh w message) st))
| step_exit w code t st :
    resuming st = [] →
    threads st !! w = Some t →
    t ≠ Exited →
    step st (with_threads (<[w := Exited]>)
               (with_pool (handleWorkerExit w code) st))
| step_executeJob jobId st :
    jobId ≠ "" →
    (∀ p, executions st !! p = Some jobId → p ∈ settled (effects st)) →
    step st (executeJob jobId st)
| step_interval k st :
    resuming st = [] →
    step st (interval k st)
| step_resume st :
    resuming st ≠ [] →
    step st (resume st)
| step_shutdown st :
    resuming st = [] →
    step st (with_pool (λ pl, ([], shutdown pl)) st).

Inductive reachable (poolSize : option Z) (WORKER_POOL_SIZE : Z) :
    State → Prop :=
| reach_boot : reachable poolSize WORKER_POOL_SIZE (boot poolSize WORKER_POOL_SIZE)
| reach_next st st' :
    reachable poolSize WORKER_POOL_SIZE st → step st st' →
    reachable poolSize WORKER_POOL_SIZE st'.

(** The bookkeeping of the pool agrees with itself and with the threads:
    [ws], [av], [busy], [cur] and [sd] are [workers], [availableWorkers],
    [busyWorkers], the [currentJob] fields and [isShuttingDown]; [rs] are
    the workers that resuming calls have taken from [availableWorkers]. *)
Definition bookkeeping_ok (ws av : list nat) (busy cur : gmap nat string)
    (sd : bool) (ts : gmap nat Thread) (rs : list nat) : Prop :=
  NoDup ws ∧
  NoDup (av ++ rs) ∧
  (∀ w, w ∈ av ++ rs →
        w ∈ ws ∧ busy !! w = None ∧ ts !! w = Some Idle) ∧
  (∀ w jobId, busy !! w = Some jobId → w ∈ ws ∧ cur !! w = Some jobId) ∧
  (∀ w, w ∈ ws →
        ts !! w = Some Idle ∨ ∃ jobId, ts !! w = Some (Executing jobId)) ∧
  (∀ w jobId, ts !! w = Some (Executing jobId) → busy !! w = Some jobId) ∧
  (sd = false → ∀ w, w ∈ ws → w ∈ av ++ rs ∨ is_Some (busy !! w)).

Definition pool_ok (st : State) : Prop :=
  bookkeeping_ok (workers (pool st)) (availableWorkers (pool st))
    (busyWorkers (pool st)) (currentJob (pool st)) (isShuttingDown (pool st))
    (threads st) (resuming st).*1.

(** The calls that wait for a worker or resume with one. *)
Definition queued (st : State) : list Execution :=
  waiting st ++ (resuming st).*2.

(** Every promise is accounted for: [done] are the settled promises, [ex]
    the job ids of the calls, [q] the queued calls and [cb] the registered
    callbacks. *)
Definition ledger_ok (done : list nat) (ex : list string)
    (q : list Execution) (cb : gmap string nat) : Prop :=
  NoDup done ∧
  (∀ p, p ∈ done → (p < length ex)%nat) ∧
  NoDup (q.*2) ∧
  (∀ jobId p, (jobId, p) ∈ q →
        ex !! p = Some jobId ∧ (p ∉ done) ∧ cb !! jobId ≠ Some p) ∧
  (∀ jobId p, cb !! jobId = Some p → ex !! p = Some jobId ∧ (p ∉ done)) ∧
  (∀ p jobId, ex !! p = Some jobId →
        p ∈ done ∨ (jobId, p) ∈ q ∨ cb !! jobId = Some p) ∧
  (∀ p p' jobId, ex !! p = Some jobId → ex !! p' = Some jobId →
        p ∉ done → p' ∉ done → p = p') ∧
  (∀ jobId, jobId ∈ ex → jobId ≠ "").

Definition promises_ok (st : State) : Prop :=
  ledger_ok (settled (effects st)) (executions st) (queued st)
    (jobCallbacks (pool st)).

(** A registered callback belongs to a job that a thread is executing. *)
Definition tied (st : State) : Prop :=
  (∀ jobId p, jobCallbacks (pool st) !! jobId = Some p →
        ∃ w, threads st !! w = Some (Executing jobId)) ∧
  (∀ w jobId, threads st !! w = Some (Executing jobId) → jobId ≠ "").

(** The threads that have neither crashed nor exited. *)
Definition alive_threads (ts : gmap nat Thread) : gset nat :=
  dom (filter (λ wt, alive wt.2 = true) ts).

(** [initialize] and the replacement of crashed workers keep the number of
    threads within the size of the pool. *)
Definition threads_ok (st : State) : Prop :=
  (size (alive_threads (threads st)) ≤ created st)%nat ∧
  Z.of_nat (created st) ≤ Z.max 0 (poolSize (pool st)).

(** The part of the pool that the bookkeeping is about. *)
Definition core (pl : Pool) :
    list nat * list nat * gmap nat string * gmap nat string * bool * Z :=
  (workers pl, availableWorkers pl, busyWorkers pl, currentJob pl,
   isShuttingDown pl, poolSize pl).

End WorkerPool.

(** ** A run of the pool

    A pool of two workers: worker 1 starts and reports ready, job [a] is
    handed to it, and it reports success. Worker 2 starts, is given job [b]
    and crashes. *)

Definition p_spawned : WorkerPool.State :=
  WorkerPool.initialize_next 1 (WorkerPool.boot None 2).

Definition p_ready : WorkerPool.State :=
  WorkerPool.with_threads (<[1%nat := WorkerPool.Idle]>)
    (WorkerPool.with_pool (WorkerPool.onMessage 1 Worker.Ready) p_spawned).

Definition p_called : WorkerPool.State := WorkerPool.executeJob "a" p_ready.

Definition p_assigned : WorkerPool.State := WorkerPool.resume p_called.

Definition p_replied : WorkerPool.State :=
  WorkerPool.with_threads (<[1%nat := WorkerPool.Idle]>)
    (WorkerPool.with_pool
       (WorkerPool.onMessage 1
          (Worker.Success "a" (TaskRunner.mkInfo "m1" "250 OK")))
       p_assigned).

Definition p_second : WorkerPool.State :=
  WorkerPool.with_threads (<[2%nat := WorkerPool.Idle]>)
    (WorkerPool.with_pool (WorkerPool.onMessage 2 Worker.Ready)
       (WorkerPool.initialize_next 2 p_assigned)).

Definition p_both : WorkerPool.State :=
  WorkerPool.resume (WorkerPool.executeJob "b" p_second).

Definition p_crashed : WorkerPool.State :=
  WorkerPool.with_threads
    (λ ts, if WorkerPool.isShuttingDown (WorkerPool.pool p_both)
           then <[2%nat := WorkerPool.Crashed]> ts
           else <[3%nat := WorkerPool.Starting]>
                  (<[2%nat := WorkerPool.Crashed]> ts))
    (WorkerPool.with_pool (WorkerPool.handleWorkerError 3 2 "out of memory")
       p_both).

(** After the crash worker 1 reports success, job [b] is handed to the
    pool again and goes to worker 1. The exit of worker 2 is still to come. *)
Definition p_freed : WorkerPool.State :=
  WorkerPool.with_threads (<[1%nat := WorkerPool.Idle]>)
    (WorkerPool.with_pool
       (WorkerPool.onMessage 1
          (Worker.Success "a" (TaskRunner.mkInfo "m1" "250 OK")))
       p_crashed).

Definition p_retried : WorkerPool.State :=
  WorkerPool.resume (WorkerPool.executeJob "b" p_freed).

(** ** A run of the system

    Under the default configuration: job [a] is submitted and dispatched,
    [b] is submitted while [a] runs, [a] fails once; [c], with a single
    attempt allowed, is submitted, dispatched together with [b], and fails;
    [b] succeeds. *)

Definition email : Payload :=
  [("to", "ops@example.org"); ("subject", "report"); ("body", "done")].

Definition w_started : World :=
  with_scheduler Scheduler.start (boot default_env).

Definition w_a_created : World :=
  submit default_env "a" 1 "SEND_EMAIL" email no_options w_started.

Definition w_a_running : World :=
  Scheduler.poll default_env 2 (λ _, 2) w_a_created.

Definition w_b_created : World :=
  submit default_env "b" 3 "SEND_EMAIL" email no_options w_a_running.

Definition w_a_retrying : World :=
  Scheduler.dispatchJob_settled default_env 4 "a" (Rejected "boom") w_b_created.

Definition w_c_created : World :=
  submit default_env "c" 5 "SEND_EMAIL" email (mkOptions (Some 1)) w_a_retrying.

Definition w_c_running : World :=
  Scheduler.poll default_env 6 (λ k, 6 + Z.of_nat k) w_c_created.

Definition w_c_dead : World :=
  Scheduler.dispatchJob_settled default_env 8 "c" (Rejected "boom") w_c_running.

Definition w_b_completed : World :=
  Scheduler.dispatchJob_settled default_env 9 "b" Resolved w_c_dead.

(** The same run with its timer, up to the first dispatch, then paused while
    [a] is in flight and [b] waits. *)
Definition t_started : Timed := Polling.start (timed_boot default_env).

Definition t_a_created : Timed :=
  with_world (submit default_env "a" 1 "SEND_EMAIL" email no_options) t_started.

Definition t_a_running : Timed := Polling.fire default_env 2 (λ _, 2) 0 t_a_created.

Definition t_b_created : Timed :=
  with_world (submit default_env "b" 3 "SEND_EMAIL" email no_options) t_a_running.

Definition t_paused : Timed := Polling.pause t_b_created.

Definition t_drained : Timed :=
  with_world (Scheduler.dispatchJob_settled default_env 4 "a" Resolved) t_paused.

Definition t_stopped : Timed := Polling.stop t_drained.

(** A queue of capacity one, filled by its first submission. *)
Definition tiny_env : Env := mkEnv 1 3 1000.

Definition w_full : World :=
  submit tiny_env "a" 1 "SEND_EMAIL" email no_options (boot tiny_env).

(** ** Sets and buckets *)

Lemma elem_of_set_add (x y : string) (l : list string) :
  y ∈ set_add x l ↔ y = x ∨ y ∈ l.
Proof.
  unfold set_add. case_decide as Hx.
  - split; [by right | intros [-> | ?]; done].
  - rewrite elem_of_app, list_elem_of_singleton. tauto.
Qed.

Lemma elem_of_set_delete (x y : string) (l : list string) :
  y ∈ set_delete x l ↔ y ≠ x ∧ y ∈ l.
Proof. unfold set_delete. by rewrite list_elem_of_filter. Qed.

Lemma NoDup_set_add (x : string) (l : list string) :
  NoDup l → NoDup (set_add x l).
Proof.
  intros Hl. unfold set_add. case_decide as Hx; [done |].
  apply NoDup_app. split_and!; [done | | apply NoDup_singleton].
  intros y Hy ->%list_elem_of_singleton. done.
Qed.

Lemma NoDup_set_delete (x : string) (l : list string) :
  NoDup l → NoDup (set_delete x l).
Proof. apply NoDup_filter. Qed.

Lemma bucket_with_bucket (st st' : Status) f (b : Buckets) :
  bucket st (with_bucket st' f b) =
  if decide (st = st') then f (bucket st b) else bucket st b.
Proof. destruct st, st'; reflexivity. Qed.

(** ** [updateJobStatus] *)

Lemma updateJobStatus_found (jobId : string) (st : Status) (u : Updates)
    (s : JobStore) (job : Job) :
  jobs s !! jobId = Some job →
  JobStore.updateJobStatus jobId st u s =
  (Return (assign (set_status st job) u),
   mkJobStore (<[jobId := assign (set_status st job) u]> (jobs s))
     (with_bucket st (set_add jobId)
        (with_bucket (status job) (set_delete jobId) (jobsByStatus s)))
     (maxQueueSize s)).
Proof. intros H. unfold JobStore.updateJobStatus. by rewrite H. Qed.

Lemma updateJobStatus_index (jobId : string) (st : Status) (u : Updates)
    (s : JobStore) :
  index_ok s → index_ok (JobStore.updateJobStatus jobId st u s).2.
Proof.
  intros [Hb Hn Hi]. unfold JobStore.updateJobStatus.
  destruct (jobs s !! jobId) as [job |] eqn:Hjob; [| by split].
  split; simpl.
  - intros st' i. rewrite bucket_with_bucket.
    destruct (decide (i = jobId)) as [-> | Hne].
    + rewrite lookup_insert_eq. case_decide as Hst.
      * subst st'. rewrite elem_of_set_add. split; [| by left]. eauto.
      * rewrite bucket_with_bucket. split.
        -- intros Hin. exfalso. case_decide as Hold.
           ++ apply elem_of_set_delete in Hin as [? _]. done.
           ++ apply Hb in Hin as (j & Hj & Hs). congruence.
        -- intros (j & [= <-] & Hs). done.
    + rewrite lookup_insert_ne by done. rewrite <- Hb.
      case_decide.
      * rewrite elem_of_set_add, bucket_with_bucket.
        case_decide; [rewrite elem_of_set_delete |]; tauto.
      * rewrite bucket_with_bucket.
        case_decide; [rewrite elem_of_set_delete |]; tauto.
  - intros st'. rewrite bucket_with_bucket. case_decide.
    + apply NoDup_set_add. rewrite bucket_with_bucket.
      case_decide; [apply NoDup_set_delete |]; apply Hn.
    + rewrite bucket_with_bucket.
      case_decide; [apply NoDup_set_delete |]; apply Hn.
  - intros i j. destruct (decide (i = jobId)) as [-> | Hne].
    + rewrite lookup_insert_eq. intros [= <-]. simpl. by apply Hi.
    + rewrite lookup_insert_ne by done. apply Hi.
Qed.

Lemma updateJobStatus_rewrites (jobId : string) (st : Status) (u : Updates)
    (s : JobStore) (job : Job) :
  jobs s !! jobId = Some job →
  ∃ s', JobStore.updateJobStatus jobId st u s =
          (Return (assign (set_status st job) u), s') ∧
        rewrites jobId (assign (set_status st job) u) s s'.
Proof.
  intros Hjob. eexists. split; [by apply updateJobStatus_found |].
  split_and!; [done | done |].
  intros Hok. pose proof (updateJobStatus_index jobId st u s Hok) as H.
  by rewrite (updateJobStatus_found _ _ _ _ _ Hjob) in H.
Qed.

Lemma rewrites_trans (jobId : string) (j1 j2 : Job) (s s1 s2 : JobStore) :
  rewrites jobId j1 s s1 → rewrites jobId j2 s1 s2 → rewrites jobId j2 s s2.
Proof.
  intros (Hj1 & Hm1 & Hi1) (Hj2 & Hm2 & Hi2). split_and!.
  - by rewrite Hj2, Hj1, insert_insert_eq.
  - congruence.
  - auto.
Qed.

Lemma rewrites_lookup (jobId : string) (job' : Job) (s s' : JobStore) :
  rewrites jobId job' s s' → jobs s' !! jobId = Some job'.
Proof. intros (-> & _). apply lookup_insert_eq. Qed.

Lemma rewrites_lookup_ne (jobId i : string) (job' : Job) (s s' : JobStore) :
  rewrites jobId job' s s' → i ≠ jobId → jobs s' !! i = jobs s !! i.
Proof. intros (-> & _) Hne. by apply lookup_insert_ne. Qed.

Lemma rewrites_jobs_ok (jobId : string) (job' : Job) (s s' : JobStore) :
  rewrites jobId job' s s' → jobs_ok s → job_ok job' → jobs_ok s'.
Proof.
  intros (Hj & _) Hok Hjob. unfold jobs_ok. rewrite Hj.
  by apply map_Forall_insert_2.
Qed.

Lemma rewrites_size_ok (env : Env) (jobId : string) (job' : Job)
    (s s' : JobStore) :
  rewrites jobId job' s s' → is_Some (jobs s !! jobId) →
  size_ok env s → size_ok env s'.
Proof.
  intros (Hj & Hm & _) Hsome [Hmax Hsize]. unfold size_ok.
  rewrite Hj, Hm. split; [done |].
  by rewrite map_size_insert_Some.
Qed.

(** ** The operations of the queue manager on a job of the store *)

Lemma startJob_absent (now : Z) (jobId : string) (s : JobStore) :
  jobs s !! jobId = None →
  QueueManager.startJob now jobId s = (Throw TypeError, s).
Proof.
  intros H. unfold QueueManager.startJob, JobStore.isJobRunning,
    JobStore.markJobStarted, JobStore.getJob. by rewrite H.
Qed.

Lemma startJob_running (now : Z) (jobId : string) (s : JobStore) (job : Job) :
  jobs s !! jobId = Some job → status job = RUNNING →
  QueueManager.startJob now jobId s = (Throw (AlreadyRunning jobId), s).
Proof.
  intros H Hst. unfold QueueManager.startJob, JobStore.isJobRunning,
    JobStore.getJob. rewrite H. by rewrite bool_decide_true.
Qed.

Lemma startJob_found (now : Z) (jobId : string) (s : JobStore) (job : Job) :
  jobs s !! jobId = Some job → status job ≠ RUNNING →
  let job' := mkJob (id job) (type job) (payload job) RUNNING
                (attempts job + 1) (maxAttempts job) (createdAt job)
                (Some now) (finishedAt job) (error job) (retryAt job) in
  ∃ s', QueueManager.startJob now jobId s = (Return job', s') ∧
        rewrites jobId job' s s'.
Proof.
  intros H Hst job'. unfold QueueManager.startJob, JobStore.isJobRunning,
    JobStore.markJobStarted, JobStore.getJob. rewrite H.
  rewrite bool_decide_false by done.
  by apply updateJobStatus_rewrites.
Qed.

Lemma completeJob_absent (now : Z) (jobId : string) (s : JobStore) :
  jobs s !! jobId = None →
  QueueManager.completeJob now jobId s = (Throw (JobNotFound jobId), s).
Proof.
  intros H. unfold QueueManager.completeJob, JobStore.markJobCompleted,
    JobStore.updateJobStatus. by rewrite H.
Qed.

Lemma completeJob_found (now : Z) (jobId : string) (s : JobStore) (job : Job) :
  jobs s !! jobId = Some job →
  let job' := mkJob (id job) (type job) (payload job) COMPLETED
                (attempts job) (maxAttempts job) (createdAt job)
                (startedAt job) (Some now) (error job) (retryAt job) in
  ∃ s', QueueManager.completeJob now jobId s = (Return job', s') ∧
        rewrites jobId job' s s'.
Proof.
  intros H job'. unfold QueueManager.completeJob, JobStore.markJobCompleted.
  by apply updateJobStatus_rewrites.
Qed.

Lemma failJob_absent (env : Env) (now : Z) (jobId msg : string) (s : JobStore) :
  jobs s !! jobId = None →
  QueueManager.failJob env now jobId msg s = (Throw (JobNotFound jobId), s).
Proof.
  intros H. unfold QueueManager.failJob, JobStore.getJob. by rewrite H.
Qed.

Lemma failJob_retry (env : Env) (now : Z) (jobId msg : string) (s : JobStore)
    (job : Job) :
  jobs s !! jobId = Some job → attempts job < maxAttempts job →
  let job' := mkJob (id job) (type job) (payload job) RETRYING
                (attempts job) (maxAttempts job) (createdAt job)
                (startedAt job) (finishedAt job) (Some msg)
                (Some (now + RETRY_BACKOFF_BASE_MS env * 2 ^ attempts job)) in
  ∃ s', QueueManager.failJob env now jobId msg s = (Return job', s') ∧
        rewrites jobId job' s s'.
Proof.
  intros H Hlt job'. unfold QueueManager.failJob, JobStore.getJob. rewrite H.
  rewrite decide_True by done. unfold bind, ret.
  unfold JobStore.markJobFailed, JobStore.getJob. rewrite H.
  rewrite decide_False by lia.
  destruct (updateJobStatus_rewrites jobId FAILED
              (mkUpdates None None None (Some msg) None) s job H)
    as (s1 & -> & Hr1).
  unfold JobStore.markJobRetrying.
  destruct (updateJobStatus_rewrites jobId RETRYING
              (mkUpdates None None None None
                 (Some (now + QueueManager.calculateRetryDelay env (attempts job))))
              s1 _ (rewrites_lookup _ _ _ _ Hr1))
    as (s2 & -> & Hr2).
  exists s2. split; [done |]. by eapply rewrites_trans.
Qed.

Lemma failJob_dead (env : Env) (now : Z) (jobId msg : string) (s : JobStore)
    (job : Job) :
  jobs s !! jobId = Some job → ¬ attempts job < maxAttempts job →
  let job' := mkJob (id job) (type job) (payload job) DEAD
                (attempts job) (maxAttempts job) (createdAt job)
                (startedAt job) (Some now) (Some msg) (retryAt job) in
  ∃ s', QueueManager.failJob env now jobId msg s = (Return job', s') ∧
        rewrites jobId job' s s'.
Proof.
  intros H Hge job'. unfold QueueManager.failJob, JobStore.getJob. rewrite H.
  rewrite decide_False by done. unfold bind, ret.
  unfold JobStore.markJobFailed, JobStore.getJob. rewrite H.
  rewrite decide_True by lia.
  destruct (updateJobStatus_rewrites jobId DEAD
              (mkUpdates None None (Some now) (Some msg) None) s job H)
    as (s1 & -> & Hr1).
  by exists s1.
Qed.

(** ** The operations keep the store well formed *)

Ltac job_ok_tac :=
  unfold job_ok; cbn [status attempts maxAttempts retryAt];
  repeat split;
  try (intros [? | ?]; discriminate); try (intros ?; discriminate);
  try lia.

Section WellFormed.

Context (env : Env).

Lemma maxAttempts_of_pos (options : Options) :
  env_ok env → options_ok options → 1 ≤ JobStore.maxAttempts_of env options.
Proof.
  intros (_ & Hmax & _). unfold options_ok, JobStore.maxAttempts_of.
  destruct (o_maxAttempts options) as [m |]; [| done].
  intros Hm. case_decide; lia.
Qed.

Lemma createJob_store_ok (uuid : string) (now : Z) (type : string)
    (payload : Payload) (options : Options) (s : JobStore) :
  jobs s !! uuid = None → options_ok options →
  store_ok env s →
  store_ok env (QueueManager.createJob env uuid now type payload options s).2.
Proof.
  intros Hfresh Hopt [[Hb Hn Hi] Henv].
  unfold QueueManager.createJob, JobStore.createJob.
  case_decide as Hfull; [by split |]. cbn [snd]. split.
  - split; cbn [jobs jobsByStatus].
    + intros st i. rewrite bucket_with_bucket.
      destruct (decide (i = uuid)) as [-> | Hne].
      * rewrite lookup_insert_eq. case_decide as Hst.
        -- subst st. rewrite elem_of_set_add. split; [eauto | by left].
        -- rewrite Hb. split.
           ++ intros (j & Hj & _). congruence.
           ++ intros (j & [= <-] & Hs). done.
      * rewrite lookup_insert_ne by done. rewrite <- Hb.
        case_decide; [rewrite elem_of_set_add |]; tauto.
    + intros st. rewrite bucket_with_bucket.
      case_decide; [apply NoDup_set_add |]; apply Hn.
    + intros i j. destruct (decide (i = uuid)) as [-> | Hne].
      * rewrite lookup_insert_eq. by intros [= <-].
      * rewrite lookup_insert_ne by done. apply Hi.
  - intros Hok. destruct (Henv Hok) as [Hjobs [Hmax Hsize]]. split.
    + unfold jobs_ok. cbn [jobs]. apply map_Forall_insert_2; [| done].
      pose proof (maxAttempts_of_pos options Hok Hopt).
      job_ok_tac.
    + split; simpl; [done |].
      rewrite map_size_insert_None by done. lia.
Qed.

Lemma completeJob_store_ok (now : Z) (jobId : string) (s : JobStore) :
  store_ok env s → store_ok env (QueueManager.completeJob now jobId s).2.
Proof.
  intros Hok. destruct (jobs s !! jobId) as [job |] eqn:Hjob.
  - destruct (completeJob_found now jobId s job Hjob) as (s' & -> & Hr).
    destruct Hok as [Hidx Henv]. simpl. split; [by apply Hr |].
    intros He. destruct (Henv He) as [Hjobs Hsize]. split.
    + eapply rewrites_jobs_ok; [done | done |].
      destruct (Hjobs _ _ Hjob) as (Hle & _).
      job_ok_tac.
    + eapply rewrites_size_ok; [done | by rewrite Hjob | done].
  - by rewrite completeJob_absent.
Qed.

Lemma failJob_store_ok (now : Z) (jobId msg : string) (s : JobStore) :
  0 < now →
  store_ok env s → store_ok env (QueueManager.failJob env now jobId msg s).2.
Proof.
  intros Hnow Hok. destruct (jobs s !! jobId) as [job |] eqn:Hjob;
    [| by rewrite failJob_absent].
  destruct Hok as [Hidx Henv].
  destruct (decide (attempts job < maxAttempts job)) as [Hlt | Hge].
  - destruct (failJob_retry env now jobId msg s job Hjob Hlt) as (s' & -> & Hr).
    simpl. split; [by apply Hr |].
    intros He. destruct (Henv He) as [Hjobs Hsize]. split.
    + eapply rewrites_jobs_ok; [done | done |].
      job_ok_tac.
      intros _. eexists. split; [done |].
      destruct He as (_ & _ & Hbase).
      pose proof (Z.pow_nonneg 2 (attempts job)). nia.
    + eapply rewrites_size_ok; [done | by rewrite Hjob | done].
  - destruct (failJob_dead env now jobId msg s job Hjob Hge) as (s' & -> & Hr).
    simpl. split; [by apply Hr |].
    intros He. destruct (Henv He) as [Hjobs Hsize]. split.
    + eapply rewrites_jobs_ok; [done | done |].
      destruct (Hjobs _ _ Hjob) as (Hle & _).
      job_ok_tac.
    + eapply rewrites_size_ok; [done | by rewrite Hjob | done].
Qed.

Lemma startJob_throws (now : Z) (jobId : string) (s s' : JobStore) (e : Error) :
  QueueManager.startJob now jobId s = (Throw e, s') → s' = s.
Proof.
  destruct (jobs s !! jobId) as [job |] eqn:Hjob.
  - destruct (decide (status job = RUNNING)) as [Hst | Hst].
    + rewrite (startJob_running now jobId s job Hjob Hst). by intros [= _ <-].
    + destruct (startJob_found now jobId s job Hjob Hst) as (s1 & -> & _).
      done.
  - rewrite (startJob_absent now jobId s Hjob). by intros [= _ <-].
Qed.

Lemma startJob_dispatchable (now : Z) (jobId : string) (s : JobStore) :
  dispatchable s jobId → store_ok env s →
  ∃ job' s', QueueManager.startJob now jobId s = (Return job', s') ∧
             rewrites jobId job' s s' ∧ status job' = RUNNING ∧
             store_ok env s'.
Proof.
  intros (job & Hjob & Hst) [Hidx Henv].
  assert (status job ≠ RUNNING) as Hnr by (destruct Hst; congruence).
  destruct (startJob_found now jobId s job Hjob Hnr) as (s' & Hrun & Hr).
  eexists _, s'. split_and!; [done | done | done |].
  split; [by apply Hr |].
  intros He. destruct (Henv He) as [Hjobs Hsize]. split.
  - eapply rewrites_jobs_ok; [done | done |].
    destruct (Hjobs _ _ Hjob) as (_ & Hlt & _). specialize (Hlt Hst).
    job_ok_tac.
  - eapply rewrites_size_ok; [done | by rewrite Hjob | done].
Qed.

Lemma ready_dispatchable (now : Z) (s : JobStore) (job : Job) :
  index_ok s →
  job ∈ JobStore.getJobsReadyForExecution now s →
  jobs s !! id job = Some job ∧
  (status job = PENDING ∨
   status job = RETRYING ∧ JobStore.retry_elapsed now job = true).
Proof.
  intros [Hb _ Hi]. unfold JobStore.getJobsReadyForExecution, JobStore.getJobsByStatus.
  rewrite elem_of_app, list_elem_of_filter, !list_elem_of_omap.
  intros [(i & Hin & Hjob) | (Hel & i & Hin & Hjob)].
  - apply Hb in Hin as (j & Hj & Hst). rewrite Hj in Hjob.
    injection Hjob as ->. rewrite (Hi _ _ Hj). auto.
  - apply Hb in Hin as (j & Hj & Hst). rewrite Hj in Hjob.
    injection Hjob as ->. rewrite (Hi _ _ Hj). auto.
Qed.

(** ** The scheduler keeps its bookkeeping *)

Lemma open_after_app (open : gset string) (cs cs' : list Call) :
  open_after open (cs ++ cs') = open_after (open_after open cs) cs'.
Proof.
  revert open. induction cs as [| c cs IH]; intros open; [done |].
  destruct c; simpl; apply IH.
Qed.

Lemma no_overlap_app (open : gset string) (cs cs' : list Call) :
  no_overlap open (cs ++ cs') =
  no_overlap open cs && no_overlap (open_after open cs) cs'.
Proof.
  revert open. induction cs as [| c cs IH]; intros open; [done |].
  destruct c; simpl; [case_decide; [done |] | |]; apply IH.
Qed.

Lemma elem_of_remove_first (x y : string) (l : list string) :
  NoDup l → y ∈ remove_first x l ↔ y ≠ x ∧ y ∈ l.
Proof.
  induction l as [| z l IH]; simpl.
  - intros _. rewrite elem_of_nil. tauto.
  - intros [Hz Hl]%NoDup_cons. case_decide as Hzx.
    + subst z. rewrite elem_of_cons. split.
      * intros Hy. split; [| by right]. by intros ->.
      * intros [Hne [-> | Hy]]; done.
    + rewrite !elem_of_cons, IH by done. split.
      * intros [-> | [? ?]]; auto.
      * intros [? [-> | ?]]; auto.
Qed.

Lemma NoDup_remove_first (x : string) (l : list string) :
  NoDup l → NoDup (remove_first x l).
Proof.
  induction l as [| z l IH]; simpl; [done |].
  intros [Hz Hl]%NoDup_cons. case_decide; [done |].
  apply NoDup_cons. split; [| by apply IH].
  rewrite elem_of_remove_first by done. tauto.
Qed.

Lemma sched_ok_started (w : World) (jobId : string) (s : JobStore) :
  jobId ∉ activeExecutions (scheduler w) → sched_ok w →
  sched_ok (mkWorld s
              (Scheduler.with_active (λ a, {[jobId]} ∪ a) (scheduler w))
              (suspended w ++ [jobId]) (calls w ++ [StartJob jobId])).
Proof.
  intros Hfree (Hnd & Hmem & Hno & Hopen). unfold sched_ok. simpl.
  split_and!.
  - apply NoDup_app. split_and!; [done | | apply NoDup_singleton].
    intros i Hi ->%list_elem_of_singleton. by apply Hfree, Hmem.
  - intros i. rewrite elem_of_app, list_elem_of_singleton, Hmem.
    rewrite elem_of_union, elem_of_singleton. tauto.
  - rewrite no_overlap_app, Hno, Hopen. simpl. by rewrite decide_False.
  - by rewrite open_after_app, Hopen.
Qed.

Lemma sched_ok_refused (w : World) (jobId : string) (s : JobStore) :
  jobId ∉ activeExecutions (scheduler w) → sched_ok w →
  sched_ok (mkWorld s
              (Scheduler.with_active (λ a, a ∖ {[jobId]})
                 (Scheduler.with_active (λ a, {[jobId]} ∪ a) (scheduler w)))
              (suspended w) (calls w ++ [StartJob jobId; FailJob jobId])).
Proof.
  intros Hfree (Hnd & Hmem & Hno & Hopen). unfold sched_ok. simpl.
  split_and!.
  - done.
  - intros i. rewrite Hmem.
    rewrite elem_of_difference, elem_of_union, elem_of_singleton. split.
    + intros Hi. split; [by right |]. by intros ->.
    + intros [[-> | Hi] Hne]; done.
  - rewrite no_overlap_app, Hno, Hopen. simpl. by rewrite decide_False.
  - by rewrite open_after_app, Hopen.
Qed.

Lemma sched_ok_settled (w : World) (jobId : string) (s : JobStore)
    (cs : list Call) :
  cs = [CompleteJob jobId] ∨ cs = [CompleteJob jobId; FailJob jobId] ∨
  cs = [FailJob jobId] →
  sched_ok w →
  sched_ok (mkWorld s
              (Scheduler.with_active (λ a, a ∖ {[jobId]}) (scheduler w))
              (remove_first jobId (suspended w)) (calls w ++ cs)).
Proof.
  intros Hcs (Hnd & Hmem & Hno & Hopen). unfold sched_ok. simpl.
  split_and!.
  - by apply NoDup_remove_first.
  - intros i. rewrite elem_of_remove_first, Hmem by done.
    rewrite elem_of_difference, elem_of_singleton. tauto.
  - rewrite no_overlap_app, Hno.
    destruct Hcs as [-> | [-> | ->]]; done.
  - rewrite open_after_app, Hopen.
    destruct Hcs as [-> | [-> | ->]]; simpl; [done | | done].
    apply set_eq. intros i. rewrite !elem_of_difference. tauto.
Qed.

Lemma dispatchJob_sched_ok (now : Z) (job : Job) (w : World) :
  id job ∉ activeExecutions (scheduler w) → sched_ok w →
  sched_ok (Scheduler.dispatchJob env now job w).
Proof.
  intros Hfree Hok. unfold Scheduler.dispatchJob.
  destruct (QueueManager.startJob now (id job) (store w)) as [[j | e] s].
  - by apply sched_ok_started.
  - by apply sched_ok_refused.
Qed.

Lemma dispatchJob_settled_sched_ok (now : Z) (jobId : string)
    (outcome : Outcome) (w : World) :
  sched_ok w → sched_ok (Scheduler.dispatchJob_settled env now jobId outcome w).
Proof.
  intros Hok. unfold Scheduler.dispatchJob_settled. destruct outcome.
  - destruct (QueueManager.completeJob now jobId (store w)) as [[j | e] s];
      apply sched_ok_settled; auto.
  - apply sched_ok_settled; auto.
Qed.

(** ** Every reachable world is well formed *)

Lemma dispatchJob_world_ok (now : Z) (job : Job) (w : World) :
  id job ∉ activeExecutions (scheduler w) →
  dispatchable (store w) (id job) →
  world_ok env w →
  world_ok env (Scheduler.dispatchJob env now job w) ∧
  id job ∈ activeExecutions (scheduler (Scheduler.dispatchJob env now job w)) ∧
  (∀ i, i ∈ activeExecutions (scheduler w) →
        i ∈ activeExecutions (scheduler (Scheduler.dispatchJob env now job w))) ∧
  (∀ i, i ≠ id job →
        jobs (store (Scheduler.dispatchJob env now job w)) !! i = jobs (store w) !! i).
Proof.
  intros Hfree Hd [Hstore Hsched].
  pose proof (dispatchJob_sched_ok now job w Hfree Hsched) as Hsched'.
  destruct (startJob_dispatchable now (id job) (store w) Hd Hstore)
    as (job' & s' & Hrun & Hr & _ & Hstore').
  unfold Scheduler.dispatchJob in *. rewrite Hrun in *. simpl.
  split_and!.
  - by split.
  - rewrite elem_of_union, elem_of_singleton. by left.
  - intros i Hi. rewrite elem_of_union. by right.
  - intros i Hne. by eapply rewrites_lookup_ne.
Qed.

Lemma dispatch_all_world_ok (clock : nat → Z) (ready : list Job)
    (w : World) :
  world_ok env w →
  (∀ job, job ∈ ready →
          id job ∈ activeExecutions (scheduler w) ∨
          dispatchable (store w) (id job)) →
  world_ok env (Scheduler.dispatch_all env clock ready w).
Proof.
  revert clock w.
  induction ready as [| job ready IH]; intros clock w Hok Hready; [done |].
  simpl. case_decide as Hactive.
  - apply IH; [done |]. intros j Hj. apply Hready. by right.
  - destruct (Hready job) as [? | Hd]; [by left | done |].
    destruct (dispatchJob_world_ok (clock O) job w Hactive Hd Hok)
      as (Hok' & Hin & Hmono & Hother).
    apply IH; [done |]. intros j Hj.
    destruct (decide (id j = id job)) as [-> | Hne]; [by left |].
    destruct (Hready j) as [? | (j0 & Hj0 & Hst)]; [by right | left; auto |].
    right. exists j0. by rewrite Hother.
Qed.

Lemma poll_world_ok (now : Z) (clock : nat → Z) (w : World) :
  world_ok env w → world_ok env (Scheduler.poll env now clock w).
Proof.
  intros Hok. unfold Scheduler.poll.
  destruct (isPaused (scheduler w) || negb (isRunning (scheduler w))); [done |].
  apply dispatch_all_world_ok; [done |]. intros job Hjob. right.
  destruct Hok as [[Hidx _] _].
  apply ready_dispatchable in Hjob as [Hl Hst]; [| done].
  exists job. split; [done |]. tauto.
Qed.

Lemma dispatchJob_settled_world_ok (now : Z) (jobId : string)
    (outcome : Outcome) (w : World) :
  0 < now →
  world_ok env w →
  world_ok env (Scheduler.dispatchJob_settled env now jobId outcome w).
Proof.
  intros Hnow [Hstore Hsched]. split.
  - unfold Scheduler.dispatchJob_settled. destruct outcome.
    + pose proof (completeJob_store_ok now jobId (store w) Hstore) as Hc.
      destruct (QueueManager.completeJob now jobId (store w)) as [[j | e] s];
        simpl in *; [done |].
      by apply failJob_store_ok.
    + simpl. by apply failJob_store_ok.
  - by apply dispatchJob_settled_sched_ok.
Qed.

Lemma boot_world_ok : world_ok env (boot env).
Proof.
  split; [split |].
  - split; simpl.
    + intros st i. rewrite lookup_empty. split.
      * destruct st; simpl; by intros ?%elem_of_nil.
      * intros (j & Hj & _). done.
    + intros st. destruct st; apply NoDup_nil_2.
    + intros i j. by rewrite lookup_empty.
  - intros (Hsize & _). split.
    + apply map_Forall_empty.
    + split; simpl; [done |]. rewrite map_size_empty. lia.
  - unfold sched_ok. simpl. split_and!; [apply NoDup_nil_2 | | done | done].
    intros i. rewrite elem_of_nil, elem_of_empty. tauto.
Qed.

Lemma with_scheduler_world_ok (f : Scheduler → Scheduler) (w : World) :
  (∀ sc, activeExecutions (f sc) = activeExecutions sc) →
  world_ok env w → world_ok env (with_scheduler f w).
Proof.
  intros Hf [Hstore (Hnd & Hmem & Hno & Hopen)]. split; [done |].
  unfold sched_ok. simpl. rewrite Hf. by split_and!.
Qed.

Lemma step_world_ok (w w' : World) :
  step env w w' → world_ok env w → world_ok env w'.
Proof.
  intros Hstep Hok. destruct Hstep.
  - destruct Hok as [Hstore Hsched]. split; [| done].
    simpl. by apply createJob_store_ok.
  - by apply poll_world_ok.
  - by apply dispatchJob_settled_world_ok.
  - apply with_scheduler_world_ok; [| done].
    intros sc. unfold Scheduler.start. by destruct (isRunning sc).
  - apply with_scheduler_world_ok; [| done].
    intros sc. unfold Scheduler.pause. by destruct (negb (isRunning sc)).
  - apply with_scheduler_world_ok; [| done].
    intros sc. unfold Scheduler.resume.
    by destruct (negb (isRunning sc) || negb (isPaused sc)).
  - by apply with_scheduler_world_ok.
Qed.

Lemma reachable_world_ok (w : World) :
  reachable env w → world_ok env w.
Proof.
  induction 1 as [| w w' _ IH Hstep]; [apply boot_world_ok |].
  by eapply step_world_ok.
Qed.

End WellFormed.

(** ** The run is a run *)

Lemma reachable_w_started : reachable default_env w_started.
Proof. eapply reach_step; [apply reach_boot | apply step_start]. Qed.

Lemma reachable_w_a_created : reachable default_env w_a_created.
Proof.
  eapply reach_step; [apply reachable_w_started |].
  apply step_submit; [lia | reflexivity | exact I].
Qed.

Lemma reachable_w_a_running : reachable default_env w_a_running.
Proof.
  eapply reach_step; [apply reachable_w_a_created |].
  apply step_poll; [lia | intros k; lia].
Qed.

Lemma reachable_w_b_created : reachable default_env w_b_created.
Proof.
  eapply reach_step; [apply reachable_w_a_running |].
  apply step_submit; [lia | by vm_compute | exact I].
Qed.

Lemma reachable_w_a_retrying : reachable default_env w_a_retrying.
Proof.
  eapply reach_step; [apply reachable_w_b_created |].
  apply step_settled; [lia |]. vm_compute. apply list_elem_of_here.
Qed.

Lemma reachable_w_c_created : reachable default_env w_c_created.
Proof.
  eapply reach_step; [apply reachable_w_a_retrying |].
  apply step_submit; [lia | by vm_compute | unfold options_ok; simpl; lia].
Qed.

Lemma reachable_w_c_running : reachable default_env w_c_running.
Proof.
  eapply reach_step; [apply reachable_w_c_created |].
  apply step_poll; [lia | intros k; lia].
Qed.

Lemma reachable_w_c_dead : reachable default_env w_c_dead.
Proof.
  eapply reach_step; [apply reachable_w_c_running |].
  apply step_settled; [lia |]. vm_compute. apply list_elem_of_further, list_elem_of_here.
Qed.

Lemma reachable_w_b_completed : reachable default_env w_b_completed.
Proof.
  eapply reach_step; [apply reachable_w_c_dead |].
  apply step_settled; [lia |]. vm_compute. apply list_elem_of_here.
Qed.

Lemma reachable_w_full : reachable tiny_env w_full.
Proof.
  eapply reach_step; [apply reach_boot |].
  apply step_submit; [lia | reflexivity | exact I].
Qed.

Lemma default_env_ok : env_ok default_env.
Proof. unfold env_ok. simpl. lia. Qed.

Lemma tiny_env_ok : env_ok tiny_env.
Proof. unfold env_ok. simpl. lia. Qed.

(** ** Retry schedule and the failure transition *)

(** C1, as amended: when a failure is reported for a job that has made [n]
    attempts and [n < maxAttempts], [failJob] computes the retry delay as
    [base * 2^n] (the formula of [calculateRetryDelay], not [base * 2^(n-1)]),
    sets [retryAt] to [now] plus that delay and leaves the job RETRYING. *)
Theorem failJob_backoff (env : Env) (now : Z) (jobId msg : string)
    (s : JobStore) (job : Job) :
  jobs s !! jobId = Some job →
  attempts job < maxAttempts job →
  ∃ job' s',
    QueueManager.failJob env now jobId msg s = (Return job', s') ∧
    jobs s' !! jobId = Some job' ∧
    status job' = RETRYING ∧
    QueueManager.calculateRetryDelay env (attempts job) =
      RETRY_BACKOFF_BASE_MS env * 2 ^ attempts job ∧
    retryAt job' = Some (now + RETRY_BACKOFF_BASE_MS env * 2 ^ attempts job).
Proof.
  intros Hjob Hlt.
  destruct (failJob_retry env now jobId msg s job Hjob Hlt) as (s' & Hrun & Hr).
  eexists _, s'. split; [exact Hrun |].
  split; [by eapply rewrites_lookup |]. by split_and!.
Qed.

Lemma failJob_backoff_witness :
  ∃ job' s',
    QueueManager.failJob default_env 4 "a" "boom" (store w_b_created) =
      (Return job', s') ∧
    jobs s' !! "a" = Some job' ∧
    status job' = RETRYING ∧
    QueueManager.calculateRetryDelay default_env 1 = 1000 * 2 ^ 1 ∧
    retryAt job' = Some (4 + 1000 * 2 ^ 1).
Proof.
  apply (failJob_backoff default_env 4 "a" "boom" (store w_b_created)
           (mkJob "a" "SEND_EMAIL" email RUNNING 1 3 1 (Some 2) None None None)).
  - vm_compute. reflexivity.
  - simpl. lia.
Defined.

(** C1 as the specification words it fails: after one attempt, with base
    1000 ms, the delay is 2000 ms and not [1000 * 2^(1-1)] = 1000 ms. *)
Lemma failJob_backoff_counterexample :
  ∃ job job',
    jobs (store w_b_created) !! "a" = Some job ∧
    attempts job = 1 ∧ maxAttempts job = 3 ∧
    (QueueManager.failJob default_env 4 "a" "boom" (store w_b_created)).1 =
      Return job' ∧
    retryAt job' = Some (4 + 2000) ∧
    retryAt job' ≠
      Some (4 + RETRY_BACKOFF_BASE_MS default_env * 2 ^ (attempts job - 1)).
Proof.
  eexists _, _. split; [vm_compute; reflexivity |].
  split_and!; [reflexivity | reflexivity | vm_compute; reflexivity
              | reflexivity | discriminate].
Qed.

(** C2: on a job of the store, [failJob] returns and leaves the job in one
    of two statuses, RETRYING with [retryAt] set exactly when
    [attempts < maxAttempts] held at the call, DEAD exactly when it did not;
    the status index then holds the id in that one bucket only. The two
    branches share no store. In the retry branch [markJobFailed] makes the
    job FAILED, not DEAD: the store it leaves holds the job as FAILED, with
    [finishedAt] and [retryAt] untouched and the id in the FAILED bucket
    only, and [markJobRetrying] takes the job from there to RETRYING, so the
    job ends with the [finishedAt] it had. In the other branch
    [markJobFailed] alone makes the job DEAD with [finishedAt] set to [now],
    and [retryAt] is left as it was. *)
Theorem failJob_retrying_xor_dead (env : Env) (now : Z) (jobId msg : string)
    (s : JobStore) (job : Job) :
  jobs s !! jobId = Some job →
  ∃ job' s',
    QueueManager.failJob env now jobId msg s = (Return job', s') ∧
    jobs s' !! jobId = Some job' ∧
    (status job' = RETRYING ∨ status job' = DEAD) ∧
    (status job' = RETRYING ↔ attempts job < maxAttempts job) ∧
    (status job' = DEAD ↔ ¬ attempts job < maxAttempts job) ∧
    (status job' = RETRYING →
     retryAt job' =
       Some (now + QueueManager.calculateRetryDelay env (attempts job))) ∧
    (index_ok s →
     ∀ st, jobId ∈ bucket st (jobsByStatus s') ↔ st = status job') ∧
    (attempts job < maxAttempts job →
     job' = mkJob (id job) (type job) (payload job) RETRYING (attempts job)
              (maxAttempts job) (createdAt job) (startedAt job)
              (finishedAt job) (Some msg)
              (Some (now + QueueManager.calculateRetryDelay env (attempts job))) ∧
     ∃ job1 s1,
       JobStore.markJobFailed now jobId msg s = (Return job1, s1) ∧
       job1 = mkJob (id job) (type job) (payload job) FAILED (attempts job)
                (maxAttempts job) (createdAt job) (startedAt job)
                (finishedAt job) (Some msg) (retryAt job) ∧
       jobs s1 !! jobId = Some job1 ∧
       (index_ok s →
        ∀ st, jobId ∈ bucket st (jobsByStatus s1) ↔ st = FAILED) ∧
       JobStore.markJobRetrying jobId
         (now + QueueManager.calculateRetryDelay env (attempts job)) s1 =
         (Return job', s')) ∧
    (¬ attempts job < maxAttempts job →
     job' = mkJob (id job) (type job) (payload job) DEAD (attempts job)
              (maxAttempts job) (createdAt job) (startedAt job)
              (Some now) (Some msg) (retryAt job) ∧
     JobStore.markJobFailed now jobId msg s = (Return job', s')).
Proof.
  intros Hjob.
  assert (∀ job0 job' s0 s', rewrites jobId job' s0 s' → index_ok s0 →
            jobs s0 !! jobId = Some job0 →
            ∀ st, jobId ∈ bucket st (jobsByStatus s') ↔ st = status job')
    as Hbucket.
  { intros job0 job' s0 s' Hr Hidx _ st.
    destruct Hr as (Hjobs & _ & Hidx'). specialize (Hidx' Hidx).
    rewrite (idx_bucket _ Hidx'), Hjobs, lookup_insert_eq. split.
    - by intros (j & [= <-] & <-).
    - intros ->. eauto. }
  destruct (decide (attempts job < maxAttempts job)) as [Hlt | Hge].
  - destruct (updateJobStatus_rewrites jobId FAILED
                (mkUpdates None None None (Some msg) None) s job Hjob)
      as (s1 & Hrun1 & Hr1).
    pose proof (rewrites_lookup _ _ _ _ Hr1) as Hjob1.
    destruct (updateJobStatus_rewrites jobId RETRYING
                (mkUpdates None None None None
                   (Some (now + QueueManager.calculateRetryDelay env
                                  (attempts job))))
                s1 _ Hjob1)
      as (s2 & Hrun2 & Hr2).
    assert (JobStore.markJobFailed now jobId msg s =
              (Return (assign (set_status FAILED job)
                         (mkUpdates None None None (Some msg) None)), s1))
      as Hfailed.
    { unfold JobStore.markJobFailed, JobStore.getJob. rewrite Hjob.
      by rewrite decide_False by lia. }
    eexists _, s2. split.
    { unfold QueueManager.failJob, JobStore.getJob. rewrite Hjob.
      rewrite decide_True by done. unfold bind, ret. rewrite Hfailed.
      unfold JobStore.markJobRetrying. by rewrite Hrun2. }
    split; [by eapply rewrites_lookup |].
    split_and!; [by left | done | | done | | | done].
    + split; [discriminate | done].
    + intros Hidx. eapply (Hbucket _ _ s s2); [| done | done].
      by eapply rewrites_trans.
    + intros _. split; [done |].
      eexists _, s1. split_and!; [exact Hfailed | done | done | | done].
      intros Hidx. by apply (Hbucket _ _ s s1 Hr1 Hidx Hjob).
  - destruct (updateJobStatus_rewrites jobId DEAD
                (mkUpdates None None (Some now) (Some msg) None) s job Hjob)
      as (s1 & Hrun1 & Hr1).
    assert (JobStore.markJobFailed now jobId msg s =
              (Return (assign (set_status DEAD job)
                         (mkUpdates None None (Some now) (Some msg) None)), s1))
      as Hfailed.
    { unfold JobStore.markJobFailed, JobStore.getJob. rewrite Hjob.
      by rewrite decide_True by lia. }
    eexists _, s1. split.
    { unfold QueueManager.failJob, JobStore.getJob. rewrite Hjob.
      rewrite decide_False by done. unfold bind, ret. by rewrite Hfailed. }
    split; [by eapply rewrites_lookup |].
    split_and!; [by right | | done | discriminate | | done | done].
    + split; [discriminate | done].
    + intros Hidx. by apply (Hbucket _ _ s s1 Hr1 Hidx Hjob).
Qed.

Lemma failJob_retrying_xor_dead_witness :
  let job := mkJob "c" "SEND_EMAIL" email RUNNING 1 1 5 (Some 7) None None None in
  let s := store w_c_running in
  ∃ job' s',
    QueueManager.failJob default_env 8 "c" "boom" s = (Return job', s') ∧
    jobs s' !! "c" = Some job' ∧
    (status job' = RETRYING ∨ status job' = DEAD) ∧
    (status job' = RETRYING ↔ attempts job < maxAttempts job) ∧
    (status job' = DEAD ↔ ¬ attempts job < maxAttempts job) ∧
    (status job' = RETRYING →
     retryAt job' =
       Some (8 + QueueManager.calculateRetryDelay default_env (attempts job))) ∧
    (index_ok s →
     ∀ st, "c" ∈ bucket st (jobsByStatus s') ↔ st = status job') ∧
    (attempts job < maxAttempts job →
     job' = mkJob (id job) (type job) (payload job) RETRYING (attempts job)
              (maxAttempts job) (createdAt job) (startedAt job)
              (finishedAt job) (Some "boom")
              (Some (8 + QueueManager.calculateRetryDelay default_env
                           (attempts job))) ∧
     ∃ job1 s1,
       JobStore.markJobFailed 8 "c" "boom" s = (Return job1, s1) ∧
       job1 = mkJob (id job) (type job) (payload job) FAILED (attempts job)
                (maxAttempts job) (createdAt job) (startedAt job)
                (finishedAt job) (Some "boom") (retryAt job) ∧
       jobs s1 !! "c" = Some job1 ∧
       (index_ok s →
        ∀ st, "c" ∈ bucket st (jobsByStatus s1) ↔ st = FAILED) ∧
       JobStore.markJobRetrying "c"
         (8 + QueueManager.calculateRetryDelay default_env (attempts job)) s1 =
         (Return job', s')) ∧
    (¬ attempts job < maxAttempts job →
     job' = mkJob (id job) (type job) (payload job) DEAD (attempts job)
              (maxAttempts job) (createdAt job) (startedAt job)
              (Some 8) (Some "boom") (retryAt job) ∧
     JobStore.markJobFailed 8 "c" "boom" s = (Return job', s')).
Proof.
  apply (failJob_retrying_xor_dead default_env 8 "c" "boom" (store w_c_running)
           (mkJob "c" "SEND_EMAIL" email RUNNING 1 1 5 (Some 7) None None None)).
  vm_compute. reflexivity.
Defined.

(** ** Terminal states *)




(** ** Starting a job *)

(** C9, as amended: every transition to RUNNING made by [startJob], the
    first and each later one alike, sets [startedAt] to the time of that
    call; the value of an earlier start is overwritten, not preserved. *)
Theorem startJob_startedAt_latest (now : Z) (jobId : string) (s : JobStore)
    (job : Job) :
  jobs s !! jobId = Some job →
  status job ≠ RUNNING →
  ∃ job' s',
    QueueManager.startJob now jobId s = (Return job', s') ∧
    jobs s' !! jobId = Some job' ∧
    status job' = RUNNING ∧
    attempts job' = attempts job + 1 ∧
    startedAt job' = Some now.
Proof.
  intros Hjob Hst.
  destruct (startJob_found now jobId s job Hjob Hst) as (s' & Hrun & Hr).
  eexists _, s'. split; [exact Hrun |].
  split; [by eapply rewrites_lookup | done].
Qed.

Lemma startJob_startedAt_latest_witness :
  ∃ job' s',
    QueueManager.startJob 5000 "a" (store w_a_retrying) = (Return job', s') ∧
    jobs s' !! "a" = Some job' ∧
    status job' = RUNNING ∧
    attempts job' = 1 + 1 ∧
    startedAt job' = Some 5000.
Proof.
  apply (startJob_startedAt_latest 5000 "a" (store w_a_retrying)
           (mkJob "a" "SEND_EMAIL" email RETRYING 1 3 1 (Some 2) None
              (Some "boom") (Some 2004))).
  - vm_compute. reflexivity.
  - discriminate.
Defined.

(** C9 as the specification words it fails: [a] first ran at time 2; when it
    is started again at time 5000 its [startedAt] becomes 5000. *)
Lemma startedAt_preserved_counterexample :
  ∃ job job',
    jobs (store w_a_retrying) !! "a" = Some job ∧
    status job = RETRYING ∧ startedAt job = Some 2 ∧
    (QueueManager.startJob 5000 "a" (store w_a_retrying)).1 = Return job' ∧
    status job' = RUNNING ∧
    startedAt job' ≠ startedAt job.
Proof.
  eexists _, _. split; [vm_compute; reflexivity |].
  split_and!; [reflexivity | reflexivity | vm_compute; reflexivity
              | reflexivity | discriminate].
Qed.

(** C10: for an id that is not in the store, [startJob] does not raise the
    store's not-found error. [isJobRunning] answers no, [markJobStarted]
    throws a type error while reading [attempts] of the absent job, before
    [updateJobStatus] (which would have raised not-found) is entered, and
    the store is left as it was. *)
Theorem startJob_absent_type_error (now : Z) (jobId : string) (s : JobStore) :
  jobs s !! jobId = None →
  JobStore.isJobRunning s jobId = false ∧
  QueueManager.startJob now jobId s = (Throw TypeError, s) ∧
  TypeError ≠ JobNotFound jobId ∧
  ∀ u, JobStore.updateJobStatus jobId RUNNING u s = (Throw (JobNotFound jobId), s).
Proof.
  intros Habsent. split_and!.
  - unfold JobStore.isJobRunning, JobStore.getJob. by rewrite Habsent.
  - by apply startJob_absent.
  - discriminate.
  - intros u. unfold JobStore.updateJobStatus. by rewrite Habsent.
Qed.

Lemma startJob_absent_type_error_witness :
  JobStore.isJobRunning (store w_a_created) "zz" = false ∧
  QueueManager.startJob 2 "zz" (store w_a_created) =
    (Throw TypeError, store w_a_created) ∧
  TypeError ≠ JobNotFound "zz" ∧
  ∀ u, JobStore.updateJobStatus "zz" RUNNING u (store w_a_created) =
       (Throw (JobNotFound "zz"), store w_a_created).
Proof.
  apply (startJob_absent_type_error 2 "zz" (store w_a_created)).
  vm_compute. reflexivity.
Defined.

(** ** Invariants of the running system *)

(** C4: in every state the system reaches through submissions, polls and
    settled dispatches, every job has [attempts ≤ maxAttempts], and every
    DEAD job has [attempts = maxAttempts]. *)
Theorem attempts_bounded (env : Env) (w : World) :
  env_ok env →
  reachable env w →
  ∀ jobId job,
    jobs (store w) !! jobId = Some job →
    attempts job ≤ maxAttempts job ∧
    (status job = DEAD → attempts job = maxAttempts job).
Proof.
  intros Henv Hreach jobId job Hjob.
  destruct (reachable_world_ok env w Hreach) as [[_ Hstore] _].
  destruct (Hstore Henv) as [Hjobs _].
  destruct (Hjobs _ _ Hjob) as (Hle & _ & Hdead & _). done.
Qed.

Lemma attempts_bounded_witness :
  1 ≤ 1 ∧ (DEAD = DEAD → 1 = 1).
Proof.
  apply (attempts_bounded default_env w_b_completed default_env_ok
           reachable_w_b_completed "c"
           (mkJob "c" "SEND_EMAIL" email DEAD 1 1 5 (Some 7) (Some 8)
              (Some "boom") None)).
  vm_compute. reflexivity.
Defined.

(** C5: at any instant at most one dispatch is in progress per job id. The
    calls the scheduler makes never start an id whose dispatch is still
    open; the in-flight set is exactly the set of ids with an open dispatch
    (an id enters it before [startJob] and leaves it after [completeJob] or
    [failJob]); and no two parked activations of [dispatchJob] share an id. *)
Theorem one_dispatch_per_id (env : Env) (w : World) :
  reachable env w →
  no_overlap ∅ (calls w) = true ∧
  open_after ∅ (calls w) = activeExecutions (scheduler w) ∧
  NoDup (suspended w) ∧
  ∀ jobId, jobId ∈ suspended w ↔ jobId ∈ activeExecutions (scheduler w).
Proof.
  intros Hreach.
  destruct (reachable_world_ok env w Hreach) as [_ (Hnd & Hmem & Hno & Hopen)].
  done.
Qed.

Lemma one_dispatch_per_id_witness :
  no_overlap ∅ (calls w_c_running) = true ∧
  open_after ∅ (calls w_c_running) = activeExecutions (scheduler w_c_running) ∧
  NoDup (suspended w_c_running) ∧
  ∀ jobId,
    jobId ∈ suspended w_c_running ↔
    jobId ∈ activeExecutions (scheduler w_c_running).
Proof.
  apply (one_dispatch_per_id default_env w_c_running reachable_w_c_running).
Defined.

(** C6: [createJob] fails with the queue-full error exactly when the number
    of jobs held equals the configured maximum; on that failure the store is
    unchanged. Otherwise it returns the new job, which is then stored under
    its id, and the count grows by one. *)
Theorem createJob_queue_full (env : Env) (w : World) (uuid : string) (now : Z)
    (type : string) (payload : Payload) (options : Options) :
  env_ok env →
  reachable env w →
  maxQueueSize (store w) = QUEUE_MAX_SIZE env ∧
  ∃ r s',
    QueueManager.createJob env uuid now type payload options (store w) = (r, s') ∧
    (r = Throw QueueFull ↔
     Z.of_nat (size (jobs (store w))) = QUEUE_MAX_SIZE env) ∧
    (r = Throw QueueFull → s' = store w) ∧
    (r ≠ Throw QueueFull →
     ∃ job, r = Return job ∧ jobs s' !! uuid = Some job ∧
            (jobs (store w) !! uuid = None →
             size (jobs s') = S (size (jobs (store w))))).
Proof.
  intros Henv Hreach.
  destruct (reachable_world_ok env w Hreach) as [[_ Hstore] _].
  destruct (Hstore Henv) as [_ [Hmax Hsize]].
  split; [done |].
  unfold QueueManager.createJob, JobStore.createJob.
  case_decide as Hfull; eexists _, _; (split; [reflexivity |]).
  - split_and!; [| done | done]. split; [lia | done].
  - split_and!.
    + split; [discriminate | lia].
    + discriminate.
    + intros _. eexists. split; [done |].
      split; [apply lookup_insert_eq |].
      intros Hfresh. by apply map_size_insert_None.
Qed.

Lemma createJob_queue_full_witness :
  maxQueueSize (store w_full) = 1 ∧
  ∃ r s',
    QueueManager.createJob tiny_env "b" 2 "SEND_EMAIL" email no_options
      (store w_full) = (r, s') ∧
    (r = Throw QueueFull ↔ Z.of_nat (size (jobs (store w_full))) = 1) ∧
    (r = Throw QueueFull → s' = store w_full) ∧
    (r ≠ Throw QueueFull →
     ∃ job, r = Return job ∧ jobs s' !! "b" = Some job ∧
            (jobs (store w_full) !! "b" = None →
             size (jobs s') = S (size (jobs (store w_full))))).
Proof.
  apply (createJob_queue_full tiny_env w_full "b" 2 "SEND_EMAIL" email
           no_options tiny_env_ok reachable_w_full).
Defined.

(** ** The ready list *)

Lemma getJobsByStatus_ids (s : JobStore) (st : Status) :
  index_ok s →
  id <$> JobStore.getJobsByStatus s st = bucket st (jobsByStatus s).
Proof.
  intros [Hb _ Hi]. unfold JobStore.getJobsByStatus.
  assert (∀ i, i ∈ bucket st (jobsByStatus s) →
               ∃ j, jobs s !! i = Some j ∧ id j = i) as Hall.
  { intros i (j & Hj & _)%Hb. eauto. }
  induction (bucket st (jobsByStatus s)) as [| i l IH]; [done |].
  destruct (Hall i) as (j & Hj & Hid); [apply list_elem_of_here |].
  simpl. rewrite Hj. simpl. rewrite Hid. f_equal.
  apply IH. intros i' Hi'. apply Hall. by apply list_elem_of_further.
Qed.

Lemma getJobsByStatus_status (s : JobStore) (st : Status) :
  index_ok s →
  Forall (λ j, status j = st) (JobStore.getJobsByStatus s st).
Proof.
  intros [Hb _ _]. apply Forall_forall. intros j.
  unfold JobStore.getJobsByStatus. rewrite list_elem_of_omap.
  intros (i & (j' & Hj' & Hst)%Hb & Hj). congruence.
Qed.

Lemma ready_ids_NoDup (now : Z) (s : JobStore) :
  index_ok s →
  NoDup (id <$> JobStore.getJobsReadyForExecution now s).
Proof.
  intros Hidx. unfold JobStore.getJobsReadyForExecution.
  rewrite fmap_app. apply NoDup_app. split_and!.
  - rewrite getJobsByStatus_ids by done. apply (idx_nodup _ Hidx).
  - intros i. rewrite getJobsByStatus_ids by done.
    intros (j & Hj & Hst)%(idx_bucket _ Hidx).
    intros (j' & -> & [_ Hin]%list_elem_of_filter)%list_elem_of_fmap.
    pose proof (getJobsByStatus_status s RETRYING Hidx) as Hall.
    rewrite Forall_forall in Hall. specialize (Hall _ Hin).
    unfold JobStore.getJobsByStatus in Hin.
    apply list_elem_of_omap in Hin as (i & _ & Hi).
    rewrite <- (idx_id _ Hidx _ _ Hi) in Hi. congruence.
  - apply (sublist_NoDup _ (id <$> JobStore.getJobsByStatus s RETRYING)).
    + rewrite getJobsByStatus_ids by done. apply (idx_nodup _ Hidx).
    + apply fmap_sublist, sublist_filter.
Qed.

(** C7: the ready list holds exactly the PENDING jobs of the store and its
    RETRYING jobs whose [retryAt] is at most [now], each once; so it never
    holds a RUNNING, COMPLETED, DEAD or FAILED job, nor a RETRYING job whose
    [retryAt] has not elapsed. *)
Theorem ready_exactly (env : Env) (w : World) (now : Z) :
  env_ok env →
  reachable env w →
  (∀ job,
     job ∈ QueueManager.getJobsReadyForExecution now (store w) ↔
     jobs (store w) !! id job = Some job ∧
     (status job = PENDING ∨
      status job = RETRYING ∧ ∃ t, retryAt job = Some t ∧ t ≤ now)) ∧
  (∀ job,
     job ∈ QueueManager.getJobsReadyForExecution now (store w) →
     status job ∉ [RUNNING; COMPLETED; DEAD; FAILED]) ∧
  NoDup (id <$> QueueManager.getJobsReadyForExecution now (store w)).
Proof.
  intros Henv Hreach.
  destruct (reachable_world_ok env w Hreach) as [[Hidx Hstore] _].
  destruct (Hstore Henv) as [Hjobs _].
  split; [| split; [| by apply ready_ids_NoDup]]; cycle 1.
  { intros job Hin. apply ready_dispatchable in Hin as [_ Hst]; [| done].
    rewrite !elem_of_cons, elem_of_nil.
    destruct Hst as [-> | [-> _]]; intros [? | [? | [? | [? | []]]]]; done. }
  intros job. unfold QueueManager.getJobsReadyForExecution. split.
  - intros Hin. apply ready_dispatchable in Hin as [Hjob Hst]; [| done].
    split; [done |]. destruct Hst as [? | [Hst Hel]]; [by left | right].
    split; [done |]. unfold JobStore.retry_elapsed in Hel.
    destruct (retryAt job) as [t |]; [| done].
    apply andb_true_iff in Hel as [_ Hle%bool_decide_eq_true]. eauto.
  - intros [Hjob Hst].
    unfold JobStore.getJobsReadyForExecution, JobStore.getJobsByStatus.
    rewrite elem_of_app, list_elem_of_filter, !list_elem_of_omap.
    destruct Hst as [Hst | (Hst & t & Ht & Hle)].
    + left. exists (id job). split; [| done].
      apply (idx_bucket _ Hidx). eauto.
    + right. split.
      * destruct (Hjobs _ _ Hjob) as (_ & _ & _ & Hretry).
        destruct (Hretry Hst) as (t' & Ht' & Hpos).
        unfold JobStore.retry_elapsed. rewrite Ht.
        assert (t' = t) as -> by congruence.
        rewrite !bool_decide_true by lia. done.
      * exists (id job). split; [| done].
        apply (idx_bucket _ Hidx). eauto.
Qed.

Lemma ready_exactly_witness :
  (∀ job,
     job ∈ QueueManager.getJobsReadyForExecution 5000 (store w_a_retrying) ↔
     jobs (store w_a_retrying) !! id job = Some job ∧
     (status job = PENDING ∨
      status job = RETRYING ∧ ∃ t, retryAt job = Some t ∧ t ≤ 5000)) ∧
  (∀ job,
     job ∈ QueueManager.getJobsReadyForExecution 5000 (store w_a_retrying) →
     status job ∉ [RUNNING; COMPLETED; DEAD; FAILED]) ∧
  NoDup (id <$> QueueManager.getJobsReadyForExecution 5000 (store w_a_retrying)).
Proof.
  apply (ready_exactly default_env w_a_retrying 5000 default_env_ok
           reachable_w_a_retrying).
Defined.




(** * Further properties of the store, the queue manager and the scheduler *)

(** ** What a poll does *)

Lemma dispatchJob_starts (env : Env) (now : Z) (job : Job) (w : World) :
  jobs (store w) !! id job = Some job →
  status job ≠ RUNNING →
  ∃ s',
    Scheduler.dispatchJob env now job w =
      mkWorld s'
        (Scheduler.with_active (λ a, {[id job]} ∪ a) (scheduler w))
        (suspended w ++ [id job]) (calls w ++ [StartJob (id job)]) ∧
    rewrites (id job) (started now job) (store w) s'.
Proof.
  intros Hjob Hst.
  destruct (startJob_found now (id job) (store w) job Hjob Hst)
    as (s' & Hrun & Hr).
  exists s'. split; [| exact Hr].
  unfold Scheduler.dispatchJob. by rewrite Hrun.
Qed.

(** The loop of [poll] over jobs that are stored under distinct ids, not
    RUNNING and not in flight: each is started at its own clock reading, in
    the order of the list, and nothing else changes. *)
Lemma dispatch_all_fresh (env : Env) (clock : nat → Z) (ready : list Job)
    (w : World) :
  NoDup (id <$> ready) →
  (∀ job, job ∈ ready →
          jobs (store w) !! id job = Some job ∧ status job ≠ RUNNING ∧
          id job ∉ activeExecutions (scheduler w)) →
  isRunning (scheduler (Scheduler.dispatch_all env clock ready w)) =
    isRunning (scheduler w) ∧
  isPaused (scheduler (Scheduler.dispatch_all env clock ready w)) =
    isPaused (scheduler w) ∧
  activeExecutions (scheduler (Scheduler.dispatch_all env clock ready w)) =
    list_to_set (id <$> ready) ∪ activeExecutions (scheduler w) ∧
  suspended (Scheduler.dispatch_all env clock ready w) =
    suspended w ++ (id <$> ready) ∧
  calls (Scheduler.dispatch_all env clock ready w) =
    calls w ++ ((λ job, StartJob (id job)) <$> ready) ∧
  maxQueueSize (store (Scheduler.dispatch_all env clock ready w)) =
    maxQueueSize (store w) ∧
  (index_ok (store w) →
   index_ok (store (Scheduler.dispatch_all env clock ready w))) ∧
  (∀ k job, ready !! k = Some job →
            jobs (store (Scheduler.dispatch_all env clock ready w)) !! id job =
              Some (started (clock k) job)) ∧
  (∀ i, i ∉ id <$> ready →
        jobs (store (Scheduler.dispatch_all env clock ready w)) !! i =
          jobs (store w) !! i).
Proof.
  revert clock w.
  induction ready as [| job ready IH]; intros clock w Hnd Hall.
  { simpl. split_and!; try done.
    - apply set_eq. intros i. rewrite elem_of_union, elem_of_empty. tauto.
    - by rewrite app_nil_r.
    - by rewrite app_nil_r. }
  apply NoDup_cons in Hnd as [Hhead Hnd]. fold (fmap id ready) in Hhead, Hnd.
  destruct (Hall job) as (Hjob & Hst & Hfree); [apply list_elem_of_here |].
  destruct (dispatchJob_starts env (clock O) job w Hjob Hst)
    as (s1 & Hw1 & Hr1).
  cbn [Scheduler.dispatch_all]. rewrite decide_False by done. rewrite Hw1.
  set (w1 := mkWorld s1 _ _ _).
  destruct (IH (λ k, clock (S k)) w1 Hnd)
    as (Hrun & Hpau & Hact & Hsus & Hcalls & Hmax & Hidx & Hjobs & Hother).
  { intros job' Hin. destruct (Hall job') as (Hjob' & Hst' & Hfree');
      [by apply list_elem_of_further |].
    assert (id job' ≠ id job) as Hne.
    { intros Heq. apply Hhead. rewrite <- Heq. by apply list_elem_of_fmap_2. }
    split_and!; [| done |].
    - subst w1. cbn [store]. by rewrite (rewrites_lookup_ne _ _ _ _ _ Hr1).
    - subst w1. cbn [scheduler Scheduler.with_active activeExecutions].
      rewrite elem_of_union, elem_of_singleton. tauto. }
  split_and!.
  - by rewrite Hrun.
  - by rewrite Hpau.
  - rewrite Hact. subst w1.
    cbn [scheduler Scheduler.with_active activeExecutions fmap list_fmap list_to_set].
    apply set_eq. intros i. rewrite !elem_of_union. tauto.
  - rewrite Hsus. subst w1. cbn [suspended]. by rewrite <- app_assoc.
  - rewrite Hcalls. subst w1. cbn [calls]. by rewrite <- app_assoc.
  - rewrite Hmax. subst w1. cbn [store]. by destruct Hr1 as (_ & ? & _).
  - intros Hok. apply Hidx. subst w1. cbn [store].
    destruct Hr1 as (_ & _ & Hi). by apply Hi.
  - intros [| k] job' Hk.
    + injection Hk as <-. rewrite Hother by done.
      subst w1. cbn [store]. by eapply rewrites_lookup.
    + by apply (Hjobs k).
  - intros i Hi. rewrite fmap_cons, not_elem_of_cons in Hi.
    destruct Hi as [Hne Hi]. rewrite Hother by done.
    subst w1. cbn [store]. by eapply rewrites_lookup_ne.
Qed.

Lemma failJob_found (env : Env) (now : Z) (jobId msg : string) (s : JobStore)
    (job : Job) :
  jobs s !! jobId = Some job →
  ∃ s', QueueManager.failJob env now jobId msg s =
          (Return (failed_at env now msg job), s') ∧
        rewrites jobId (failed_at env now msg job) s s'.
Proof.
  intros Hjob. unfold failed_at. case_decide as Hlt.
  - exact (failJob_retry env now jobId msg s job Hjob Hlt).
  - exact (failJob_dead env now jobId msg s job Hjob Hlt).
Qed.

Lemma dispatchJob_settled_found (env : Env) (now : Z) (jobId : string)
    (outcome : Outcome) (w : World) (job : Job) :
  jobs (store w) !! jobId = Some job →
  ∃ s',
    Scheduler.dispatchJob_settled env now jobId outcome w =
      mkWorld s'
        (Scheduler.with_active (λ a, a ∖ {[jobId]}) (scheduler w))
        (remove_first jobId (suspended w))
        (calls w ++ [settle_call jobId outcome]) ∧
    rewrites jobId (settled_job env now outcome job) (store w) s'.
Proof.
  intros Hjob. unfold Scheduler.dispatchJob_settled.
  destruct outcome as [| msg]; simpl.
  - destruct (completeJob_found now jobId (store w) job Hjob) as (s' & -> & Hr).
    by exists s'.
  - destruct (failJob_found env now jobId msg (store w) job Hjob)
      as (s' & -> & Hr).
    by exists s'.
Qed.

(** ** The life of a job is kept by every turn *)

Lemma starts_app (i : string) (cs cs' : list Call) :
  starts i (cs ++ cs') = (starts i cs + starts i cs')%nat.
Proof. unfold starts. by rewrite filter_app, length_app. Qed.

Lemma starts_StartJob (i jobId : string) :
  starts i [StartJob jobId] = if decide (jobId = i) then 1%nat else 0%nat.
Proof.
  unfold starts. rewrite filter_cons, filter_nil.
  repeat case_decide; simplify_eq; done.
Qed.

Lemma starts_settle_call (i jobId : string) (outcome : Outcome) :
  starts i [settle_call jobId outcome] = 0%nat.
Proof.
  unfold starts. rewrite filter_cons, filter_nil.
  case_decide as H; [| done]. destruct outcome; discriminate.
Qed.

Lemma job_life_started (now : Z) (job : Job) :
  job_life job → status job = PENDING ∨ status job = RETRYING →
  job_life (started now job).
Proof.
  unfold job_life. intros Hlife [Hst | Hst]; rewrite Hst in Hlife; simpl.
  - destruct Hlife as (-> & _ & -> & _). split_and!; [lia | by eexists | done].
  - destruct Hlife as (? & _ & -> & _). split_and!; [lia | by eexists | done].
Qed.

Lemma job_life_settled (env : Env) (now : Z) (outcome : Outcome) (job : Job) :
  job_life job → status job = RUNNING →
  job_life (settled_job env now outcome job).
Proof.
  unfold job_life. intros Hlife Hst. rewrite Hst in Hlife.
  destruct Hlife as (Hatt & Hstart & Hfin).
  destruct outcome as [| msg]; simpl.
  - split_and!; [done | done | by eexists].
  - unfold failed_at. case_decide; simpl.
    + split_and!; [done | done | done | by eexists | by eexists].
    + split_and!; [done | done | by eexists | by eexists].
Qed.

Lemma dispatchJob_life_ok (env : Env) (now : Z) (job : Job) (w : World) :
  life_ok w →
  jobs (store w) !! id job = Some job →
  status job = PENDING ∨ status job = RETRYING →
  life_ok (Scheduler.dispatchJob env now job w).
Proof.
  intros (Hlife & Hsus & Hcount) Hjob Hst.
  assert (status job ≠ RUNNING) as Hnr by (destruct Hst; congruence).
  destruct (dispatchJob_starts env now job w Hjob Hnr) as (s' & -> & Hr).
  unfold life_ok. cbn [store suspended calls]. split_and!.
  - destruct Hr as (-> & _). apply map_Forall_insert_2; [| done].
    apply job_life_started; [| done]. by apply (Hlife (id job)).
  - intros i. rewrite elem_of_app, list_elem_of_singleton, Hsus.
    destruct (decide (i = id job)) as [-> | Hne].
    + rewrite (rewrites_lookup _ _ _ _ Hr). split; [| by right].
      intros _. eexists. split; [done |]. done.
    + rewrite (rewrites_lookup_ne _ _ _ _ _ Hr) by done. tauto.
  - intros i. rewrite starts_app, starts_StartJob. specialize (Hcount i).
    destruct (decide (i = id job)) as [-> | Hne].
    + rewrite (rewrites_lookup _ _ _ _ Hr). rewrite Hjob in Hcount.
      rewrite decide_True by done. simpl. lia.
    + rewrite (rewrites_lookup_ne _ _ _ _ _ Hr) by done.
      rewrite decide_False by done.
      destruct (jobs (store w) !! i); lia.
Qed.

Lemma dispatch_all_preserves (env : Env) (P : World → Prop) :
  (∀ now job w,
     P w → jobs (store w) !! id job = Some job →
     status job = PENDING ∨ status job = RETRYING →
     id job ∉ activeExecutions (scheduler w) →
     P (Scheduler.dispatchJob env now job w)) →
  ∀ clock ready w,
    NoDup (id <$> ready) →
    (∀ job, job ∈ ready →
            jobs (store w) !! id job = Some job ∧
            (status job = PENDING ∨ status job = RETRYING) ∧
            id job ∉ activeExecutions (scheduler w)) →
    P w → P (Scheduler.dispatch_all env clock ready w).
Proof.
  intros Hstep clock ready. revert clock.
  induction ready as [| job ready IH]; intros clock w Hnd Hall HP; [done |].
  apply NoDup_cons in Hnd as [Hhead Hnd].
  destruct (Hall job) as (Hjob & Hst & Hfree); [apply list_elem_of_here |].
  assert (status job ≠ RUNNING) as Hnr by (destruct Hst; congruence).
  cbn [Scheduler.dispatch_all]. rewrite decide_False by done.
  apply IH; [done | | by apply Hstep].
  destruct (dispatchJob_starts env (clock O) job w Hjob Hnr) as (s1 & -> & Hr1).
  intros job' Hin. destruct (Hall job') as (Hjob' & Hst' & Hfree');
    [by apply list_elem_of_further |].
  assert (id job' ≠ id job) as Hne.
  { intros Heq. apply Hhead. rewrite <- Heq. by apply list_elem_of_fmap_2. }
  cbn [store scheduler Scheduler.with_active activeExecutions].
  split_and!; [| done |].
  - by rewrite (rewrites_lookup_ne _ _ _ _ _ Hr1).
  - rewrite elem_of_union, elem_of_singleton. tauto.
Qed.

Lemma ready_fresh (env : Env) (now : Z) (w : World) (job : Job) :
  world_ok env w → life_ok w →
  job ∈ QueueManager.getJobsReadyForExecution now (store w) →
  jobs (store w) !! id job = Some job ∧
  (status job = PENDING ∨ status job = RETRYING) ∧
  id job ∉ activeExecutions (scheduler w).
Proof.
  intros [[Hidx _] (_ & Hmem & _)] (_ & Hsus & _) Hin.
  apply ready_dispatchable in Hin as [Hjob Hst]; [| done].
  split_and!; [done | tauto |].
  rewrite <- Hmem, Hsus. intros (j & Hj & Hrun).
  rewrite Hjob in Hj. injection Hj as <-. destruct Hst as [? | [? _]]; congruence.
Qed.

Lemma poll_life_ok (env : Env) (now : Z) (clock : nat → Z) (w : World) :
  world_ok env w → life_ok w → life_ok (Scheduler.poll env now clock w).
Proof.
  intros Hok Hlife. unfold Scheduler.poll.
  destruct (isPaused (scheduler w) || negb (isRunning (scheduler w))); [done |].
  apply (dispatch_all_preserves env life_ok).
  - intros now' job w' Hl Hjob Hst _. by apply dispatchJob_life_ok.
  - apply ready_ids_NoDup. by destruct Hok as [[? _] _].
  - intros job Hin. by eapply ready_fresh.
  - done.
Qed.

Lemma dispatchJob_settled_life_ok (env : Env) (now : Z) (jobId : string)
    (outcome : Outcome) (w : World) :
  world_ok env w → life_ok w → jobId ∈ suspended w →
  life_ok (Scheduler.dispatchJob_settled env now jobId outcome w).
Proof.
  intros [_ (Hnd & _)] (Hlife & Hsus & Hcount) Hin.
  pose proof Hin as (job & Hjob & Hrun)%Hsus.
  destruct (dispatchJob_settled_found env now jobId outcome w job Hjob)
    as (s' & -> & Hr).
  assert (status (settled_job env now outcome job) ≠ RUNNING) as Hnr.
  { destruct outcome; simpl; [done |]. unfold failed_at. by case_decide. }
  assert (attempts (settled_job env now outcome job) = attempts job) as Hatt.
  { destruct outcome; simpl; [done |]. unfold failed_at. by case_decide. }
  unfold life_ok. cbn [store suspended calls]. split_and!.
  - destruct Hr as (-> & _). apply map_Forall_insert_2; [| done].
    apply job_life_settled; [| done]. by apply (Hlife jobId).
  - intros i. rewrite elem_of_remove_first, Hsus by done.
    destruct (decide (i = jobId)) as [-> | Hne].
    + rewrite (rewrites_lookup _ _ _ _ Hr). split; [tauto |].
      intros (j & [= <-] & Hst). done.
    + rewrite (rewrites_lookup_ne _ _ _ _ _ Hr) by done. tauto.
  - intros i. rewrite starts_app, starts_settle_call, Nat.add_0_r.
    specialize (Hcount i).
    destruct (decide (i = jobId)) as [-> | Hne].
    + rewrite (rewrites_lookup _ _ _ _ Hr). rewrite Hjob in Hcount. congruence.
    + by rewrite (rewrites_lookup_ne _ _ _ _ _ Hr).
Qed.

Lemma submit_life_ok (env : Env) (uuid : string) (now : Z) (type : string)
    (payload : Payload) (options : Options) (w : World) :
  jobs (store w) !! uuid = None →
  life_ok w → life_ok (submit env uuid now type payload options w).
Proof.
  intros Hfresh (Hlife & Hsus & Hcount).
  unfold submit, QueueManager.createJob, JobStore.createJob.
  case_decide as Hfull; [done |].
  unfold life_ok. cbn [store suspended calls snd jobs]. split_and!.
  - apply map_Forall_insert_2; [| done]. unfold job_life. simpl. done.
  - intros i. rewrite Hsus. destruct (decide (i = uuid)) as [-> | Hne].
    + rewrite lookup_insert_eq, Hfresh. split.
      * intros (j & ? & _). done.
      * intros (j & [= <-] & ?). done.
    + by rewrite lookup_insert_ne.
  - intros i. specialize (Hcount i). destruct (decide (i = uuid)) as [-> | Hne].
    + rewrite lookup_insert_eq. rewrite Hfresh in Hcount. simpl. lia.
    + by rewrite lookup_insert_ne.
Qed.

Lemma boot_life_ok (env : Env) : life_ok (boot env).
Proof.
  unfold life_ok. simpl. split_and!.
  - apply map_Forall_empty.
  - intros i. rewrite elem_of_nil, lookup_empty. split; [done |].
    intros (j & ? & _). done.
  - intros i. by rewrite lookup_empty.
Qed.

Lemma step_life_ok (env : Env) (w w' : World) :
  step env w w' → world_ok env w → life_ok w → life_ok w'.
Proof.
  intros Hstep Hok Hlife. destruct Hstep.
  - by apply submit_life_ok.
  - by apply poll_life_ok.
  - by apply dispatchJob_settled_life_ok.
  - done.
  - done.
  - done.
  - done.
Qed.

Lemma reachable_life_ok (env : Env) (w : World) :
  reachable env w → life_ok w.
Proof.
  induction 1 as [| w w' Hreach IH Hstep]; [apply boot_life_ok |].
  eapply step_life_ok; [done | by apply reachable_world_ok | done].
Qed.

(** ** The status index and the statistics *)

Lemma NoDup_buckets (s : JobStore) (sts : list Status) :
  index_ok s → NoDup sts →
  NoDup (sts ≫= λ st, bucket st (jobsByStatus s)).
Proof.
  intros Hidx. induction sts as [| st sts IH]; [constructor |].
  intros [Hst Hsts]%NoDup_cons. simpl.
  apply NoDup_app. split_and!; [apply (idx_nodup _ Hidx) | | by apply IH].
  intros i (j & Hj & Hs)%(idx_bucket _ Hidx).
  intros (st' & Hin & Hst')%list_elem_of_bind.
  apply (idx_bucket _ Hidx) in Hin as (j' & Hj' & Hs').
  apply Hst. congruence.
Qed.

Lemma buckets_cover (s : JobStore) :
  index_ok s →
  size (jobs s) =
  length ([PENDING; RUNNING; COMPLETED; FAILED; RETRYING; DEAD] ≫=
            λ st, bucket st (jobsByStatus s)).
Proof.
  intros Hidx.
  set (l := [PENDING; RUNNING; COMPLETED; FAILED; RETRYING; DEAD] ≫=
              λ st, bucket st (jobsByStatus s)).
  assert (dom (jobs s) = list_to_set l) as Hdom.
  { apply set_eq. intros i. subst l.
    rewrite elem_of_dom, elem_of_list_to_set, list_elem_of_bind. split.
    - intros [j Hj]. exists (status j). split.
      + apply (idx_bucket _ Hidx). eauto.
      + rewrite !elem_of_cons. destruct (status j); tauto.
    - intros (st & (j & Hj & _)%(idx_bucket _ Hidx) & _). eauto. }
  rewrite <- size_dom, Hdom. apply size_list_to_set.
  apply NoDup_buckets; [done |].
  apply (bool_decide_unpack _). vm_compute. exact I.
Qed.

(** X1: between two turns every job of the store is in exactly one status
    bucket, the one of its status, once; and the key it is stored under is
    its id. *)
Theorem every_job_in_one_bucket (env : Env) (w : World) (jobId : string)
    (job : Job) :
  reachable env w →
  jobs (store w) !! jobId = Some job →
  id job = jobId ∧
  (∀ st, jobId ∈ bucket st (jobsByStatus (store w)) ↔ st = status job) ∧
  (∀ st, NoDup (bucket st (jobsByStatus (store w)))).
Proof.
  intros Hreach Hjob.
  destruct (reachable_world_ok env w Hreach) as [[Hidx _] _].
  split_and!; [by apply (idx_id _ Hidx) | | apply (idx_nodup _ Hidx)].
  intros st. rewrite (idx_bucket _ Hidx), Hjob. split.
  - by intros (j & [= <-] & <-).
  - intros ->. eauto.
Qed.

Lemma every_job_in_one_bucket_witness :
  "a" = "a" ∧
  (∀ st, "a" ∈ bucket st (jobsByStatus (store w_b_completed)) ↔ st = RETRYING) ∧
  (∀ st, NoDup (bucket st (jobsByStatus (store w_b_completed)))).
Proof.
  apply (every_job_in_one_bucket default_env w_b_completed "a"
           (mkJob "a" "SEND_EMAIL" email RETRYING 1 3 1 (Some 2) None
              (Some "boom") (Some 2004))
           reachable_w_b_completed).
  vm_compute. reflexivity.
Defined.

(** X2: the statistics add up. In every reachable state [total] is the sum
    of the six status counts, and [failed] is zero: FAILED is only passed
    through inside [failJob] and is never seen between two turns. *)
Theorem stats_add_up (env : Env) (w : World) :
  reachable env w →
  JobStore.total (QueueManager.getStats (store w)) =
    (JobStore.pending (QueueManager.getStats (store w)) +
     JobStore.running (QueueManager.getStats (store w)) +
     JobStore.completed (QueueManager.getStats (store w)) +
     JobStore.failed (QueueManager.getStats (store w)) +
     JobStore.retrying (QueueManager.getStats (store w)) +
     JobStore.dead (QueueManager.getStats (store w)))%nat ∧
  JobStore.failed (QueueManager.getStats (store w)) = 0%nat.
Proof.
  intros Hreach.
  destruct (reachable_world_ok env w Hreach) as [[Hidx _] _].
  destruct (reachable_life_ok env w Hreach) as (Hlife & _).
  unfold QueueManager.getStats, JobStore.getStats. simpl. split.
  - rewrite (buckets_cover _ Hidx). simpl. rewrite !length_app. simpl. lia.
  - change (length (bucket FAILED (jobsByStatus (store w))) = 0%nat).
    destruct (bucket FAILED (jobsByStatus (store w))) as [| i l] eqn:Hb; [done |].
    assert (i ∈ bucket FAILED (jobsByStatus (store w))) as Hin
      by (rewrite Hb; apply list_elem_of_here).
    apply (idx_bucket _ Hidx) in Hin as (j & Hj & Hst).
    specialize (Hlife _ _ Hj). unfold job_life in Hlife. simpl in Hlife.
    by rewrite Hst in Hlife.
Qed.

Lemma stats_add_up_witness :
  JobStore.total (QueueManager.getStats (store w_b_completed)) =
    (JobStore.pending (QueueManager.getStats (store w_b_completed)) +
     JobStore.running (QueueManager.getStats (store w_b_completed)) +
     JobStore.completed (QueueManager.getStats (store w_b_completed)) +
     JobStore.failed (QueueManager.getStats (store w_b_completed)) +
     JobStore.retrying (QueueManager.getStats (store w_b_completed)) +
     JobStore.dead (QueueManager.getStats (store w_b_completed)))%nat ∧
  JobStore.failed (QueueManager.getStats (store w_b_completed)) = 0%nat.
Proof.
  apply (stats_add_up default_env w_b_completed reachable_w_b_completed).
Defined.

(** X3: the fields of a job follow its status. A PENDING job has made no
    attempt and has no [startedAt], [finishedAt], [error] or [retryAt]; a
    RUNNING job has made an attempt, has [startedAt] and no [finishedAt]; a
    RETRYING job has besides an [error] and a [retryAt]; a COMPLETED job has
    [finishedAt]; a DEAD job has [finishedAt] and an [error]; no job is
    FAILED. *)
Theorem job_fields_follow_status (env : Env) (w : World) (jobId : string)
    (job : Job) :
  reachable env w →
  jobs (store w) !! jobId = Some job →
  match status job with
  | PENDING =>
      attempts job = 0 ∧ startedAt job = None ∧ finishedAt job = None ∧
      error job = None ∧ retryAt job = None
  | RUNNING =>
      1 ≤ attempts job ∧ is_Some (startedAt job) ∧ finishedAt job = None
  | COMPLETED =>
      1 ≤ attempts job ∧ is_Some (startedAt job) ∧ is_Some (finishedAt job)
  | FAILED => False
  | RETRYING =>
      1 ≤ attempts job ∧ is_Some (startedAt job) ∧ finishedAt job = None ∧
      is_Some (error job) ∧ is_Some (retryAt job)
  | DEAD =>
      1 ≤ attempts job ∧ is_Some (startedAt job) ∧ is_Some (finishedAt job) ∧
      is_Some (error job)
  end.
Proof.
  intros Hreach Hjob.
  destruct (reachable_life_ok env w Hreach) as (Hlife & _).
  exact (Hlife _ _ Hjob).
Qed.

Lemma job_fields_follow_status_witness :
  1 ≤ 1 ∧ is_Some (Some 7) ∧ is_Some (Some 8) ∧ is_Some (Some "boom").
Proof.
  apply (job_fields_follow_status default_env w_b_completed "c"
           (mkJob "c" "SEND_EMAIL" email DEAD 1 1 5 (Some 7) (Some 8)
              (Some "boom") None)
           reachable_w_b_completed).
  vm_compute. reflexivity.
Defined.

(** ** Jobs in flight *)

(** X4: a job is RUNNING exactly while the scheduler holds its id in the
    in-flight set. So the queue's [running] count equals the scheduler's
    [activeExecutions] count, and [hasActiveExecutions], on which the
    shutdown waits, is true exactly when some job is RUNNING. *)
Theorem running_iff_in_flight (env : Env) (w : World) :
  reachable env w →
  (∀ jobId,
     jobId ∈ activeExecutions (scheduler w) ↔
     ∃ job, jobs (store w) !! jobId = Some job ∧ status job = RUNNING) ∧
  JobStore.running (QueueManager.getStats (store w)) =
    Scheduler.stats_activeExecutions (Scheduler.getStats (scheduler w)) ∧
  (Scheduler.hasActiveExecutions (scheduler w) = true ↔
   ∃ jobId job, jobs (store w) !! jobId = Some job ∧ status job = RUNNING).
Proof.
  intros Hreach.
  destruct (reachable_world_ok env w Hreach) as [[Hidx _] (Hnd & Hmem & _)].
  destruct (reachable_life_ok env w Hreach) as (_ & Hsus & _).
  assert (∀ jobId,
            jobId ∈ activeExecutions (scheduler w) ↔
            ∃ job, jobs (store w) !! jobId = Some job ∧ status job = RUNNING)
    as Hactive.
  { intros i. by rewrite <- Hmem, Hsus. }
  assert (activeExecutions (scheduler w) =
          list_to_set (bucket RUNNING (jobsByStatus (store w)))) as Hset.
  { apply set_eq. intros i.
    by rewrite Hactive, elem_of_list_to_set, (idx_bucket _ Hidx). }
  assert (size (activeExecutions (scheduler w)) =
          length (bucket RUNNING (jobsByStatus (store w)))) as Hsize.
  { rewrite Hset. apply size_list_to_set, (idx_nodup _ Hidx). }
  split_and!; [done | by symmetry |].
  unfold Scheduler.hasActiveExecutions. rewrite bool_decide_eq_true. split.
  - intros Hpos.
    destruct (bucket RUNNING (jobsByStatus (store w))) as [| i l] eqn:Hb;
      [simpl in Hsize; lia |].
    assert (i ∈ bucket RUNNING (jobsByStatus (store w))) as Hin
      by (rewrite Hb; apply list_elem_of_here).
    apply (idx_bucket _ Hidx) in Hin. eauto.
  - intros (i & j & Hj & Hst).
    assert (i ∈ activeExecutions (scheduler w)) as Hin by (apply Hactive; eauto).
    apply elem_of_elements, list_elem_of_lookup in Hin as [k Hk].
    apply lookup_lt_Some in Hk. unfold size, set_size. simpl. lia.
Qed.

Lemma running_iff_in_flight_witness :
  (∀ jobId,
     jobId ∈ activeExecutions (scheduler w_c_running) ↔
     ∃ job, jobs (store w_c_running) !! jobId = Some job ∧ status job = RUNNING) ∧
  JobStore.running (QueueManager.getStats (store w_c_running)) =
    Scheduler.stats_activeExecutions (Scheduler.getStats (scheduler w_c_running)) ∧
  (Scheduler.hasActiveExecutions (scheduler w_c_running) = true ↔
   ∃ jobId job,
     jobs (store w_c_running) !! jobId = Some job ∧ status job = RUNNING).
Proof.
  apply (running_iff_in_flight default_env w_c_running reachable_w_c_running).
Defined.

(** X5: the [attempts] of a job count the [startJob] calls the scheduler has
    made on its id, and an id that is not in the store has never been
    started. *)
Theorem attempts_count_starts (env : Env) (w : World) (jobId : string) :
  reachable env w →
  match jobs (store w) !! jobId with
  | Some job => attempts job = Z.of_nat (starts jobId (calls w))
  | None => starts jobId (calls w) = 0%nat
  end.
Proof.
  intros Hreach.
  destruct (reachable_life_ok env w Hreach) as (_ & _ & Hcount).
  apply Hcount.
Qed.

Lemma attempts_count_starts_witness :
  match jobs (store w_b_completed) !! "a" with
  | Some job => attempts job = Z.of_nat (starts "a" (calls w_b_completed))
  | None => starts "a" (calls w_b_completed) = 0%nat
  end.
Proof.
  apply (attempts_count_starts default_env w_b_completed "a"
           reachable_w_b_completed).
Defined.

(** ** What the turns leave alone *)

Lemma poll_elsewhere (env : Env) (now : Z) (clock : nat → Z) (w : World)
    (i : string) :
  world_ok env w → life_ok w →
  i ∉ id <$> QueueManager.getJobsReadyForExecution now (store w) →
  jobs (store (Scheduler.poll env now clock w)) !! i = jobs (store w) !! i.
Proof.
  intros Hok Hlife Hi. unfold Scheduler.poll.
  destruct (isPaused (scheduler w) || negb (isRunning (scheduler w))); [done |].
  apply dispatch_all_fresh; [| | done].
  - apply ready_ids_NoDup. by destruct Hok as [[? _] _].
  - intros job Hin.
    destruct (ready_fresh env now w job Hok Hlife Hin) as (? & Hst & ?).
    split_and!; [done | destruct Hst; congruence | done].
Qed.

Lemma reachable_rtc (env : Env) (w w' : World) :
  reachable env w → rtc (step env) w w' → reachable env w'.
Proof.
  intros Hreach Hsteps. induction Hsteps as [| w w1 w2 Hstep _ IH]; [done |].
  apply IH. by eapply reach_step.
Qed.

Lemma step_keeps_terminal (env : Env) (w w' : World) (i : string) (j : Job) :
  reachable env w → step env w w' →
  jobs (store w) !! i = Some j →
  status j = COMPLETED ∨ status j = DEAD →
  jobs (store w') !! i = Some j.
Proof.
  intros Hreach Hstep Hj Hterm.
  pose proof (reachable_world_ok env w Hreach) as Hok.
  pose proof (reachable_life_ok env w Hreach) as Hlife.
  destruct Hstep as [uuid now ty pl opts _ Hfresh _ | now clock _ _
                    | now jobId outcome _ Hin | | | |]; try done.
  - unfold submit, QueueManager.createJob, JobStore.createJob.
    case_decide; [done |]. cbn [store snd jobs].
    rewrite lookup_insert_ne; [done |]. intros ->. congruence.
  - rewrite poll_elsewhere by first [done |
      intros (job & -> & Hin)%list_elem_of_fmap;
      destruct (ready_fresh env now w job Hok Hlife Hin) as (Hjob & Hst & _);
      rewrite Hjob in Hj; injection Hj as ->;
      destruct Hterm, Hst; congruence].
    done.
  - destruct Hlife as (_ & Hsus & _).
    pose proof Hin as (job & Hjob & Hrun)%Hsus.
    destruct (dispatchJob_settled_found env now jobId outcome w job Hjob)
      as (s' & -> & Hr).
    cbn [store]. rewrite (rewrites_lookup_ne _ _ _ _ _ Hr); [done |].
    intros ->. rewrite Hjob in Hj. injection Hj as ->.
    destruct Hterm; congruence.
Qed.

(** X6: COMPLETED and DEAD are final. Once the system has reached a state in
    which a job is COMPLETED or DEAD, no sequence of submissions, polls,
    settled dispatches and scheduler commands changes any field of that job:
    the scheduler never calls [completeJob] or [failJob] on it again,
    although neither would refuse. *)
Theorem terminal_jobs_stay (env : Env) (w w' : World) (jobId : string)
    (job : Job) :
  reachable env w →
  rtc (step env) w w' →
  jobs (store w) !! jobId = Some job →
  status job = COMPLETED ∨ status job = DEAD →
  jobs (store w') !! jobId = Some job.
Proof.
  intros Hreach Hsteps Hjob Hterm.
  induction Hsteps as [| w w1 w2 Hstep _ IH]; [done |].
  apply IH.
  - by eapply reach_step.
  - by eapply step_keeps_terminal.
Qed.

Lemma terminal_jobs_stay_witness :
  jobs (store w_b_completed) !! "c" =
    Some (mkJob "c" "SEND_EMAIL" email DEAD 1 1 5 (Some 7) (Some 8)
            (Some "boom") None).
Proof.
  apply (terminal_jobs_stay default_env w_c_dead w_b_completed "c"
           (mkJob "c" "SEND_EMAIL" email DEAD 1 1 5 (Some 7) (Some 8)
              (Some "boom") None)
           reachable_w_c_dead).
  - apply rtc_once. apply step_settled; [lia |].
    vm_compute. apply list_elem_of_here.
  - vm_compute. reflexivity.
  - right. reflexivity.
Defined.

Lemma evolves_refl (j : Job) : evolves j j.
Proof. unfold evolves. split_and!; done. Qed.

Lemma evolves_trans (j1 j2 j3 : Job) :
  evolves j1 j2 → evolves j2 j3 → evolves j1 j3.
Proof. unfold evolves. intros (?&?&?&?&?&?) (?&?&?&?&?&?). split_and!; try congruence. lia. Qed.

Lemma store_evolves_refl (s : JobStore) : store_evolves s s.
Proof. intros i j Hj. eauto using evolves_refl. Qed.

Lemma store_evolves_trans (s1 s2 s3 : JobStore) :
  store_evolves s1 s2 → store_evolves s2 s3 → store_evolves s1 s3.
Proof.
  intros H12 H23 i j Hj.
  destruct (H12 i j Hj) as (j2 & Hj2 & He2).
  destruct (H23 i j2 Hj2) as (j3 & Hj3 & He3).
  eauto using evolves_trans.
Qed.

Lemma rewrites_store_evolves (jobId : string) (job job' : Job) (s s' : JobStore) :
  rewrites jobId job' s s' → jobs s !! jobId = Some job → evolves job job' →
  store_evolves s s'.
Proof.
  intros Hr Hjob Hev i j Hj. destruct (decide (i = jobId)) as [-> | Hne].
  - rewrite (rewrites_lookup _ _ _ _ Hr). rewrite Hjob in Hj.
    injection Hj as <-. eauto.
  - rewrite (rewrites_lookup_ne _ _ _ _ _ Hr) by done. eauto using evolves_refl.
Qed.

Lemma startJob_store_evolves (now : Z) (jobId : string) (s : JobStore) :
  store_evolves s (QueueManager.startJob now jobId s).2.
Proof.
  destruct (jobs s !! jobId) as [job |] eqn:Hjob.
  - destruct (decide (status job = RUNNING)) as [Hst | Hst].
    + rewrite (startJob_running now jobId s job Hjob Hst).
      apply store_evolves_refl.
    + destruct (startJob_found now jobId s job Hjob Hst) as (s' & -> & Hr).
      eapply rewrites_store_evolves; [done | done |].
      unfold evolves. simpl. split_and!; try done. lia.
  - rewrite (startJob_absent now jobId s Hjob). apply store_evolves_refl.
Qed.

Lemma completeJob_store_evolves (now : Z) (jobId : string) (s : JobStore) :
  store_evolves s (QueueManager.completeJob now jobId s).2.
Proof.
  destruct (jobs s !! jobId) as [job |] eqn:Hjob.
  - destruct (completeJob_found now jobId s job Hjob) as (s' & -> & Hr).
    eapply rewrites_store_evolves; [done | done |].
    unfold evolves. simpl. split_and!; try done.
  - rewrite (completeJob_absent now jobId s Hjob). apply store_evolves_refl.
Qed.

Lemma failJob_store_evolves (env : Env) (now : Z) (jobId msg : string)
    (s : JobStore) :
  store_evolves s (QueueManager.failJob env now jobId msg s).2.
Proof.
  destruct (jobs s !! jobId) as [job |] eqn:Hjob.
  - destruct (failJob_found env now jobId msg s job Hjob) as (s' & -> & Hr).
    eapply rewrites_store_evolves; [done | done |].
    unfold evolves, failed_at. case_decide; simpl; split_and!; try done.
  - rewrite (failJob_absent env now jobId msg s Hjob). apply store_evolves_refl.
Qed.

Lemma dispatchJob_store_evolves (env : Env) (now : Z) (job : Job) (w : World) :
  store_evolves (store w) (store (Scheduler.dispatchJob env now job w)).
Proof.
  pose proof (startJob_store_evolves now (id job) (store w)) as Hstart.
  unfold Scheduler.dispatchJob.
  destruct (QueueManager.startJob now (id job) (store w)) as [[j | e] s];
    cbn [store snd] in *; [done |].
  eapply store_evolves_trans; [done |]. apply failJob_store_evolves.
Qed.

Lemma dispatch_all_store_evolves (env : Env) (clock : nat → Z)
    (ready : list Job) (w : World) :
  store_evolves (store w) (store (Scheduler.dispatch_all env clock ready w)).
Proof.
  revert clock w. induction ready as [| job ready IH]; intros clock w.
  - apply store_evolves_refl.
  - cbn [Scheduler.dispatch_all]. eapply store_evolves_trans; [| apply IH].
    case_decide; [apply store_evolves_refl | apply dispatchJob_store_evolves].
Qed.

Lemma step_store_evolves (env : Env) (w w' : World) :
  step env w w' → store_evolves (store w) (store w').
Proof.
  intros Hstep.
  destruct Hstep as [uuid now ty pl opts _ Hfresh _ | now clock _ _
                    | now jobId outcome _ Hin | | | |];
    try apply store_evolves_refl.
  - unfold submit, QueueManager.createJob, JobStore.createJob.
    case_decide; [apply store_evolves_refl |]. cbn [store snd jobs].
    intros i j Hj. exists j. split; [| apply evolves_refl].
    cbn [jobs]. rewrite lookup_insert_ne; [done |]. intros ->. congruence.
  - unfold Scheduler.poll.
    destruct (isPaused (scheduler w) || negb (isRunning (scheduler w)));
      [apply store_evolves_refl | apply dispatch_all_store_evolves].
  - unfold Scheduler.dispatchJob_settled. destruct outcome as [| msg].
    + pose proof (completeJob_store_evolves now jobId (store w)) as Hc.
      destruct (QueueManager.completeJob now jobId (store w)) as [[j | e] s];
        cbn [store snd] in *; [done |].
      eapply store_evolves_trans; [done |]. apply failJob_store_evolves.
    + cbn [store]. apply failJob_store_evolves.
Qed.

(** X7: no turn removes a job or rewrites what its creation fixed. After any
    sequence of turns a job of the store is still stored under its id, with
    the same [id], [type], [payload], [maxAttempts] and [createdAt], and
    with [attempts] that have not gone down. *)
Theorem jobs_persist (env : Env) (w w' : World) (jobId : string) (job : Job) :
  rtc (step env) w w' →
  jobs (store w) !! jobId = Some job →
  ∃ job',
    jobs (store w') !! jobId = Some job' ∧
    id job' = id job ∧ type job' = type job ∧ payload job' = payload job ∧
    maxAttempts job' = maxAttempts job ∧ createdAt job' = createdAt job ∧
    attempts job ≤ attempts job'.
Proof.
  intros Hsteps. revert job.
  induction Hsteps as [| w w1 w2 Hstep _ IH]; intros job Hjob.
  - exists job. split; [done |]. apply evolves_refl.
  - destruct (step_store_evolves env w w1 Hstep _ _ Hjob) as (j1 & Hj1 & He1).
    destruct (IH j1 Hj1) as (j2 & Hj2 & He2).
    exists j2. split; [done |]. exact (evolves_trans _ _ _ He1 He2).
Qed.

Lemma jobs_persist_witness :
  ∃ job',
    jobs (store w_a_retrying) !! "a" = Some job' ∧
    id job' = "a" ∧ type job' = "SEND_EMAIL" ∧ payload job' = email ∧
    maxAttempts job' = 3 ∧ createdAt job' = 1 ∧ 0 ≤ attempts job'.
Proof.
  apply (jobs_persist default_env w_a_created w_a_retrying "a"
           (mkJob "a" "SEND_EMAIL" email PENDING 0 3 1 None None None None)).
  - eapply rtc_l; [apply (step_poll _ _ 2 (λ _, 2)); [lia | intros; lia] |].
    eapply rtc_l;
      [apply (step_submit _ _ "b" 3 "SEND_EMAIL" email no_options);
       [lia | vm_compute; reflexivity | exact I] |].
    apply rtc_once.
    apply (step_settled _ _ 4 "a" (Rejected "boom")); [lia |].
    vm_compute. apply list_elem_of_here.
  - vm_compute. reflexivity.
Defined.

(** X8: the retry delay is honoured. A poll taken before the [retryAt] of a
    RETRYING job leaves that job exactly as it is. *)
Theorem poll_waits_for_retryAt (env : Env) (w : World) (now : Z)
    (clock : nat → Z) (jobId : string) (job : Job) (t : Z) :
  reachable env w →
  jobs (store w) !! jobId = Some job →
  status job = RETRYING →
  retryAt job = Some t →
  now < t →
  jobs (store (Scheduler.poll env now clock w)) !! jobId = Some job.
Proof.
  intros Hreach Hjob Hst Ht Hnow.
  pose proof (reachable_world_ok env w Hreach) as Hok.
  pose proof (reachable_life_ok env w Hreach) as Hlife.
  rewrite poll_elsewhere; [done | done | done |].
  intros (job' & -> & Hin)%list_elem_of_fmap.
  destruct Hok as [[Hidx _] _].
  apply ready_dispatchable in Hin as [Hjob' Hst']; [| done].
  rewrite Hjob in Hjob'. injection Hjob' as <-.
  destruct Hst' as [? | [_ Hel]]; [congruence |].
  unfold JobStore.retry_elapsed in Hel. rewrite Ht in Hel.
  apply andb_true_iff in Hel as [_ Hle%bool_decide_eq_true]. lia.
Qed.

Lemma poll_waits_for_retryAt_witness :
  jobs (store (Scheduler.poll default_env 100 (λ _, 100) w_b_completed)) !! "a" =
    Some (mkJob "a" "SEND_EMAIL" email RETRYING 1 3 1 (Some 2) None
            (Some "boom") (Some 2004)).
Proof.
  apply (poll_waits_for_retryAt default_env w_b_completed 100 (λ _, 100) "a"
           (mkJob "a" "SEND_EMAIL" email RETRYING 1 3 1 (Some 2) None
              (Some "boom") (Some 2004)) 2004 reachable_w_b_completed).
  - vm_compute. reflexivity.
  - reflexivity.
  - reflexivity.
  - lia.
Defined.

(** X9: a poll of a running, unpaused scheduler starts every job of the
    ready list, in the order of the list and whatever the number of workers:
    each becomes RUNNING with one more attempt and the clock reading of its
    turn as [startedAt], its id joins the in-flight set, and one [startJob]
    call per job is made, in list order. No other job changes. *)
Theorem poll_starts_all_ready (env : Env) (w : World) (now : Z)
    (clock : nat → Z) :
  reachable env w →
  isRunning (scheduler w) = true →
  isPaused (scheduler w) = false →
  calls (Scheduler.poll env now clock w) =
    calls w ++
    ((λ job, StartJob (id job)) <$>
       QueueManager.getJobsReadyForExecution now (store w)) ∧
  activeExecutions (scheduler (Scheduler.poll env now clock w)) =
    list_to_set (id <$> QueueManager.getJobsReadyForExecution now (store w)) ∪
    activeExecutions (scheduler w) ∧
  (∀ k job,
     QueueManager.getJobsReadyForExecution now (store w) !! k = Some job →
     jobs (store (Scheduler.poll env now clock w)) !! id job =
       Some (started (clock k) job)) ∧
  (∀ jobId,
     jobId ∉ id <$> QueueManager.getJobsReadyForExecution now (store w) →
     jobs (store (Scheduler.poll env now clock w)) !! jobId =
       jobs (store w) !! jobId).
Proof.
  intros Hreach Hrun Hpause.
  pose proof (reachable_world_ok env w Hreach) as Hok.
  pose proof (reachable_life_ok env w Hreach) as Hlife.
  unfold Scheduler.poll. rewrite Hrun, Hpause. cbn [negb orb].
  destruct (dispatch_all_fresh env clock
              (QueueManager.getJobsReadyForExecution now (store w)) w)
    as (_ & _ & Hact & _ & Hcalls & _ & _ & Hjobs & Hother).
  - apply ready_ids_NoDup. by destruct Hok as [[? _] _].
  - intros job Hin.
    destruct (ready_fresh env now w job Hok Hlife Hin) as (? & Hst & ?).
    split_and!; [done | destruct Hst; congruence | done].
  - by split_and!.
Qed.

Lemma poll_starts_all_ready_witness :
  calls (Scheduler.poll default_env 6 (λ k, 6 + Z.of_nat k) w_c_created) =
    calls w_c_created ++
    ((λ job, StartJob (id job)) <$>
       QueueManager.getJobsReadyForExecution 6 (store w_c_created)) ∧
  activeExecutions
    (scheduler (Scheduler.poll default_env 6 (λ k, 6 + Z.of_nat k) w_c_created)) =
    list_to_set (id <$> QueueManager.getJobsReadyForExecution 6 (store w_c_created)) ∪
    activeExecutions (scheduler w_c_created) ∧
  (∀ k job,
     QueueManager.getJobsReadyForExecution 6 (store w_c_created) !! k = Some job →
     jobs (store (Scheduler.poll default_env 6 (λ k, 6 + Z.of_nat k) w_c_created))
       !! id job = Some (started (6 + Z.of_nat k) job)) ∧
  (∀ jobId,
     jobId ∉ id <$> QueueManager.getJobsReadyForExecution 6 (store w_c_created) →
     jobs (store (Scheduler.poll default_env 6 (λ k, 6 + Z.of_nat k) w_c_created))
       !! jobId = jobs (store w_c_created) !! jobId).
Proof.
  apply (poll_starts_all_ready default_env w_c_created 6 (λ k, 6 + Z.of_nat k)
           reachable_w_c_created).
  - reflexivity.
  - reflexivity.
Defined.

(** ** Creating and looking up jobs *)

(** X10: while the store is below its capacity [createJob] returns a PENDING
    job with no attempts, the given type and payload and the clock reading
    as [createdAt]; [maxAttempts] is the option when it is given and not
    zero, the configured limit otherwise. [getJob] then finds that job under
    its id, every other id reads as before, and a new id goes to the end of
    the PENDING bucket. *)
Theorem createJob_then_getJob (env : Env) (uuid : string) (now : Z)
    (type0 : string) (payload0 : Payload) (options : Options) (s : JobStore) :
  Z.of_nat (size (jobs s)) < maxQueueSize s →
  ∃ job s',
    QueueManager.createJob env uuid now type0 payload0 options s =
      (Return job, s') ∧
    QueueManager.getJob s' uuid = Some job ∧
    id job = uuid ∧ type job = type0 ∧ payload job = payload0 ∧
    status job = PENDING ∧ attempts job = 0 ∧ createdAt job = now ∧
    (∀ m, o_maxAttempts options = Some m → m ≠ 0 → maxAttempts job = m) ∧
    (o_maxAttempts options = None ∨ o_maxAttempts options = Some 0 →
     maxAttempts job = MAX_JOB_ATTEMPTS env) ∧
    (∀ i, i ≠ uuid → QueueManager.getJob s' i = QueueManager.getJob s i) ∧
    (uuid ∉ bucket PENDING (jobsByStatus s) →
     bucket PENDING (jobsByStatus s') =
       bucket PENDING (jobsByStatus s) ++ [uuid]).
Proof.
  intros Hroom. unfold QueueManager.createJob, JobStore.createJob.
  rewrite decide_False by lia. eexists _, _. split; [reflexivity |].
  unfold QueueManager.getJob, JobStore.getJob. cbn [jobs jobsByStatus].
  split_and!; try done.
  - apply lookup_insert_eq.
  - intros m Hm Hne. cbn [maxAttempts]. unfold JobStore.maxAttempts_of.
    rewrite Hm. by rewrite decide_False.
  - intros Hopt. cbn [maxAttempts]. unfold JobStore.maxAttempts_of.
    destruct Hopt as [-> | ->]; [done |]. by rewrite decide_True.
  - intros i Hne. by rewrite lookup_insert_ne.
  - intros Hnew. rewrite bucket_with_bucket, decide_True by done.
    unfold set_add. by rewrite decide_False.
Qed.

Lemma createJob_then_getJob_witness :
  ∃ job s',
    QueueManager.createJob default_env "d" 9 "SEND_EMAIL" email
      (mkOptions (Some 5)) (store w_c_dead) = (Return job, s') ∧
    QueueManager.getJob s' "d" = Some job ∧
    id job = "d" ∧ type job = "SEND_EMAIL" ∧ payload job = email ∧
    status job = PENDING ∧ attempts job = 0 ∧ createdAt job = 9 ∧
    (∀ m, Some 5 = Some m → m ≠ 0 → maxAttempts job = m) ∧
    (Some 5 = None ∨ Some 5 = Some 0 → maxAttempts job = 3) ∧
    (∀ i, i ≠ "d" → QueueManager.getJob s' i = QueueManager.getJob (store w_c_dead) i) ∧
    ("d" ∉ bucket PENDING (jobsByStatus (store w_c_dead)) →
     bucket PENDING (jobsByStatus s') =
       bucket PENDING (jobsByStatus (store w_c_dead)) ++ ["d"]).
Proof.
  apply (createJob_then_getJob default_env "d" 9 "SEND_EMAIL" email
           (mkOptions (Some 5)) (store w_c_dead)).
  vm_compute. reflexivity.
Defined.



(** X12: the store never holds more jobs than the configured capacity. *)
Theorem queue_never_over_capacity (env : Env) (w : World) :
  env_ok env →
  reachable env w →
  Z.of_nat (JobStore.total (QueueManager.getStats (store w))) ≤
    QUEUE_MAX_SIZE env.
Proof.
  intros Henv Hreach.
  destruct (reachable_world_ok env w Hreach) as [[_ Hstore] _].
  destruct (Hstore Henv) as [_ [Hmax Hsize]].
  unfold QueueManager.getStats, JobStore.getStats. simpl. lia.
Qed.

Lemma queue_never_over_capacity_witness :
  Z.of_nat (JobStore.total (QueueManager.getStats (store w_full))) ≤ 1.
Proof.
  apply (queue_never_over_capacity tiny_env w_full tiny_env_ok
           reachable_w_full).
Defined.

(** ** Retry delays and error paths *)

(** X13: the retry delay starts at the base, doubles with every attempt made
    and so never shrinks as the attempts grow. *)
Theorem retry_delay_doubles (env : Env) (n m : Z) :
  0 ≤ RETRY_BACKOFF_BASE_MS env →
  0 ≤ n ≤ m →
  QueueManager.calculateRetryDelay env 0 = RETRY_BACKOFF_BASE_MS env ∧
  QueueManager.calculateRetryDelay env (n + 1) =
    2 * QueueManager.calculateRetryDelay env n ∧
  QueueManager.calculateRetryDelay env n ≤
    QueueManager.calculateRetryDelay env m.
Proof.
  intros Hbase [Hn Hm]. unfold QueueManager.calculateRetryDelay. split_and!.
  - rewrite Z.pow_0_r. lia.
  - rewrite Z.pow_add_r, Z.pow_1_r by lia. lia.
  - apply Z.mul_le_mono_nonneg_l; [done |].
    apply Z.pow_le_mono_r; lia.
Qed.

Lemma retry_delay_doubles_witness :
  QueueManager.calculateRetryDelay default_env 0 = 1000 ∧
  QueueManager.calculateRetryDelay default_env (1 + 1) =
    2 * QueueManager.calculateRetryDelay default_env 1 ∧
  QueueManager.calculateRetryDelay default_env 1 ≤
    QueueManager.calculateRetryDelay default_env 3.
Proof.
  apply (retry_delay_doubles default_env 1 3); simpl; lia.
Defined.

(** X14: on an id that is not in the store [getJob] answers with nothing,
    and [completeJob] and [failJob] throw the not-found error and leave the
    store as it was. *)
Theorem absent_id_not_found (env : Env) (now : Z) (jobId msg : string)
    (s : JobStore) :
  jobs s !! jobId = None →
  QueueManager.getJob s jobId = None ∧
  QueueManager.completeJob now jobId s = (Throw (JobNotFound jobId), s) ∧
  QueueManager.failJob env now jobId msg s = (Throw (JobNotFound jobId), s).
Proof.
  intros Habsent. split_and!.
  - done.
  - by apply completeJob_absent.
  - by apply failJob_absent.
Qed.

Lemma absent_id_not_found_witness :
  QueueManager.getJob (store w_a_created) "zz" = None ∧
  QueueManager.completeJob 2 "zz" (store w_a_created) =
    (Throw (JobNotFound "zz"), store w_a_created) ∧
  QueueManager.failJob default_env 2 "zz" "boom" (store w_a_created) =
    (Throw (JobNotFound "zz"), store w_a_created).
Proof.
  apply (absent_id_not_found default_env 2 "zz" "boom" (store w_a_created)).
  vm_compute. reflexivity.
Defined.

(** X15: a job cannot be started twice in a row. Once [startJob] has
    returned for an id, a second [startJob] on it throws the already-running
    error and changes nothing, until the job leaves RUNNING. *)
Theorem startJob_twice_refused (now now' : Z) (jobId : string) (s : JobStore)
    (job : Job) :
  jobs s !! jobId = Some job →
  status job ≠ RUNNING →
  ∃ job' s',
    QueueManager.startJob now jobId s = (Return job', s') ∧
    QueueManager.startJob now' jobId s' = (Throw (AlreadyRunning jobId), s').
Proof.
  intros Hjob Hst.
  destruct (startJob_found now jobId s job Hjob Hst) as (s' & Hrun & Hr).
  eexists _, s'. split; [exact Hrun |].
  eapply startJob_running; [by eapply rewrites_lookup | done].
Qed.

Lemma startJob_twice_refused_witness :
  ∃ job' s',
    QueueManager.startJob 2 "a" (store w_a_created) = (Return job', s') ∧
    QueueManager.startJob 3 "a" s' = (Throw (AlreadyRunning "a"), s').
Proof.
  apply (startJob_twice_refused 2 3 "a" (store w_a_created)
           (mkJob "a" "SEND_EMAIL" email PENDING 0 3 1 None None None None)).
  - vm_compute. reflexivity.
  - discriminate.
Defined.

(** ** The poll timer *)

Lemma dispatchJob_flags (env : Env) (now : Z) (job : Job) (w : World) :
  isRunning (scheduler (Scheduler.dispatchJob env now job w)) =
    isRunning (scheduler w) ∧
  isPaused (scheduler (Scheduler.dispatchJob env now job w)) =
    isPaused (scheduler w).
Proof.
  unfold Scheduler.dispatchJob.
  by destruct (QueueManager.startJob now (id job) (store w)) as [[j | e] s].
Qed.

Lemma dispatch_all_flags (env : Env) (clock : nat → Z) (ready : list Job)
    (w : World) :
  isRunning (scheduler (Scheduler.dispatch_all env clock ready w)) =
    isRunning (scheduler w) ∧
  isPaused (scheduler (Scheduler.dispatch_all env clock ready w)) =
    isPaused (scheduler w).
Proof.
  revert clock w. induction ready as [| job ready IH]; intros clock w; [done |].
  cbn [Scheduler.dispatch_all].
  destruct (IH (λ k, clock (S k))
              (if decide (id job ∈ activeExecutions (scheduler w)) then w
               else Scheduler.dispatchJob env (clock O) job w)) as [-> ->].
  case_decide; [done | apply dispatchJob_flags].
Qed.

Lemma poll_flags (env : Env) (now : Z) (clock : nat → Z) (w : World) :
  isRunning (scheduler (Scheduler.poll env now clock w)) =
    isRunning (scheduler w) ∧
  isPaused (scheduler (Scheduler.poll env now clock w)) =
    isPaused (scheduler w).
Proof.
  unfold Scheduler.poll.
  destruct (isPaused (scheduler w) || negb (isRunning (scheduler w)));
    [done | apply dispatch_all_flags].
Qed.

Lemma with_scheduler_id (f : Scheduler → Scheduler) (w : World) :
  f (scheduler w) = scheduler w → with_scheduler f w = w.
Proof. intros Hf. destruct w. unfold with_scheduler. simpl in *. by rewrite Hf. Qed.

Lemma world_scheduleNextPoll (x : Timed) :
  world (Polling.scheduleNextPoll x) = world x.
Proof.
  unfold Polling.scheduleNextPoll.
  by destruct (negb (isRunning (scheduler (world x)))).
Qed.

Lemma world_clearPollTimer (x : Timed) :
  world (Polling.clearPollTimer x) = world x.
Proof. unfold Polling.clearPollTimer. by destruct (schedulerTimer x). Qed.

Lemma world_fire (env : Env) (now : Z) (clock : nat → Z) (h : nat) (x : Timed) :
  world (Polling.fire env now clock h x) = Scheduler.poll env now clock (world x).
Proof.
  unfold Polling.fire, Polling.poll. cbn [world].
  destruct (isPaused (scheduler (world x)) || negb (isRunning (scheduler (world x))))
    eqn:Hflag.
  - cbn [world]. unfold Scheduler.poll. by rewrite Hflag.
  - by rewrite world_scheduleNextPoll.
Qed.

Lemma world_start (x : Timed) :
  world (Polling.start x) = with_scheduler Scheduler.start (world x).
Proof.
  unfold Polling.start.
  destruct (isRunning (scheduler (world x))) eqn:Hrun.
  - symmetry. apply with_scheduler_id. unfold Scheduler.start. by rewrite Hrun.
  - by rewrite world_scheduleNextPoll.
Qed.

Lemma world_pause (x : Timed) :
  world (Polling.pause x) = with_scheduler Scheduler.pause (world x).
Proof.
  unfold Polling.pause.
  destruct (negb (isRunning (scheduler (world x)))) eqn:Hrun.
  - symmetry. apply with_scheduler_id. unfold Scheduler.pause. by rewrite Hrun.
  - by rewrite world_clearPollTimer.
Qed.

Lemma world_resume (x : Timed) :
  world (Polling.resume x) = with_scheduler Scheduler.resume (world x).
Proof.
  unfold Polling.resume.
  destruct (negb (isRunning (scheduler (world x))) ||
            negb (isPaused (scheduler (world x)))) eqn:Hflag.
  - symmetry. apply with_scheduler_id. unfold Scheduler.resume. by rewrite Hflag.
  - by rewrite world_scheduleNextPoll.
Qed.

Lemma world_stop (x : Timed) :
  world (Polling.stop x) = with_scheduler Scheduler.stop (world x).
Proof. unfold Polling.stop. by rewrite world_clearPollTimer. Qed.

(** Every turn of the process with its timer is a turn of the system. *)
Lemma timed_step_step (env : Env) (x x' : Timed) :
  timed_step env x x' → step env (world x) (world x').
Proof.
  intros Hstep. destruct Hstep.
  - by apply step_submit.
  - rewrite world_fire. by apply step_poll.
  - by apply step_settled.
  - rewrite world_start. apply step_start.
  - rewrite world_pause. apply step_pause.
  - rewrite world_resume. apply step_resume.
  - rewrite world_stop. apply step_stop.
Qed.

Lemma timed_reachable_reachable (env : Env) (x : Timed) :
  timed_reachable env x → reachable env (world x).
Proof.
  induction 1 as [| x x' _ IH Hstep]; [apply reach_boot |].
  eapply reach_step; [done | by apply timed_step_step].
Qed.

Lemma settled_flags (env : Env) (now : Z) (jobId : string) (outcome : Outcome)
    (w : World) :
  isRunning (scheduler (Scheduler.dispatchJob_settled env now jobId outcome w)) =
    isRunning (scheduler w) ∧
  isPaused (scheduler (Scheduler.dispatchJob_settled env now jobId outcome w)) =
    isPaused (scheduler w).
Proof.
  unfold Scheduler.dispatchJob_settled. destruct outcome; [| done].
  by destruct (QueueManager.completeJob now jobId (store w)) as [[j | e] s].
Qed.

Lemma timed_step_timer_ok (env : Env) (x x' : Timed) :
  timed_step env x x' → timer_ok x → timer_ok x'.
Proof.
  intros Hstep Hok. unfold timer_ok in *.
  destruct Hstep as [uuid now ty pl opts _ _ _ | h now clock Hin _ _
                    | now jobId outcome _ _ | | | |].
  - done.
  - destruct (isRunning (scheduler (world x))) eqn:Hrun;
      destruct (isPaused (scheduler (world x))) eqn:Hpause; simpl in Hok;
      try (destruct Hok as [_ Hempty]; rewrite Hempty in Hin;
           by apply elem_of_empty in Hin).
    destruct Hok as (h0 & Htimer & Harmed).
    rewrite Harmed in Hin. apply elem_of_singleton in Hin as ->.
    unfold Polling.fire, Polling.poll. cbn [world].
    rewrite Hrun, Hpause. cbn [negb orb].
    unfold Polling.scheduleNextPoll, with_world. cbn [world timers].
    destruct (poll_flags env now clock (world x)) as [Hr Hp].
    rewrite Hr, Hrun. cbn [negb setTimeout world schedulerTimer timers armed].
    rewrite Hr, Hp, Hrun, Hpause. cbn [negb andb].
    eexists. split; [done |].
    unfold clearTimeout. cbn [armed]. rewrite Harmed.
    apply set_eq. intros k.
    rewrite elem_of_union, elem_of_difference, !elem_of_singleton. tauto.
  - cbn [with_world world schedulerTimer timers].
    destruct (settled_flags env now jobId outcome (world x)) as [-> ->]. done.
  - unfold Polling.start.
    destruct (isRunning (scheduler (world x))) eqn:Hrun.
    + by rewrite Hrun.
    + simpl in Hok. destruct Hok as [Htimer Harmed].
      unfold Polling.scheduleNextPoll, with_world, with_scheduler, Scheduler.start.
      cbn [world scheduler timers]. rewrite Hrun.
      cbn [isRunning isPaused negb andb setTimeout world scheduler
           schedulerTimer timers armed].
      eexists. split; [done |]. rewrite Harmed.
      apply set_eq. intros k. rewrite elem_of_union, elem_of_empty. tauto.
  - unfold Polling.pause.
    destruct (isRunning (scheduler (world x))) eqn:Hrun; cbn [negb].
    + unfold Polling.clearPollTimer, with_world, with_scheduler, Scheduler.pause.
      cbn [world scheduler schedulerTimer timers]. rewrite Hrun. cbn [negb].
      destruct (isPaused (scheduler (world x))) eqn:Hpause; simpl in Hok.
      * destruct Hok as [-> Harmed]. by cbn.
      * destruct Hok as (h0 & -> & Harmed). cbn. split; [done |].
        rewrite Harmed. apply set_eq. intros k.
        rewrite elem_of_difference, elem_of_singleton, elem_of_empty. tauto.
    + by rewrite Hrun.
  - unfold Polling.resume.
    destruct (isRunning (scheduler (world x))) eqn:Hrun;
      destruct (isPaused (scheduler (world x))) eqn:Hpause; cbn [negb orb];
      try (by rewrite Hrun, Hpause).
    simpl in Hok. destruct Hok as [Htimer Harmed].
    unfold Polling.scheduleNextPoll, with_world, with_scheduler, Scheduler.resume.
    cbn [world scheduler timers]. rewrite Hrun, Hpause.
    cbn [isRunning isPaused negb orb andb setTimeout world scheduler
         schedulerTimer timers armed].
    eexists. split; [done |]. rewrite Harmed.
    apply set_eq. intros k. rewrite elem_of_union, elem_of_empty. tauto.
  - unfold Polling.stop, Polling.clearPollTimer, with_world, with_scheduler,
      Scheduler.stop. cbn [world scheduler schedulerTimer timers].
    destruct (isRunning (scheduler (world x)) &&
              negb (isPaused (scheduler (world x)))).
    + destruct Hok as (h0 & -> & Harmed). cbn. split; [done |].
      rewrite Harmed. apply set_eq. intros k.
      rewrite elem_of_difference, elem_of_singleton, elem_of_empty. tauto.
    + destruct Hok as [-> Harmed]. by cbn.
Qed.

Lemma timed_reachable_timer_ok (env : Env) (x : Timed) :
  timed_reachable env x → timer_ok x.
Proof.
  induction 1 as [| x x' _ IH Hstep]; [done |].
  by eapply timed_step_timer_ok.
Qed.

(** X16: the scheduler keeps one poll timer. While it runs unpaused exactly
    one timeout is armed, the one held in [schedulerTimer], so the polling
    goes on and never doubles; while it is paused or stopped no timeout is
    armed and [schedulerTimer] is null, so no poll runs. *)
Theorem one_poll_timer (env : Env) (x : Timed) :
  timed_reachable env x →
  if isRunning (scheduler (world x)) && negb (isPaused (scheduler (world x)))
  then ∃ h, schedulerTimer x = Some h ∧ armed (timers x) = {[h]}
  else schedulerTimer x = None ∧ armed (timers x) = ∅.
Proof. apply timed_reachable_timer_ok. Qed.

Lemma one_poll_timer_witness :
  ∃ h,
    schedulerTimer (Polling.start (timed_boot default_env)) = Some h ∧
    armed (timers (Polling.start (timed_boot default_env))) = {[h]}.
Proof.
  apply (one_poll_timer default_env (Polling.start (timed_boot default_env))).
  eapply timed_reach_step; [apply timed_reach_boot | apply timed_start].
Defined.

Lemma idle_step_quiet (env : Env) (x x' : Timed) :
  timed_reachable env x → idle x → timed_step env x x' →
  (∀ i, starts i (calls (world x')) = starts i (calls (world x))) ∧
  (∀ i j, jobs (store (world x)) !! i = Some j → status j ≠ RUNNING →
          jobs (store (world x')) !! i = Some j).
Proof.
  intros Hreach Hidle Hstep.
  pose proof (timed_reachable_timer_ok env x Hreach) as Htimer.
  pose proof (reachable_life_ok env _ (timed_reachable_reachable env x Hreach))
    as (_ & Hsus & _).
  destruct Hstep as [uuid now ty pl opts _ Hfresh _ | h now clock Hin _ _
                    | now jobId outcome _ Hin | | | |].
  - cbn [with_world world]. split; [done |]. intros i j Hj _.
    unfold submit, QueueManager.createJob, JobStore.createJob.
    case_decide; [done |]. cbn [store snd jobs].
    rewrite lookup_insert_ne; [done |]. intros ->. congruence.
  - exfalso. unfold timer_ok in Htimer.
    destruct Hidle as [Hp | Hr]; rewrite ?Hp, ?Hr, ?andb_false_r in Htimer;
      cbn [negb andb] in Htimer; destruct Htimer as [_ Hempty];
      rewrite Hempty in Hin; by apply elem_of_empty in Hin.
  - cbn [with_world world].
    pose proof Hin as (job & Hjob & Hrun)%Hsus.
    destruct (dispatchJob_settled_found env now jobId outcome (world x) job Hjob)
      as (s' & -> & Hr).
    cbn [calls store]. split.
    + intros i. by rewrite starts_app, starts_settle_call, Nat.add_0_r.
    + intros i j Hj Hst. rewrite (rewrites_lookup_ne _ _ _ _ _ Hr); [done |].
      intros ->. congruence.
  - by rewrite world_start.
  - by rewrite world_pause.
  - by rewrite world_resume.
  - by rewrite world_stop.
Qed.

(** X17: a paused or stopped scheduler starts nothing. As long as the
    scheduler stays paused or stopped, through any submissions, settled
    dispatches and further [pause] and [stop] calls, no [startJob] call is
    made and every job that is not RUNNING stays exactly as it is; the jobs
    in flight still settle. *)
Theorem idle_scheduler_starts_nothing (env : Env) (x x' : Timed) :
  timed_reachable env x →
  idle x →
  rtc (idle_step env) x x' →
  (∀ jobId, starts jobId (calls (world x')) = starts jobId (calls (world x))) ∧
  (∀ jobId job,
     jobs (store (world x)) !! jobId = Some job → status job ≠ RUNNING →
     jobs (store (world x')) !! jobId = Some job).
Proof.
  intros Hreach Hidle Hsteps.
  induction Hsteps as [| x x1 x2 [Hstep Hidle1] _ IH]; [done |].
  destruct (idle_step_quiet env x x1 Hreach Hidle Hstep) as [Hs1 Hj1].
  destruct IH as [Hs2 Hj2]; [by eapply timed_reach_step | done |].
  split.
  - intros i. by rewrite Hs2, Hs1.
  - intros i j Hj Hst. apply Hj2; [| done]. by apply Hj1.
Qed.

Lemma timed_reachable_t_paused : timed_reachable default_env t_paused.
Proof.
  eapply timed_reach_step; [| apply timed_pause].
  eapply timed_reach_step;
    [| apply timed_submit; [lia | vm_compute; reflexivity | exact I]].
  eapply timed_reach_step;
    [| apply (timed_fire _ _ 0%nat 2 (λ _, 2));
       [vm_compute; reflexivity | lia | intros; lia]].
  eapply timed_reach_step;
    [| apply timed_submit; [lia | reflexivity | exact I]].
  eapply timed_reach_step; [apply timed_reach_boot | apply timed_start].
Qed.

Lemma idle_scheduler_starts_nothing_witness :
  (∀ jobId,
     starts jobId (calls (world t_stopped)) = starts jobId (calls (world t_paused))) ∧
  (∀ jobId job,
     jobs (store (world t_paused)) !! jobId = Some job → status job ≠ RUNNING →
     jobs (store (world t_stopped)) !! jobId = Some job).
Proof.
  apply (idle_scheduler_starts_nothing default_env t_paused t_stopped
           timed_reachable_t_paused).
  - left. reflexivity.
  - eapply rtc_l; [| apply rtc_once].
    + split.
      * apply (timed_settled _ _ 4 "a" Resolved); [lia |].
        vm_compute. apply list_elem_of_here.
      * left. reflexivity.
    + split; [apply timed_stop | right; reflexivity].
Defined.

(** ** Graceful shutdown *)

Section Shutdown.

Import GracefulShutdown.

Context (call : nat → HandlerCall).

Lemma executed_app (l1 l2 : list LogEvent) :
  executed (l1 ++ l2) = executed l1 ++ executed l2.
Proof. apply omap_app. Qed.

(** The state the outer [catch] leaves. *)
Lemma outer_catch_progress (thrown : option string) (st : State) :
  executed (log st) `prefix_of` shutdownHandlers st →
  isShuttingDown st = true →
  forceExitTimer st = true →
  exited st = None →
  Timeout ∉ log st →
  (∀ m, ShutdownError m ∉ log st) →
  progress_ok (outer_catch thrown st).
Proof.
  intros Hpre Hsd Htimer Hexit Hno Hnone.
  destruct thrown as [m |]; unfold progress_ok, outer_catch; cbn;
    rewrite ?executed_app, ?app_nil_r; split_and!; try done;
    try congruence.
  - intros c [= <-]. right. split; [done |]. right. exists m.
    rewrite elem_of_app, list_elem_of_singleton. by right.
  - intros m' ?. by destruct (Hnone m').
Qed.

Lemma run_progress (k : nat) (rest pre : list string) (st : State) :
  shutdownHandlers st = pre ++ rest →
  length pre = k →
  executed (log st) = pre →
  isShuttingDown st = true →
  forceExitTimer st = true →
  exited st = None →
  Timeout ∉ log st →
  (∀ m, ShutdownError m ∉ log st) →
  progress_ok (run call k rest st) ∧
  shutdownHandlers (run call k rest st) = shutdownHandlers st ∧
  isShuttingDown (run call k rest st) = true ∧
  (∀ k', awaiting (run call k rest st) = Some k' → (k ≤ k')%nat).
Proof.
  revert k pre st.
  induction rest as [| name rest IH];
    intros k pre st Hhs Hlen Hex Hsd Htimer Hexit Hno Hnone.
  - rewrite app_nil_r in Hhs. cbn [run].
    split_and!; [| done | done | done].
    unfold progress_ok. cbn. rewrite executed_app, app_nil_r, Hex, Hhs.
    split_and!; try done.
    + congruence.
    + intros c [= <-]. by left.
    + rewrite elem_of_app, list_elem_of_singleton. intros [? | ?]; done.
    + intros m. rewrite elem_of_app, list_elem_of_singleton.
      intros [? | ?]; [by destruct (Hnone m) | done].
  - cbn [run]. destruct (call k) as [[error | thrown] |].
    + destruct (IH (S k) (pre ++ [name])
                  (logged (HandlerError name error)
                     (logged (ExecutingHandler name) st)))
        as (Hok & Hhs' & Hsd' & Hle).
      * cbn. by rewrite Hhs, <- app_assoc.
      * rewrite length_app. simpl. lia.
      * cbn. rewrite !executed_app, Hex. cbn. by rewrite app_nil_r.
      * done.
      * done.
      * done.
      * cbn. rewrite !elem_of_app, !list_elem_of_singleton.
        intros [[? | ?] | ?]; done.
      * intros m. cbn. rewrite !elem_of_app, !list_elem_of_singleton.
        intros [[? | ?] | ?]; [by destruct (Hnone m) | done | done].
      * split_and!; [done | done | done |].
        intros k' Hk'. specialize (Hle k' Hk'). lia.
    + split_and!.
      * apply outer_catch_progress; cbn; try done.
        -- rewrite executed_app, Hex, Hhs. cbn.
           by apply prefix_app, prefix_cons, prefix_nil.
        -- rewrite elem_of_app, list_elem_of_singleton. intros [? | ?]; done.
        -- intros m. rewrite elem_of_app, list_elem_of_singleton.
           intros [? | ?]; [by destruct (Hnone m) | done].
      * by destruct thrown.
      * by destruct thrown.
      * by destruct thrown.
    + split_and!; [| done | done | by intros k' [= <-]].
      unfold progress_ok. cbn. rewrite executed_app, Hex, Hhs. cbn.
      split_and!.
      * by apply prefix_app, prefix_cons, prefix_nil.
      * congruence.
      * intros k' [= <-]. split.
        -- rewrite <- Hlen, take_app, take_ge by lia.
           by replace (S (length pre) - length pre)%nat with 1%nat by lia.
        -- rewrite length_app. simpl. lia.
      * done.
      * congruence.
      * congruence.
      * rewrite elem_of_app, list_elem_of_singleton. intros [? | ?]; done.
      * intros m. rewrite elem_of_app, list_elem_of_singleton.
        intros [? | ?]; [by destruct (Hnone m) | done].
Qed.

(** With errors whose message can be read the loop goes on to the next
    handler to await, or to the end. *)
Lemma run_readable (k : nat) (rest : list string) (st : State) :
  (∀ k', call_readable (call k') = true) →
  exited st = None →
  exited (run call k rest st) ≠ Some 1 ∧
  (is_Some (awaiting (run call k rest st)) ∨
   exited (run call k rest st) = Some 0).
Proof.
  intros Hcall. revert k st.
  induction rest as [| name rest IH]; intros k st Hexit; cbn [run].
  - split; [done | by right].
  - pose proof (Hcall k) as Hk. destruct (call k) as [[error | thrown] |].
    + by apply IH.
    + done.
    + cbn. rewrite Hexit. split; [done |]. left. by eexists.
Qed.

Lemma handler_settled_progress (r : Settled) (st : State) (k : nat) :
  progress_ok st → awaiting st = Some k → exited st = None →
  progress_ok (handler_settled call r st) ∧
  shutdownHandlers (handler_settled call r st) = shutdownHandlers st ∧
  isShuttingDown (handler_settled call r st) = true ∧
  (∀ k', awaiting (handler_settled call r st) = Some k' → (S k ≤ k')%nat).
Proof.
  intros (Hpre & Hidle & Hawait & Hbusy & Hzero & Hcode & Htime & Herr) Hk Hexit.
  unfold handler_settled. rewrite Hk.
  destruct (Hawait k Hk) as [Hex Hlt].
  destruct (lookup_lt_is_Some_2 _ _ Hlt) as [name Hname]. rewrite Hname.
  assert (isShuttingDown st = true) as Hsd.
  { destruct (isShuttingDown st) eqn:Hsd; [done |].
    destruct (Hidle eq_refl) as (? & _). congruence. }
  pose proof (Hbusy Hsd Hexit) as Htimer.
  assert (Timeout ∉ log st) as Hno
    by (intros Hin; apply Htime in Hin; congruence).
  assert (∀ m, ShutdownError m ∉ log st) as Hnone
    by (intros m Hin; apply Herr in Hin as [? _]; congruence).
  assert (∀ e, (∀ m, e ≠ ShutdownError m) → e ≠ Timeout →
            executed [e] = [] →
            let st' := run call (S k) (drop (S k) (shutdownHandlers st))
                         (logged e st) in
            progress_ok st' ∧ shutdownHandlers st' = shutdownHandlers st ∧
            isShuttingDown st' = true ∧
            (∀ k', awaiting st' = Some k' → (S k ≤ k')%nat)) as Hrun.
  { intros e He1 He2 He3.
    apply (run_progress (S k) (drop (S k) (shutdownHandlers st))
             (take (S k) (shutdownHandlers st)) (logged e st)); cbn; try done.
    - by rewrite take_drop.
    - rewrite length_take. lia.
    - by rewrite executed_app, Hex, He3, app_nil_r.
    - rewrite elem_of_app, list_elem_of_singleton. intros [? | ?]; done.
    - intros m. rewrite elem_of_app, list_elem_of_singleton.
      intros [? | ?]; [by destruct (Hnone m) | by destruct (He1 m)]. }
  destruct r as [| [error | thrown]].
  - by apply Hrun.
  - by apply Hrun.
  - split_and!.
    + by apply outer_catch_progress.
    + by destruct thrown.
    + by destruct thrown.
    + by destruct thrown.
Qed.

Lemma handler_settled_readable (r : Settled) (st : State) (k : nat) :
  (∀ k', call_readable (call k') = true) →
  settled_readable r = true →
  progress_ok st → awaiting st = Some k → exited st = None →
  exited (handler_settled call r st) ≠ Some 1 ∧
  (is_Some (awaiting (handler_settled call r st)) ∨
   exited (handler_settled call r st) = Some 0).
Proof.
  intros Hcall Hr (_ & _ & Hawait & _) Hk Hexit.
  unfold handler_settled. rewrite Hk.
  destruct (Hawait k Hk) as [_ Hlt].
  destruct (lookup_lt_is_Some_2 _ _ Hlt) as [name Hname]. rewrite Hname.
  destruct r as [| [error | thrown]]; [| | done]; by apply run_readable.
Qed.

Lemma step_progress_ok (st st' : State) :
  step call st st' → progress_ok st → progress_ok st'.
Proof.
  intros Hstep Hok.
  destruct Hstep as [name Hexit | signal Hexit | r Hexit [k Hk] | Hexit Htimer].
  - destruct Hok as (Hpre & Hidle & Hawait & Hbusy & Hzero & Hcode & Htime & Herr).
    unfold progress_ok, registerHandler. cbn. split_and!; try done.
    + by apply prefix_app_r.
    + intros k Hk. destruct (Hawait k Hk) as [Hex Hlt]. split.
      * by rewrite take_app_le by lia.
      * rewrite length_app. lia.
    + congruence.
  - destruct Hok as (Hpre & Hidle & Hawait & Hbusy & Hzero & Hcode & Htime & Herr).
    unfold shutdown. destruct (isShuttingDown st) eqn:Hsd.
    + unfold progress_ok, logged. cbn. rewrite executed_app, app_nil_r, Hsd.
      split_and!; try done.
      * congruence.
      * rewrite elem_of_app, list_elem_of_singleton.
        intros [? | ?]; [by apply Htime | done].
      * intros m. rewrite elem_of_app, list_elem_of_singleton.
        intros [? | ?]; [by apply (Herr m) | done].
    + destruct (Hidle eq_refl) as (Hnone & _ & _ & Hex).
      eapply (run_progress 0 (shutdownHandlers st) []); cbn; try done.
      * by rewrite executed_app, Hex.
      * rewrite elem_of_app, list_elem_of_singleton.
        intros [Hin | ?]; [| done]. apply Htime in Hin. congruence.
      * intros m. rewrite elem_of_app, list_elem_of_singleton.
        intros [Hin | ?]; [| done]. apply Herr in Hin as [? _]. congruence.
  - by apply (handler_settled_progress r st k).
  - destruct Hok as (Hpre & Hidle & Hawait & Hbusy & Hzero & Hcode & Htime & Herr).
    unfold timeout. rewrite Htimer. unfold progress_ok. cbn.
    rewrite executed_app, app_nil_r. split_and!; try done.
    + intros Hsd. destruct (Hidle Hsd) as (_ & ? & _). congruence.
    + intros c [= <-]. right. split; [done |]. left.
      rewrite elem_of_app, list_elem_of_singleton. by right.
Qed.

Lemma reachable_progress_ok (st : State) :
  reachable call st → progress_ok st.
Proof.
  induction 1 as [| st st' _ IH Hstep].
  - unfold progress_ok, new. cbn. split_and!; try done.
    + intros Hin. by apply elem_of_nil in Hin.
    + intros m Hin. by apply elem_of_nil in Hin.
  - by eapply step_progress_ok.
Qed.


Lemma settle_all_exits (rs : list Settled) (st : State) :
  (∀ k, call_readable (call k) = true) →
  Forall (λ r, settled_readable r = true) rs →
  progress_ok st →
  isShuttingDown st = true →
  exited st ≠ Some 1 →
  is_Some (awaiting st) ∨ exited st = Some 0 →
  (remaining st ≤ length rs)%nat →
  exited (settle_all call rs st) = Some 0 ∧
  executed (log (settle_all call rs st)) = shutdownHandlers st.
Proof.
  intros Hcall Hrs. revert st.
  induction Hrs as [| r rs Hr Hrs IH]; intros st Hok Hsd Hne Hlive Hrem.
  - destruct Hok as (_ & _ & Hawait & _ & Hzero & _).
    cbn. unfold remaining in Hrem.
    destruct (awaiting st) as [k |] eqn:Hk.
    { destruct (Hawait k eq_refl) as [_ Hlt]. simpl in Hrem. lia. }
    destruct Hlive as [[k Hk'] | Hexit]; [done |].
    split; [done | by apply Hzero].
  - cbn [settle_all foldl]. fold (settle_all call rs (handler_settled call r st)).
    destruct (awaiting st) as [k |] eqn:Hk.
    + assert (exited st = None) as Hexit.
      { destruct Hok as (_ & _ & _ & _ & Hzero & Hcode & _).
        destruct (exited st) as [c |] eqn:Hc; [| done].
        destruct (Hcode c eq_refl) as [-> | [-> _]]; [| done].
        destruct (Hzero eq_refl) as [? _]. congruence. }
      destruct (handler_settled_progress r st k Hok Hk Hexit)
        as (Hok' & Hhs' & Hsd' & Hle).
      destruct (handler_settled_readable r st k Hcall Hr Hok Hk Hexit)
        as [Hne' Hlive'].
      destruct (IH (handler_settled call r st)) as [He Hx]; try done.
      * unfold remaining in *. rewrite Hhs'. simpl in Hrem.
        destruct (awaiting (handler_settled call r st)) as [k' |] eqn:Hk';
          [| lia].
        specialize (Hle k' eq_refl).
        destruct Hok as (_ & _ & Hawait & _).
        destruct (Hawait k Hk) as [_ Hlt]. rewrite Hk in Hrem. lia.
      * split; [done |]. by rewrite Hx.
    + assert (handler_settled call r st = st) as ->
        by (unfold handler_settled; by rewrite Hk).
      apply IH; try done.
      * right. by destruct Hlive as [[? ?] | ?].
      * unfold remaining. rewrite Hk. lia.
Qed.

(** X19: without the timeout, and as long as every handler that fails does
    so with an error whose message can be read, the shutdown ends well.
    From a state in which no shutdown is in progress, a signal followed by
    at most as many settlements as there are handlers, fulfilled or
    rejected, ends with exit code 0 and with every registered handler
    called once, in registration order. *)
Theorem shutdown_exits_cleanly (st : State) (signal : string)
    (rs : list Settled) :
  reachable call st →
  isShuttingDown st = false →
  (∀ k, call_readable (call k) = true) →
  Forall (λ r, settled_readable r = true) rs →
  (length (shutdownHandlers st) ≤ length rs)%nat →
  exited (settle_all call rs (shutdown call signal st)) = Some 0 ∧
  executed (log (settle_all call rs (shutdown call signal st))) =
    shutdownHandlers st.
Proof.
  intros Hreach Hsd Hcall Hrs Hlen.
  pose proof (reachable_progress_ok st Hreach) as Hok.
  pose proof Hok as (_ & Hidle & _).
  destruct (Hidle Hsd) as (Hnone & _ & Hexit & Hex).
  assert (step call st (shutdown call signal st)) as Hstep
    by (by apply step_signal).
  pose proof (step_progress_ok _ _ Hstep Hok) as Hok'.
  unfold shutdown in *. rewrite Hsd in *.
  set (st0 := mkState true (shutdownHandlers st) (awaiting st) true
                (log st ++ [Started signal (length (shutdownHandlers st))])
                (exited st)) in *.
  destruct (run_progress 0 (shutdownHandlers st) [] st0)
    as (_ & Hhs & Hsd' & _); subst st0; cbn; try done.
  { by rewrite executed_app, Hex. }
  { rewrite elem_of_app, list_elem_of_singleton.
    destruct Hok as (_ & _ & _ & _ & _ & _ & Htime & _).
    intros [Hin | ?]; [| done]. apply Htime in Hin. congruence. }
  { intros m. rewrite elem_of_app, list_elem_of_singleton.
    destruct Hok as (_ & _ & _ & _ & _ & _ & _ & Herr).
    intros [Hin | ?]; [| done]. apply Herr in Hin as [? _]. congruence. }
  set (st0 := mkState true (shutdownHandlers st) (awaiting st) true
                (log st ++ [Started signal (length (shutdownHandlers st))])
                (exited st)) in *.
  destruct (run_readable 0 (shutdownHandlers st) st0 Hcall Hexit)
    as [Hne Hlive].
  destruct (settle_all_exits rs _ Hcall Hrs Hok' Hsd' Hne Hlive) as [He Hx].
  - unfold remaining. rewrite Hhs. subst st0. cbn [shutdownHandlers].
    match goal with |- context [awaiting ?x] => destruct (awaiting x) end; lia.
  - split; [done |]. rewrite Hx, Hhs. by subst st0.
Qed.

End Shutdown.

Lemma reachable_sd_registered : GracefulShutdown.reachable sd_call sd_registered.
Proof.
  repeat (eapply GracefulShutdown.reach_step;
          [| by apply GracefulShutdown.step_register]).
  apply GracefulShutdown.reach_new.
Qed.

Lemma reachable_sd_signalled : GracefulShutdown.reachable sd_call sd_signalled.
Proof.
  eapply GracefulShutdown.reach_step;
    [apply reachable_sd_registered | by apply GracefulShutdown.step_signal].
Qed.

Lemma reachable_sd_done : GracefulShutdown.reachable sd_call sd_done.
Proof.
  eapply GracefulShutdown.reach_step;
    [| apply GracefulShutdown.step_settled; [reflexivity | by eexists]].
  eapply GracefulShutdown.reach_step;
    [| apply GracefulShutdown.step_settled; [reflexivity | by eexists]].
  apply reachable_sd_signalled.
Qed.



Lemma shutdown_exits_cleanly_witness :
  let rs := [GracefulShutdown.Fulfilled;
             GracefulShutdown.RejectedWith (GracefulShutdown.WithMessage "late");
             GracefulShutdown.Fulfilled] in
  GracefulShutdown.exited
    (GracefulShutdown.settle_all sd_call rs
       (GracefulShutdown.shutdown sd_call "SIGTERM" sd_registered)) = Some 0 ∧
  GracefulShutdown.executed
    (GracefulShutdown.log
       (GracefulShutdown.settle_all sd_call rs
          (GracefulShutdown.shutdown sd_call "SIGTERM" sd_registered))) =
    GracefulShutdown.shutdownHandlers sd_registered.
Proof.
  apply (shutdown_exits_cleanly sd_call sd_registered "SIGTERM"
           [GracefulShutdown.Fulfilled;
            GracefulShutdown.RejectedWith (GracefulShutdown.WithMessage "late");
            GracefulShutdown.Fulfilled] reachable_sd_registered).
  - reflexivity.
  - intros [| [| k]]; reflexivity.
  - repeat constructor.
  - simpl. lia.
Defined.

(** ** The address format *)

Section EmailFormat.

Import Email.

Lemma lang_Never_iff (s : list Z) : lang Never s ↔ False.
Proof. split; [inversion 1 | done]. Qed.

Lemma lang_Empty_iff (s : list Z) : lang Empty s ↔ s = [].
Proof. split; [by inversion 1 | intros ->; constructor]. Qed.

Lemma lang_Class_iff (p : Z → bool) (s : list Z) :
  lang (Class p) s ↔ ∃ c, s = [c] ∧ p c = true.
Proof.
  split.
  - inversion 1; subst. eauto.
  - intros (c & -> & Hp). by constructor.
Qed.

Lemma lang_Seq_iff (r1 r2 : Regex) (s : list Z) :
  lang (Seq r1 r2) s ↔ ∃ s1 s2, s = s1 ++ s2 ∧ lang r1 s1 ∧ lang r2 s2.
Proof.
  split.
  - inversion 1; subst. eauto.
  - intros (s1 & s2 & -> & H1 & H2). by constructor.
Qed.

Lemma lang_Alt_iff (r1 r2 : Regex) (s : list Z) :
  lang (Alt r1 r2) s ↔ lang r1 s ∨ lang r2 s.
Proof.
  split.
  - inversion 1; subst; tauto.
  - intros [H | H]; [by apply lang_Alt_l | by apply lang_Alt_r].
Qed.

Lemma nullable_lang (r : Regex) : nullable r = true ↔ lang r [].
Proof.
  induction r as [| | p | r1 IH1 r2 IH2 | r1 IH1 r2 IH2 | r IH]; simpl.
  - by rewrite lang_Never_iff.
  - by rewrite lang_Empty_iff.
  - rewrite lang_Class_iff. split; [done | by intros (c & ? & _)].
  - rewrite andb_true_iff, IH1, IH2, lang_Seq_iff. split.
    + intros [H1 H2]. by exists [], [].
    + intros (s1 & s2 & Heq & H1 & H2).
      symmetry in Heq. apply app_eq_nil in Heq as [-> ->]. done.
  - by rewrite orb_true_iff, IH1, IH2, lang_Alt_iff.
  - split; [constructor | done].
Qed.

Lemma lang_Star_cons_inv (r : Regex) (c : Z) (s : list Z) :
  lang (Star r) (c :: s) →
  ∃ s1 s2, s = s1 ++ s2 ∧ lang r (c :: s1) ∧ lang (Star r) s2.
Proof.
  intros H. remember (Star r) as r' eqn:Hr. remember (c :: s) as s' eqn:Hs.
  revert Hr s Hs.
  induction H as [| | | | | | r0 s1 s2 H1 _ H2 IH2]; intros Hr t Ht; try done.
  injection Hr as ->. destruct s1 as [| c1 s1]; simpl in Ht.
  - by apply IH2.
  - injection Ht as -> <-. eauto.
Qed.

Lemma deriv_lang (c : Z) (r : Regex) (s : list Z) :
  lang (deriv c r) s ↔ lang r (c :: s).
Proof.
  revert s.
  induction r as [| | p | r1 IH1 r2 IH2 | r1 IH1 r2 IH2 | r IH]; intros s; simpl.
  - by rewrite !lang_Never_iff.
  - rewrite lang_Never_iff, lang_Empty_iff. done.
  - rewrite lang_Class_iff. destruct (p c) eqn:Hp.
    + rewrite lang_Empty_iff. split.
      * intros ->. eauto.
      * by intros (c' & [= -> ->] & _).
    + rewrite lang_Never_iff. split; [done |].
      intros (c' & [= -> ->] & ?). congruence.
  - assert (lang (Seq (deriv c r1) r2) s ↔
            ∃ s1 s2, s = s1 ++ s2 ∧ lang r1 (c :: s1) ∧ lang r2 s2) as Hleft.
    { rewrite lang_Seq_iff. by setoid_rewrite IH1. }
    assert (lang (Seq r1 r2) (c :: s) ↔
            (∃ s1 s2, s = s1 ++ s2 ∧ lang r1 (c :: s1) ∧ lang r2 s2) ∨
            (lang r1 [] ∧ lang r2 (c :: s))) as Hright.
    { rewrite lang_Seq_iff. split.
      - intros ([| c1 s1] & s2 & Heq & H1 & H2); simpl in Heq.
        + subst s2. by right.
        + injection Heq as <- ->. left. eauto.
      - intros [(s1 & s2 & -> & H1 & H2) | [H1 H2]].
        + by exists (c :: s1), s2.
        + by exists [], (c :: s). }
    rewrite Hright. destruct (nullable r1) eqn:Hn.
    + rewrite lang_Alt_iff, Hleft, IH2.
      apply nullable_lang in Hn. tauto.
    + rewrite Hleft. split; [tauto |].
      intros [? | [H1%nullable_lang _]]; [done | congruence].
  - by rewrite !lang_Alt_iff, IH1, IH2.
  - rewrite lang_Seq_iff. split.
    + intros (s1 & s2 & -> & H1%IH & H2).
      exact (lang_Star_cons r (c :: s1) s2 H1 H2).
    + intros (s1 & s2 & -> & H1 & H2)%lang_Star_cons_inv.
      exists s1, s2. split_and!; [done | by apply IH | done].
Qed.

Lemma test_lang (r : Regex) (s : list Z) : test r s = true ↔ lang r s.
Proof.
  unfold test. revert r. induction s as [| c s IH]; intros r; simpl.
  - apply nullable_lang.
  - by rewrite IH, deriv_lang.
Qed.

Lemma lang_Star_Class (p : Z → bool) (s : list Z) :
  lang (Star (Class p)) s ↔ Forall (λ c, p c = true) s.
Proof.
  split.
  - intros H. remember (Star (Class p)) as r eqn:Hr. revert Hr.
    induction H as [| | | | | | r0 s1 s2 H1 _ H2 IH2]; intros Hr; try done.
    injection Hr as ->. apply lang_Class_iff in H1 as (c & -> & Hp).
    constructor; [done | by apply IH2].
  - induction 1 as [| c s Hp _ IH]; [constructor |].
    apply (lang_Star_cons _ [c] s); [by constructor | done].
Qed.

Lemma lang_Plus_Class (p : Z → bool) (s : list Z) :
  lang (Plus (Class p)) s ↔ s ≠ [] ∧ Forall (λ c, p c = true) s.
Proof.
  unfold Plus. rewrite lang_Seq_iff. split.
  - intros (s1 & s2 & -> & (c & -> & Hp)%lang_Class_iff & H2%lang_Star_Class).
    split; [done | by constructor].
  - intros [Hne Hall]. destruct Hall as [| c s Hp Hall]; [done |].
    exists [c], s. split_and!; [done | by constructor | by apply lang_Star_Class].
Qed.

Lemma emailRegex_shape (s : list Z) :
  test emailRegex s = true ↔
  ∃ name host rest,
    s = name ++ [at_sign] ++ host ++ [dot] ++ rest ∧
    name ≠ [] ∧ host ≠ [] ∧ rest ≠ [] ∧
    Forall (λ c, is_space c = false ∧ c ≠ at_sign) (name ++ host ++ rest).
Proof.
  assert (∀ l, Forall (λ c, atom c = true) l ↔
               Forall (λ c, is_space c = false ∧ c ≠ at_sign) l) as Hatom.
  { intros l. apply Forall_iff. intros c. unfold atom.
    rewrite andb_true_iff, !negb_true_iff, bool_decide_eq_false. done. }
  rewrite test_lang. unfold emailRegex.
  rewrite lang_Seq_iff. split.
  - intros (name & s1 & -> & [Hn Hname]%lang_Plus_Class & H1).
    apply lang_Seq_iff in H1
      as (a & s2 & -> & (c & -> & Hc%bool_decide_eq_true)%lang_Class_iff & H2).
    apply lang_Seq_iff in H2 as (host & s3 & -> & [Hh Hhost]%lang_Plus_Class & H3).
    apply lang_Seq_iff in H3
      as (d & rest & -> & (c' & -> & Hc'%bool_decide_eq_true)%lang_Class_iff
          & [Hr Hrest]%lang_Plus_Class).
    subst c c'. exists name, host, rest. split_and!; try done.
    rewrite <- Hatom, !Forall_app. done.
  - intros (name & host & rest & -> & Hn & Hh & Hr & Hall).
    rewrite <- Hatom, !Forall_app in Hall. destruct Hall as (Hname & Hhost & Hrest).
    exists name, ([at_sign] ++ host ++ [dot] ++ rest).
    split_and!; [done | by apply lang_Plus_Class |].
    apply lang_Seq; [constructor; by apply bool_decide_eq_true |].
    apply lang_Seq; [by apply lang_Plus_Class |].
    apply lang_Seq; [constructor; by apply bool_decide_eq_true |].
    by apply lang_Plus_Class.
Qed.

(** X20: the address check accepts a string exactly when it is a name, an
    at sign, a host, a dot and a rest, where name, host and rest are not
    empty and hold neither white space nor an at sign. *)
Theorem email_format_accepts (s : list Z) :
  test emailRegex s = true ↔
  ∃ name host rest,
    s = name ++ [at_sign] ++ host ++ [dot] ++ rest ∧
    name ≠ [] ∧ host ≠ [] ∧ rest ≠ [] ∧
    Forall (λ c, is_space c = false ∧ c ≠ at_sign) (name ++ host ++ rest).
Proof. apply emailRegex_shape. Qed.

Lemma filter_at_sign_nil (l : list Z) :
  Forall (λ c, is_space c = false ∧ c ≠ at_sign) l →
  filter (λ c, c = at_sign) l = [].
Proof.
  induction 1 as [| c l [_ Hc] _ IH]; [done |].
  rewrite filter_cons. by rewrite decide_False.
Qed.

(** X21: an accepted address holds exactly one at sign and no white space,
    and is at least five code units long. *)
Theorem email_format_one_at_sign (s : list Z) :
  test emailRegex s = true →
  length (filter (λ c, c = at_sign) s) = 1%nat ∧
  Forall (λ c, is_space c = false) s ∧
  (5 ≤ length s)%nat.
Proof.
  intros (name & host & rest & -> & Hn & Hh & Hr & Hall)%emailRegex_shape.
  rewrite !Forall_app in Hall. destruct Hall as (Hname & Hhost & Hrest).
  split_and!.
  - rewrite !filter_app, (filter_at_sign_nil name), (filter_at_sign_nil host),
      (filter_at_sign_nil rest) by done.
    reflexivity.
  - rewrite !Forall_app. split_and!;
      try (eapply Forall_impl; [eassumption | by intros c [? _]]);
      by repeat constructor.
  - rewrite !length_app. simpl.
    destruct name, host, rest; simpl; try done; lia.
Qed.

End EmailFormat.

Lemma email_format_one_at_sign_witness :
  length (filter (λ c, c = Email.at_sign) (Email.code_units "ops@example.org")) =
    1%nat ∧
  Forall (λ c, Email.is_space c = false) (Email.code_units "ops@example.org") ∧
  (5 ≤ length (Email.code_units "ops@example.org"))%nat.
Proof.
  apply (email_format_one_at_sign (Email.code_units "ops@example.org")).
  vm_compute. reflexivity.
Defined.

(** * The API and the task runner *)

Lemma includes_maximum_capacity :
  Api.includes "maximum capacity" (message QueueFull) = true.
Proof. by vm_compute. Qed.

Lemma falsy_false (x : option string) :
  TaskRunner.falsy x = false ↔ ∃ s, x = Some s ∧ s ≠ "".
Proof.
  destruct x as [s |]; cbn.
  - rewrite bool_decide_eq_false. split; [by exists s | by intros (? & [= ->] & ?)].
  - split; [done | by intros (? & ? & ?)].
Qed.

Lemma createEmailJob_valid (env : Env) (uuid : string) (now : Z)
    (t su bo : string) (s : JobStore) :
  t ≠ "" → su ≠ "" → bo ≠ "" →
  Email.test Email.emailRegex (Email.code_units t) = true →
  Api.createEmailJob env uuid now (Api.mkBody (Some t) (Some su) (Some bo)) s =
    if decide (maxQueueSize s ≤ Z.of_nat (size (jobs s))) then
      (Api.ServiceUnavailable, s)
    else
      let job := mkJob uuid "SEND_EMAIL"
                   [("to", t); ("subject", su); ("body", bo)] PENDING 0
                   (MAX_JOB_ATTEMPTS env) now None None None None in
      (Api.Created uuid PENDING now,
       mkJobStore (<[uuid := job]> (jobs s))
                  (with_bucket PENDING (set_add uuid) (jobsByStatus s))
                  (maxQueueSize s)).
Proof.
  intros Ht Hsu Hbo Htest. unfold Api.createEmailJob.
  cbn [Api.to Api.subject Api.body TaskRunner.falsy from_option].
  unfold Datatypes.id.
  rewrite !bool_decide_eq_false_2 by done. rewrite Htest.
  cbn [orb negb].
  unfold QueueManager.createJob, JobStore.createJob, JobStore.maxAttempts_of.
  cbn [o_maxAttempts no_options].
  destruct (decide (maxQueueSize s ≤ Z.of_nat (size (jobs s)))); [| done].
  by rewrite includes_maximum_capacity.
Qed.

Lemma createEmailJob_invalid (env : Env) (uuid : string) (now : Z)
    (b : Api.Body) (s : JobStore) :
  ¬ (∃ t su bo, b = Api.mkBody (Some t) (Some su) (Some bo) ∧
       t ≠ "" ∧ su ≠ "" ∧ bo ≠ "" ∧
       Email.test Email.emailRegex (Email.code_units t) = true) →
  ∃ e, Api.createEmailJob env uuid now b s = (Api.BadRequest e, s).
Proof.
  intros Hno. unfold Api.createEmailJob.
  destruct (TaskRunner.falsy (Api.to b)) eqn:Hto; [by eexists |].
  destruct (TaskRunner.falsy (Api.subject b)) eqn:Hsu; [by eexists |].
  destruct (TaskRunner.falsy (Api.body b)) eqn:Hbo; [by eexists |].
  cbn [orb].
  apply falsy_false in Hto as (t & Ht & ?), Hsu as (su & Hs & ?),
    Hbo as (bo & Hb & ?).
  destruct (Email.test _ _) eqn:Htest; [| by eexists].
  destruct Hno. exists t, su, bo. destruct b as [? ? ?].
  cbn [Api.to Api.subject Api.body] in *. by subst.
Qed.

Lemma body_valid_dec (b : Api.Body) :
  let valid := ∃ t su bo, b = Api.mkBody (Some t) (Some su) (Some bo) ∧
                 t ≠ "" ∧ su ≠ "" ∧ bo ≠ "" ∧
                 Email.test Email.emailRegex (Email.code_units t) = true in
  valid ∨ ¬ valid.
Proof.
  destruct b as [[t |] [su |] [bo |]];
    try (right; by intros (? & ? & ? & [=] & _)).
  destruct (decide (t = "")) as [-> | Ht];
    [right; by intros (? & ? & ? & [= <- <- <-] & ? & _) |].
  destruct (decide (su = "")) as [-> | Hsu];
    [right; by intros (? & ? & ? & [= <- <- <-] & ? & ? & _) |].
  destruct (decide (bo = "")) as [-> | Hbo];
    [right; by intros (? & ? & ? & [= <- <- <-] & ? & ? & ? & _) |].
  destruct (Email.test Email.emailRegex (Email.code_units t)) eqn:Htest.
  - left. by exists t, su, bo.
  - right. intros (? & ? & ? & [= <- <- <-] & ? & ? & ? & Hyes). congruence.
Qed.

(** X22: what [POST /jobs/email] answers. A body is valid when [to],
    [subject] and [body] are non-empty strings and [to] has the address
    format. The answer is 201 with the new id, PENDING and the creation time
    exactly for a valid body while the store is below its capacity, 503
    exactly for a valid body while the store is full, 400 exactly for a body
    that is not valid, and never 500. A 201 leaves the job in the store,
    where [GET /jobs/:id] shows it as a PENDING SEND_EMAIL job with no
    attempts, the configured attempt limit and the three fields as payload;
    every other answer leaves the store as it was. *)
Theorem createEmailJob_answers (env : Env) (uuid : string) (now : Z)
    (b : Api.Body) (s : JobStore) :
  let valid := ∃ t su bo, b = Api.mkBody (Some t) (Some su) (Some bo) ∧
                 t ≠ "" ∧ su ≠ "" ∧ bo ≠ "" ∧
                 Email.test Email.emailRegex (Email.code_units t) = true in
  let r := Api.createEmailJob env uuid now b s in
  (r.1 = Api.Created uuid PENDING now ↔
     valid ∧ Z.of_nat (size (jobs s)) < maxQueueSize s) ∧
  (r.1 = Api.ServiceUnavailable ↔
     valid ∧ maxQueueSize s ≤ Z.of_nat (size (jobs s))) ∧
  ((∃ e, r.1 = Api.BadRequest e) ↔ ¬ valid) ∧
  (∀ jobId st c, r.1 = Api.Created jobId st c →
     jobId = uuid ∧ st = PENDING ∧ c = now ∧
     Api.getJobStatus jobId r.2 =
       Api.Ok (Api.mkJobView uuid "SEND_EMAIL" PENDING 0 (MAX_JOB_ATTEMPTS env)
                 now None None None
                 [("to", default "" (Api.to b));
                  ("subject", default "" (Api.subject b));
                  ("body", default "" (Api.body b))])) ∧
  (∀ m, r.1 ≠ Api.InternalServerError m) ∧
  ((∀ jobId st c, r.1 ≠ Api.Created jobId st c) → r.2 = s).
Proof.
  intros valid r. subst r.
  destruct (body_valid_dec b) as [Hv | Hv]; fold valid in Hv.
  - pose proof Hv as (t & su & bo & -> & Ht & Hsu & Hbo & Htest).
    rewrite createEmailJob_valid by done.
    destruct (decide (maxQueueSize s ≤ Z.of_nat (size (jobs s)))) as [Hfull | Hroom];
      cbn [fst snd].
    + split_and!; try done.
      * split; [done | intros [_ ?]; lia].
      * split; [by intros [? ?] | tauto].
    + split_and!; try done.
      * split; [intros _; split; [done | lia] | done].
      * split; [done | intros [_ ?]; lia].
      * split; [by intros [? ?] | tauto].
      * intros jobId st c [= <- <- <-]. split_and!; try done.
        unfold Api.getJobStatus, QueueManager.getJob, JobStore.getJob. cbn.
        by rewrite lookup_insert_eq.
      * intros Hno. by destruct (Hno uuid PENDING now).
  - destruct (createEmailJob_invalid env uuid now b s Hv) as [e He].
    rewrite He. cbn [fst snd]. split_and!; try done.
    + split; [done | tauto].
    + split; [done | tauto].
    + split; [done | by exists e].
Qed.


Lemma isValidEmail_test (t : string) :
  TaskRunner.isValidEmail t = Email.test Email.emailRegex (Email.code_units t).
Proof. done. Qed.

Lemma field_email (t su bo : string) :
  let payload := [("to", t); ("subject", su); ("body", bo)] in
  TaskRunner.field "to" payload = Some t ∧
  TaskRunner.field "subject" payload = Some su ∧
  TaskRunner.field "body" payload = Some bo.
Proof. by vm_compute. Qed.

(** X23: a job created through the API passes every check of the task
    runner. Whenever a worker with a transporter executes a job that has the
    id, the type and the payload of a job that [POST /jobs/email] created,
    it hands [sendMail] the address, the subject and the body of the
    request, and its reply to the pool carries the job id and depends on
    nothing but how [sendMail] settles: success with its [info], or failure
    with its message behind 'Email send failed: '. *)
Theorem api_jobs_pass_the_runner (env : Env) (uuid : string) (now : Z)
    (b : Api.Body) (s s' : JobStore) (jobId : string) (st : Status) (c : Z)
    (sendMail : TaskRunner.MailOptions → TaskRunner.Sent)
    (EMAIL_FROM : option string) :
  Api.createEmailJob env uuid now b s = (Api.Created jobId st c, s') →
  ∃ job t su bo,
    QueueManager.getJob s' jobId = Some job ∧
    b = Api.mkBody (Some t) (Some su) (Some bo) ∧
    ∀ job', id job' = id job → type job' = type job →
      payload job' = payload job →
      Worker.executeJob (Some sendMail) EMAIL_FROM job' =
        match sendMail (TaskRunner.mkMailOptions (TaskRunner.sender EMAIL_FROM)
                          t su bo) with
        | TaskRunner.Delivered info => Worker.Success jobId info
        | TaskRunner.SendError m =>
            Worker.Failure jobId ("Email send failed: " +:+ m)
        end.
Proof.
  intros Hcreate.
  destruct (body_valid_dec b) as [Hv | Hv].
  - destruct Hv as (t & su & bo & -> & Ht & Hsu & Hbo & Htest).
    rewrite createEmailJob_valid in Hcreate by done.
    destruct (decide (maxQueueSize s ≤ Z.of_nat (size (jobs s)))); [done |].
    cbn zeta in Hcreate. injection Hcreate as <- <- <- <-.
    eexists _, t, su, bo. split_and!; [| done |].
    { unfold QueueManager.getJob, JobStore.getJob. cbn [jobs].
      apply lookup_insert_eq. }
    intros job' Hid Hty Hpay. cbn in Hid, Hty, Hpay.
    unfold Worker.executeJob, TaskRunner.executeJob,
      TaskRunner.executeSendEmail.
    rewrite Hty, Hpay, Hid. rewrite decide_True by done.
    destruct (field_email t su bo) as (-> & -> & ->).
    cbn [TaskRunner.falsy from_option]. unfold Datatypes.id.
    rewrite !bool_decide_eq_false_2 by done.
    rewrite isValidEmail_test, Htest. cbn [orb negb].
    by destruct (sendMail _).
  - destruct (createEmailJob_invalid env uuid now b s Hv) as [e He].
    congruence.
Qed.

Lemma api_jobs_pass_the_runner_witness :
  ∃ job t su bo,
    QueueManager.getJob
      (Api.createEmailJob default_env "a" 0
         (Api.mkBody (Some "ops@example.org") (Some "report") (Some "done"))
         (JobStore.new default_env)).2 "a" = Some job ∧
    Api.mkBody (Some "ops@example.org") (Some "report") (Some "done") =
      Api.mkBody (Some t) (Some su) (Some bo) ∧
    ∀ job', id job' = id job → type job' = type job →
      payload job' = payload job →
      Worker.executeJob
        (Some (λ _, TaskRunner.Delivered (TaskRunner.mkInfo "m1" "250 OK")))
        None job' =
        match TaskRunner.Delivered (TaskRunner.mkInfo "m1" "250 OK") with
        | TaskRunner.Delivered info => Worker.Success "a" info
        | TaskRunner.SendError m =>
            Worker.Failure "a" ("Email send failed: " +:+ m)
        end.
Proof.
  apply (api_jobs_pass_the_runner default_env "a" 0
           (Api.mkBody (Some "ops@example.org") (Some "report") (Some "done"))
           (JobStore.new default_env) _ "a" PENDING 0
           (λ _, TaskRunner.Delivered (TaskRunner.mkInfo "m1" "250 OK")) None).
  vm_compute. reflexivity.
Defined.


Lemma sender_not_empty (EMAIL_FROM : option string) :
  TaskRunner.sender EMAIL_FROM ≠ "".
Proof.
  unfold TaskRunner.sender.
  destruct (TaskRunner.falsy EMAIL_FROM) eqn:Hf; [done |].
  apply falsy_false in Hf as (a & -> & Ha). done.
Qed.

(** X24: the task runner never sends a malformed mail. [sendMail] is called
    at most once per job, only for a SEND_EMAIL job, and only with a sender,
    a subject and a text that are not empty and a recipient that has the
    address format: two transporters that agree on such mails give the same
    result on every job. *)
Theorem runner_sends_only_valid_mail
    (f g : TaskRunner.MailOptions → TaskRunner.Sent)
    (EMAIL_FROM : option string) (job : Job) :
  (∀ m, type job = "SEND_EMAIL" →
        TaskRunner.from m ≠ "" →
        TaskRunner.isValidEmail (TaskRunner.to m) = true →
        TaskRunner.subject m ≠ "" → TaskRunner.text m ≠ "" →
        f m = g m) →
  TaskRunner.executeJob (Some f) EMAIL_FROM job =
  TaskRunner.executeJob (Some g) EMAIL_FROM job.
Proof.
  intros Hfg. unfold TaskRunner.executeJob, TaskRunner.executeSendEmail.
  destruct (decide (type job = "SEND_EMAIL")) as [Hty |]; [| done].
  destruct (TaskRunner.falsy (TaskRunner.field "to" (payload job))) eqn:Hto;
    [done |].
  destruct (TaskRunner.falsy (TaskRunner.field "subject" (payload job)))
    eqn:Hsu; [done |].
  destruct (TaskRunner.falsy (TaskRunner.field "body" (payload job)))
    eqn:Hbo; [done |].
  cbn [orb].
  apply falsy_false in Hto as (t & -> & Ht), Hsu as (su & -> & Hs),
    Hbo as (bo & -> & Hb).
  cbn [from_option]. unfold Datatypes.id.
  destruct (TaskRunner.isValidEmail t) eqn:Hvalid; [| done].
  cbn [negb]. rewrite Hfg; [done | done | | done | done | done].
  apply sender_not_empty.
Qed.

Lemma runner_sends_only_valid_mail_witness :
  TaskRunner.executeJob
    (Some (λ m, TaskRunner.Delivered (TaskRunner.mkInfo (TaskRunner.to m) "250 OK")))
    None (mkJob "a" "SEND_EMAIL" email PENDING 0 3 0 None None None None) =
  TaskRunner.executeJob
    (Some (λ m, if TaskRunner.isValidEmail (TaskRunner.to m)
                then TaskRunner.Delivered (TaskRunner.mkInfo (TaskRunner.to m) "250 OK")
                else TaskRunner.SendError "no recipient"))
    None (mkJob "a" "SEND_EMAIL" email PENDING 0 3 0 None None None None).
Proof.
  apply runner_sends_only_valid_mail.
  intros m _ _ Hvalid _ _. by rewrite Hvalid.
Defined.

(** * The worker pool *)

Section Pool.
Import WorkerPool.

Lemma elem_of_splice_out (w x : nat) (l : list nat) :
  NoDup l → x ∈ splice_out w l ↔ x ∈ l ∧ x ≠ w.
Proof.
  induction 1 as [| y l Hy Hl IH]; cbn.
  - split; [by intros ?%elem_of_nil | by intros [?%elem_of_nil _]].
  - destruct (decide (y = w)) as [-> | Hne].
    + rewrite elem_of_cons. split; [| tauto].
      intros Hx. split; [by right | by intros ->].
    + rewrite !elem_of_cons, IH. split; [| tauto].
      intros [-> | [? ?]]; tauto.
Qed.

Lemma splice_out_sublist (w : nat) (l : list nat) :
  splice_out w l `sublist_of` l.
Proof.
  induction l as [| y l IH]; cbn; [done |].
  destruct (decide (y = w)); [by apply sublist_cons | by apply sublist_skip].
Qed.

Lemma NoDup_splice_out (w : nat) (l : list nat) :
  NoDup l → NoDup (splice_out w l).
Proof. intros Hl. by apply (sublist_NoDup _ l Hl), splice_out_sublist. Qed.

Lemma settle_core (jobId : string) (how : nat → Effect) (pl : Pool) :
  core (settle jobId how pl).2 = core pl.
Proof. unfold settle. by destruct (jobCallbacks pl !! jobId). Qed.

Lemma failCurrentJob_core (w : nat) (message : string) (pl : Pool) :
  core (failCurrentJob w message pl).2 = core pl.
Proof.
  unfold failCurrentJob. destruct (currentJob pl !! w) as [j |]; [| done].
  destruct (decide (j = "")); [done | apply settle_core].
Qed.

Lemma releaseWorker_core (w : nat) (pl : Pool) :
  core (releaseWorker w pl) =
    (workers pl,
     if bool_decide (w ∈ workers pl) && negb (isShuttingDown pl)
     then availableWorkers pl ++ [w] else availableWorkers pl,
     delete w (busyWorkers pl), delete w (currentJob pl),
     isShuttingDown pl, poolSize pl).
Proof.
  unfold releaseWorker. cbn.
  by destruct (bool_decide (w ∈ workers pl) && negb (isShuttingDown pl)).
Qed.

Lemma removeWorker_core (w : nat) (pl : Pool) :
  core (removeWorker w pl) =
    (splice_out w (workers pl), splice_out w (availableWorkers pl),
     delete w (busyWorkers pl), currentJob pl, isShuttingDown pl, poolSize pl).
Proof. done. Qed.

Lemma createWorker_core (w : nat) (pl : Pool) :
  core (createWorker w pl).2 =
    (workers pl, availableWorkers pl, busyWorkers pl, delete w (currentJob pl),
     isShuttingDown pl, poolSize pl).
Proof. done. Qed.

Lemma readyHandler_core (w : nat) (msg : Worker.Message) (pl : Pool) :
  msg ≠ Worker.Ready → core (readyHandler w msg pl) = core pl.
Proof.
  intros Hmsg. unfold readyHandler.
  destruct (decide (w ∈ readyHandlers pl)); [| done]. by destruct msg.
Qed.

Lemma readyHandler_ready_core (w : nat) (pl : Pool) :
  core (readyHandler w Worker.Ready pl) =
    if decide (w ∈ readyHandlers pl) then
      (workers pl ++ [w], availableWorkers pl ++ [w], busyWorkers pl,
       currentJob pl, isShuttingDown pl, poolSize pl)
    else core pl.
Proof. unfold readyHandler. by destruct (decide (w ∈ readyHandlers pl)). Qed.

Lemma core_eq (pl pl' : Pool) :
  core pl' = core pl →
  workers pl' = workers pl ∧ availableWorkers pl' = availableWorkers pl ∧
  busyWorkers pl' = busyWorkers pl ∧ currentJob pl' = currentJob pl ∧
  isShuttingDown pl' = isShuttingDown pl ∧ poolSize pl' = poolSize pl.
Proof. unfold core. by intros [= -> -> -> -> -> ->]. Qed.


Lemma bookkeeping_spawn ws av busy cur sd ts rs (fresh : nat) :
  bookkeeping_ok ws av busy cur sd ts rs →
  fresh ∉ dom ts →
  bookkeeping_ok ws av busy (delete fresh cur) sd (<[fresh := Starting]> ts) rs.
Proof.
  intros (Hws & Hfree & Hidle & Hbusy & Hthr & Hexec & Hall) Hfresh.
  apply not_elem_of_dom in Hfresh.
  assert (∀ w, w ∈ ws → w ≠ fresh) as Hne.
  { intros w Hw ->. destruct (Hthr _ Hw) as [? | [? ?]]; congruence. }
  split_and!; try done.
  - intros w Hw. destruct (Hidle w Hw) as (? & ? & ?).
    split_and!; try done. rewrite lookup_insert_ne; [done |]. intros <-. congruence.
  - intros w j Hw. destruct (Hbusy w j Hw) as [? ?]. split; [done |].
    rewrite lookup_delete_ne; [done |]. intros <-. by eapply Hne.
  - intros w Hw. rewrite lookup_insert_ne; [by apply Hthr |].
    intros <-. by eapply Hne.
  - intros w j. destruct (decide (w = fresh)) as [-> | Hw].
    + by rewrite lookup_insert_eq.
    + rewrite lookup_insert_ne by done. apply Hexec.
Qed.

Lemma bookkeeping_ready ws av busy cur sd ts (w : nat) :
  bookkeeping_ok ws av busy cur sd ts [] →
  ts !! w = Some Starting →
  bookkeeping_ok (ws ++ [w]) (av ++ [w]) busy cur sd (<[w := Idle]> ts) [].
Proof.
  unfold bookkeeping_ok. rewrite !app_nil_r.
  intros (Hws & Hfree & Hidle & Hbusy & Hthr & Hexec & Hall) Hw.
  assert (w ∉ ws) as Hout.
  { intros Hin. destruct (Hthr _ Hin) as [? | [? ?]]; congruence. }
  assert (busy !! w = None) as Hfree_w.
  { destruct (busy !! w) as [j |] eqn:Hj; [| done].
    destruct (Hbusy _ _ Hj) as [? _]. done. }
  split_and!.
  - apply NoDup_app. split_and!; [done | | apply NoDup_singleton].
    intros x Hx ->%list_elem_of_singleton. done.
  - apply NoDup_app. split_and!; [done | | apply NoDup_singleton].
    intros x Hx ->%list_elem_of_singleton.
    destruct (Hidle _ Hx) as (? & _). done.
  - intros x [Hx | ->%list_elem_of_singleton]%elem_of_app.
    + destruct (Hidle _ Hx) as (? & ? & ?). split_and!; try done.
      * apply elem_of_app. by left.
      * rewrite lookup_insert_ne; [done |]. intros ->. done.
    + split_and!; try done.
      * apply elem_of_app. right. by apply list_elem_of_singleton.
      * by rewrite lookup_insert_eq.
  - intros x j Hx. destruct (Hbusy _ _ Hx) as [? ?]. split; [| done].
    apply elem_of_app. by left.
  - intros x [Hx | ->%list_elem_of_singleton]%elem_of_app.
    + rewrite lookup_insert_ne; [by apply Hthr |]. intros ->. done.
    + left. by rewrite lookup_insert_eq.
  - intros x j. destruct (decide (x = w)) as [-> | Hx].
    + by rewrite lookup_insert_eq.
    + rewrite lookup_insert_ne by done. apply Hexec.
  - intros Hsd x [Hx | ->%list_elem_of_singleton]%elem_of_app.
    + destruct (Hall Hsd _ Hx) as [? | ?]; [left | by right].
      apply elem_of_app. by left.
    + left. apply elem_of_app. right. by apply list_elem_of_singleton.
Qed.

(** A thread that is not in the pool changes its state. *)
Lemma bookkeeping_outsider ws av busy cur sd ts rs (w : nat) (t : Thread) :
  bookkeeping_ok ws av busy cur sd ts rs →
  w ∉ ws →
  (∀ jobId, t ≠ Executing jobId) →
  bookkeeping_ok ws av busy cur sd (<[w := t]> ts) rs.
Proof.
  intros (Hws & Hfree & Hidle & Hbusy & Hthr & Hexec & Hall) Hout Ht.
  split_and!; try done.
  - intros x Hx. destruct (Hidle _ Hx) as (? & ? & ?). split_and!; try done.
    rewrite lookup_insert_ne; [done |]. by intros ->.
  - intros x Hx. rewrite lookup_insert_ne; [by apply Hthr |]. by intros ->.
  - intros x j. destruct (decide (x = w)) as [-> | Hx].
    + rewrite lookup_insert_eq. intros [= ->]. by destruct (Ht j).
    + rewrite lookup_insert_ne by done. apply Hexec.
Qed.

Lemma bookkeeping_release ws av busy cur sd ts (w : nat) (jobId : string) :
  bookkeeping_ok ws av busy cur sd ts [] →
  ts !! w = Some (Executing jobId) →
  bookkeeping_ok ws
    (if bool_decide (w ∈ ws) && negb sd then av ++ [w] else av)
    (delete w busy) (delete w cur) sd (<[w := Idle]> ts) [].
Proof.
  unfold bookkeeping_ok. rewrite !app_nil_r.
  intros (Hws & Hfree & Hidle & Hbusy & Hthr & Hexec & Hall) Hw.
  pose proof (Hexec _ _ Hw) as Hbw.
  destruct (Hbusy _ _ Hbw) as [Hin _].
  assert (w ∉ av) as Hout.
  { intros Hav. destruct (Hidle _ Hav) as (_ & ? & _). congruence. }
  rewrite bool_decide_eq_true_2 by done. cbn [andb].
  assert (∀ x, x ∈ av → x ≠ w) as Hne by (intros x Hx ->; done).
  split_and!; try done.
  - destruct sd; cbn; [done |].
    apply NoDup_app. split_and!; [done | | apply NoDup_singleton].
    intros x Hx ->%list_elem_of_singleton. done.
  - intros x Hx.
    assert (x ∈ av ∨ x = w ∧ sd = false) as [Hav | [-> Hsd]].
    { destruct sd; cbn in Hx; [by left |].
      apply elem_of_app in Hx as [? | ->%list_elem_of_singleton]; tauto. }
    + destruct (Hidle _ Hav) as (? & ? & ?). split_and!; try done.
      * rewrite lookup_delete_ne; [done |]. intros ->. done.
      * rewrite lookup_insert_ne; [done |]. intros ->. done.
    + split_and!; [done | apply lookup_delete_eq | apply lookup_insert_eq].
  - intros x j. destruct (decide (x = w)) as [-> | Hx].
    + by rewrite lookup_delete_eq.
    + rewrite !lookup_delete_ne by done. apply Hbusy.
  - intros x Hx. destruct (decide (x = w)) as [-> | Hxw].
    + left. apply lookup_insert_eq.
    + rewrite lookup_insert_ne by done. by apply Hthr.
  - intros x j. destruct (decide (x = w)) as [-> | Hx].
    + by rewrite lookup_insert_eq.
    + rewrite lookup_insert_ne, lookup_delete_ne by done. apply Hexec.
  - intros -> x Hx. cbn. destruct (decide (x = w)) as [-> | Hxw].
    + left. apply elem_of_app. right. by apply list_elem_of_singleton.
    + rewrite lookup_delete_ne by done.
      destruct (Hall eq_refl _ Hx) as [? | ?]; [left | by right].
      apply elem_of_app. by left.
Qed.

Lemma bookkeeping_remove ws av busy cur sd ts (w : nat) (t : Thread) :
  bookkeeping_ok ws av busy cur sd ts [] →
  (∀ jobId, t ≠ Executing jobId) →
  bookkeeping_ok (splice_out w ws) (splice_out w av) (delete w busy) cur sd
    (<[w := t]> ts) [].
Proof.
  unfold bookkeeping_ok. rewrite !app_nil_r.
  intros (Hws & Hfree & Hidle & Hbusy & Hthr & Hexec & Hall) Ht.
  split_and!.
  - by apply NoDup_splice_out.
  - by apply NoDup_splice_out.
  - intros x [Hx Hne]%elem_of_splice_out; [| done].
    destruct (Hidle _ Hx) as (? & ? & ?). split_and!.
    + by apply elem_of_splice_out.
    + by rewrite lookup_delete_ne.
    + by rewrite lookup_insert_ne.
  - intros x j. destruct (decide (x = w)) as [-> | Hx].
    + by rewrite lookup_delete_eq.
    + rewrite lookup_delete_ne by done. intros Hb.
      destruct (Hbusy _ _ Hb) as [? ?]. split; [| done].
      by apply elem_of_splice_out.
  - intros x [Hx Hne]%elem_of_splice_out; [| done].
    rewrite lookup_insert_ne by done. by apply Hthr.
  - intros x j. destruct (decide (x = w)) as [-> | Hx].
    + rewrite lookup_insert_eq. intros [= ->]. by destruct (Ht j).
    + rewrite lookup_insert_ne, lookup_delete_ne by done. apply Hexec.
  - intros Hsd x [Hx Hne]%elem_of_splice_out; [| done].
    rewrite lookup_delete_ne by done.
    destruct (Hall Hsd _ Hx) as [? | ?]; [left | by right].
    by apply elem_of_splice_out.
Qed.

Lemma bookkeeping_shift ws av busy cur sd ts rs (w : nat) :
  bookkeeping_ok ws (w :: av) busy cur sd ts rs →
  bookkeeping_ok ws av busy cur sd ts (rs ++ [w]).
Proof.
  intros (Hws & Hfree & Hidle & Hbusy & Hthr & Hexec & Hall).
  assert ((w :: av) ++ rs ≡ₚ av ++ rs ++ [w]) as Hperm.
  { cbn. rewrite app_assoc. by rewrite <- Permutation_cons_append. }
  split_and!; try done.
  - by rewrite <- Hperm.
  - intros x Hx. apply Hidle. by rewrite Hperm.
  - intros Hsd x Hx. destruct (Hall Hsd _ Hx) as [? | ?]; [left | by right].
    by rewrite <- Hperm.
Qed.

Lemma bookkeeping_assign ws av busy cur sd ts rs (w : nat) (jobId : string) :
  bookkeeping_ok ws av busy cur sd ts (w :: rs) →
  bookkeeping_ok ws av (<[w := jobId]> busy) (<[w := jobId]> cur) sd
    (receive w jobId ts) rs.
Proof.
  intros (Hws & Hfree & Hidle & Hbusy & Hthr & Hexec & Hall).
  assert (av ++ w :: rs ≡ₚ w :: av ++ rs) as Hperm
    by (by rewrite Permutation_middle).
  rewrite Hperm in Hfree. apply NoDup_cons in Hfree as [Hw Hfree].
  destruct (Hidle w) as (Hin & Hnone & Hthread); [rewrite Hperm; by left |].
  unfold receive. rewrite Hthread.
  assert (∀ x, x ∈ av ++ rs → x ≠ w) as Hne by (intros x Hx ->; done).
  split_and!; try done.
  - intros x Hx. destruct (Hidle x) as (? & ? & ?);
      [rewrite Hperm; by right |].
    split_and!; [done | |]; rewrite lookup_insert_ne; try done;
      intros ->; by eapply Hne.
  - intros x j. destruct (decide (x = w)) as [-> | Hx].
    + rewrite !lookup_insert_eq. by intros [= ->].
    + rewrite !lookup_insert_ne by done. apply Hbusy.
  - intros x Hx. destruct (decide (x = w)) as [-> | Hxw].
    + right. exists jobId. apply lookup_insert_eq.
    + rewrite lookup_insert_ne by done. by apply Hthr.
  - intros x j. destruct (decide (x = w)) as [-> | Hx].
    + rewrite !lookup_insert_eq. by intros [= ->].
    + rewrite !lookup_insert_ne by done. apply Hexec.
  - intros Hsd x Hx. destruct (decide (x = w)) as [-> | Hxw].
    + right. rewrite lookup_insert_eq. by eexists.
    + rewrite lookup_insert_ne by done.
      destruct (Hall Hsd _ Hx) as [Hf | ?]; [left | by right].
      rewrite Hperm in Hf. apply elem_of_cons in Hf as [-> | ?]; done.
Qed.

Lemma bookkeeping_shutdown ws av busy cur sd ts rs :
  bookkeeping_ok ws av busy cur sd ts rs →
  bookkeeping_ok ws av busy cur true ts rs.
Proof.
  intros (Hws & Hfree & Hidle & Hbusy & Hthr & Hexec & Hall).
  split_and!; done.
Qed.


Lemma with_pool_proj (f : Pool → list Effect * Pool) (st : State) :
  pool (with_pool f st) = (f (pool st)).2 ∧
  threads (with_pool f st) = threads st ∧
  created (with_pool f st) = created st ∧
  executions (with_pool f st) = executions st ∧
  waiting (with_pool f st) = waiting st ∧
  resuming (with_pool f st) = resuming st ∧
  effects (with_pool f st) = effects st ++ (f (pool st)).1.
Proof. unfold with_pool. by destruct (f (pool st)). Qed.

Lemma onMessage_snd (w : nat) (msg : Worker.Message) (pl : Pool) :
  (onMessage w msg pl).2 = readyHandler w msg (handleWorkerMessage w msg pl).2.
Proof. unfold onMessage. by destruct (handleWorkerMessage w msg pl). Qed.

Lemma handleJobSuccess_core (w : nat) (jobId : string) (r : TaskRunner.Info)
    (pl : Pool) :
  core (handleJobSuccess w jobId r pl).2 = core (releaseWorker w pl).
Proof.
  unfold handleJobSuccess.
  pose proof (settle_core jobId (λ p, Resolve p r) pl) as Hc.
  destruct (settle jobId _ pl) as [es pl']. cbn [snd] in *.
  apply core_eq in Hc as (Hws & Hav & Hb & Hc & Hsd & Hps).
  rewrite !releaseWorker_core. by rewrite Hws, Hav, Hb, Hc, Hsd, Hps.
Qed.

Lemma handleJobFailure_core (w : nat) (jobId message : string) (pl : Pool) :
  core (handleJobFailure w jobId message pl).2 = core (releaseWorker w pl).
Proof.
  unfold handleJobFailure.
  pose proof (settle_core jobId (λ p, Reject p message) pl) as Hc.
  destruct (settle jobId _ pl) as [es pl']. cbn [snd] in *.
  apply core_eq in Hc as (Hws & Hav & Hb & Hc & Hsd & Hps).
  rewrite !releaseWorker_core. by rewrite Hws, Hav, Hb, Hc, Hsd, Hps.
Qed.

Lemma handleWorkerError_core (fresh w : nat) (message : string) (pl : Pool) :
  core (handleWorkerError fresh w message pl).2 =
    (splice_out w (workers pl), splice_out w (availableWorkers pl),
     delete w (busyWorkers pl),
     if isShuttingDown pl then currentJob pl else delete fresh (currentJob pl),
     isShuttingDown pl, poolSize pl).
Proof.
  unfold handleWorkerError.
  pose proof (failCurrentJob_core w ("Worker crashed: " +:+ message) pl) as Hc.
  destruct (failCurrentJob w _ pl) as [es pl']. cbn [snd] in *.
  apply core_eq in Hc as (Hws & Hav & Hb & Hc & Hsd & Hps).
  cbn [removeWorker with_busy with_available with_workers isShuttingDown].
  rewrite Hsd. destruct (isShuttingDown pl) eqn:E; unfold core; cbn;
    by rewrite Hws, Hav, Hb, Hc, Hps, Hsd.
Qed.

Lemma handleWorkerExit_core (w : nat) (code : string) (pl : Pool) :
  core (handleWorkerExit w code pl).2 =
    (splice_out w (workers pl), splice_out w (availableWorkers pl),
     delete w (busyWorkers pl), currentJob pl, isShuttingDown pl, poolSize pl).
Proof.
  unfold handleWorkerExit.
  pose proof (failCurrentJob_core w ("Worker exited with code " +:+ code) pl)
    as Hc.
  destruct (failCurrentJob w _ pl) as [es pl']. cbn [snd] in *.
  apply core_eq in Hc as (Hws & Hav & Hb & Hc & Hsd & Hps).
  rewrite removeWorker_core. by rewrite Hws, Hav, Hb, Hc, Hsd, Hps.
Qed.

Lemma pool_ok_intro (st : State) ws av busy cur sd ps :
  core (pool st) = (ws, av, busy, cur, sd, ps) →
  bookkeeping_ok ws av busy cur sd (threads st) (resuming st).*1 →
  pool_ok st.
Proof. unfold core, pool_ok. by intros [= <- <- <- <- <- <-]. Qed.

Lemma starting_outside ws av busy cur sd ts rs (w : nat) (t : Thread) :
  bookkeeping_ok ws av busy cur sd ts rs →
  ts !! w = Some t →
  t ≠ Idle → (∀ jobId, t ≠ Executing jobId) →
  w ∉ ws.
Proof.
  intros (_ & _ & _ & _ & Hthr & _) Hw Hidle Hexec Hin.
  destruct (Hthr _ Hin) as [? | [j ?]]; [congruence |].
  destruct (Hexec j). congruence.
Qed.

Lemma step_pool_ok (st st' : State) : step st st' → pool_ok st → pool_ok st'.
Proof.
  intros Hstep Hok.
  destruct Hstep as [fresh st Hrs Hfresh Hroom | w st Hrs
    | w msg t t' st Hrs Hw Hposts | fresh w message t st Hrs Hw Halive Hfresh
    | w code t st Hrs Hw Ht | jobId st Hne Hdone | k st Hrs | st Hrs
    | st Hrs].
  - unfold pool_ok. cbn. by apply bookkeeping_spawn.
  - done.
  - unfold pool_ok in Hok. rewrite Hrs in Hok. cbn [fmap list_fmap] in Hok.
    destruct (with_pool_proj (onMessage w msg) st)
      as (Hpool & Hthreads & _ & _ & _ & Hres & _).
    destruct msg as [| jobId r | jobId m | m |].
    + destruct t; try done. injection Hposts as <-.
      destruct (decide (w ∈ readyHandlers (pool st))) as [Hin | Hout];
        eapply pool_ok_intro;
        cbn [with_threads pool threads resuming];
        rewrite ?Hpool, ?Hres, ?Hrs, ?Hthreads.
      * rewrite onMessage_snd, readyHandler_ready_core.
        cbn [handleWorkerMessage snd]. by rewrite decide_True.
      * by apply bookkeeping_ready.
      * rewrite onMessage_snd, readyHandler_ready_core.
        cbn [handleWorkerMessage snd]. by rewrite decide_False.
      * apply bookkeeping_outsider; [done | | done].
        by eapply starting_outside.
    + destruct t as [| | j | |]; try done. cbn in Hposts.
      destruct (decide (jobId = j)) as [-> |]; [| done].
      injection Hposts as <-.
      eapply pool_ok_intro;
        cbn [with_threads pool threads resuming]; rewrite ?Hpool, ?Hres, ?Hrs.
      { rewrite onMessage_snd, readyHandler_core by done.
        cbn [handleWorkerMessage]. rewrite handleJobSuccess_core.
        apply releaseWorker_core. }
      rewrite Hthreads. by eapply bookkeeping_release.
    + destruct t as [| | j | |]; try done. cbn in Hposts.
      destruct (decide (jobId = j)) as [-> |]; [| done].
      injection Hposts as <-.
      eapply pool_ok_intro;
        cbn [with_threads pool threads resuming]; rewrite ?Hpool, ?Hres, ?Hrs.
      { rewrite onMessage_snd, readyHandler_core by done.
        cbn [handleWorkerMessage]. rewrite handleJobFailure_core.
        apply releaseWorker_core. }
      rewrite Hthreads. by eapply bookkeeping_release.
    + assert (t' = t) as -> by (destruct t; cbn in Hposts; congruence).
      eapply pool_ok_intro;
        cbn [with_threads pool threads resuming]; rewrite ?Hpool, ?Hres, ?Hrs.
      { rewrite onMessage_snd, readyHandler_core by done. reflexivity. }
      rewrite Hthreads, insert_id by done. done.
    + by destruct t.
  - unfold pool_ok in Hok. rewrite Hrs in Hok. cbn [fmap list_fmap] in Hok.
    destruct (with_pool_proj (handleWorkerError fresh w message) st)
      as (Hpool & Hthreads & _ & _ & _ & Hres & _).
    eapply pool_ok_intro;
      cbn [with_threads pool threads resuming]; rewrite ?Hpool, ?Hres, ?Hrs.
    { apply handleWorkerError_core. }
    rewrite Hthreads.
    pose proof (bookkeeping_remove _ _ _ _ _ _ w Crashed Hok) as Hrem.
    destruct (isShuttingDown (pool st)); [by apply Hrem |].
    apply bookkeeping_spawn; [by apply Hrem |].
    rewrite dom_insert, elem_of_union, elem_of_singleton.
    intros [-> | ?]; [| done]. apply Hfresh. by apply elem_of_dom.
  - unfold pool_ok in Hok. rewrite Hrs in Hok. cbn [fmap list_fmap] in Hok.
    destruct (with_pool_proj (handleWorkerExit w code) st)
      as (Hpool & Hthreads & _ & _ & _ & Hres & _).
    eapply pool_ok_intro;
      cbn [with_threads pool threads resuming]; rewrite ?Hpool, ?Hres, ?Hrs.
    { apply handleWorkerExit_core. }
    rewrite Hthreads. by apply bookkeeping_remove.
  - unfold executeJob. destruct (isShuttingDown (pool st)) eqn:Hsd; [done |].
    unfold getAvailableWorker.
    destruct (availableWorkers (pool st)) as [| w rest] eqn:Hav.
    + unfold pool_ok in *. by cbn.
    + unfold pool_ok in *. cbn. rewrite fmap_app. cbn.
      apply bookkeeping_shift. by rewrite <- Hav.
  - unfold interval. destruct (waiting st !! k) as [e |]; [| done].
    unfold getAvailableWorker.
    destruct (availableWorkers (pool st)) as [| w rest] eqn:Hav; [done |].
    unfold pool_ok in *. cbn. rewrite fmap_app. cbn.
    apply bookkeeping_shift. by rewrite <- Hav.
  - unfold resume. destruct (resuming st) as [| [w [jobId p]] rest] eqn:Hres;
      [done |].
    unfold pool_ok in *. cbn. rewrite Hres in Hok. cbn in Hok.
    by apply bookkeeping_assign.
  - unfold pool_ok in *. cbn. by eapply bookkeeping_shutdown.
Qed.


Lemma ledger_perm done ex (q q' : list Execution) cb :
  ledger_ok done ex q cb → q ≡ₚ q' → ledger_ok done ex q' cb.
Proof.
  intros (Hdone & Hlt & Hq & Hqueued & Hcb & Hall & Huniq & Hne) Hperm.
  split_and!; try done.
  - by rewrite <- Hperm.
  - intros j p Hin. apply Hqueued. by rewrite Hperm.
  - intros p j Hp. destruct (Hall _ _ Hp) as [? | [? | ?]]; try tauto.
    right. left. by rewrite <- Hperm.
Qed.

Lemma ledger_settle done ex (q : list Execution) cb (jobId : string) (p : nat) :
  ledger_ok done ex q cb →
  cb !! jobId = Some p →
  ledger_ok (done ++ [p]) ex q (delete jobId cb).
Proof.
  intros (Hdone & Hlt & Hq & Hqueued & Hcb & Hall & Huniq & Hne) Hp.
  destruct (Hcb _ _ Hp) as [Hex Hnew].
  split_and!; try done.
  - apply NoDup_app. split_and!; [done | | apply NoDup_singleton].
    intros x Hx ->%list_elem_of_singleton. done.
  - intros x [Hx | ->%list_elem_of_singleton]%elem_of_app; [by apply Hlt |].
    by eapply lookup_lt_Some.
  - intros j' p' Hin. destruct (Hqueued _ _ Hin) as (Hex' & Hnew' & Hcb').
    split_and!; [done | |].
    + intros [? | ->%list_elem_of_singleton]%elem_of_app; [done |].
      assert (j' = jobId) as -> by congruence. done.
    + destruct (decide (j' = jobId)) as [-> | Hj].
      * by rewrite lookup_delete_eq.
      * by rewrite lookup_delete_ne.
  - intros j' p'. destruct (decide (j' = jobId)) as [-> | Hj].
    + by rewrite lookup_delete_eq.
    + rewrite lookup_delete_ne by done. intros Hp'.
      destruct (Hcb _ _ Hp') as [Hex' Hnew']. split; [done |].
      intros [? | ->%list_elem_of_singleton]%elem_of_app; [done |].
      congruence.
  - intros p' j' Hex'. destruct (Hall _ _ Hex') as [? | [? | Hp']].
    + left. apply elem_of_app. by left.
    + right. by left.
    + destruct (decide (j' = jobId)) as [-> | Hj].
      * left. apply elem_of_app. right. apply list_elem_of_singleton. congruence.
      * right. right. by rewrite lookup_delete_ne.
  - intros p1 p2 j Hp1 Hp2 Hn1 Hn2. apply (Huniq p1 p2 j); try done.
    + intros ?. apply Hn1, elem_of_app. by left.
    + intros ?. apply Hn2, elem_of_app. by left.
Qed.

Lemma ledger_assign done ex (q : list Execution) cb (jobId : string) (p : nat) :
  ledger_ok done ex ((jobId, p) :: q) cb →
  ledger_ok done ex q (<[jobId := p]> cb).
Proof.
  intros (Hdone & Hlt & Hq & Hqueued & Hcb & Hall & Huniq & Hne).
  cbn in Hq. apply NoDup_cons in Hq as [Hp Hq].
  destruct (Hqueued jobId p) as (Hex & Hnew & _); [by left |].
  split_and!; try done.
  - intros j' p' Hin. destruct (Hqueued j' p') as (? & ? & ?); [by right |].
    split_and!; try done.
    destruct (decide (j' = jobId)) as [-> | Hj].
    + rewrite lookup_insert_eq. intros [= ->]. apply Hp.
      by apply (list_elem_of_fmap_2 snd) in Hin.
    + by rewrite lookup_insert_ne.
  - intros j' p'. destruct (decide (j' = jobId)) as [-> | Hj].
    + rewrite lookup_insert_eq. by intros [= <-].
    + rewrite lookup_insert_ne by done. apply Hcb.
  - intros p' j' Hex'. destruct (Hall _ _ Hex') as [? | [Hin | Hp']].
    + by left.
    + apply elem_of_cons in Hin as [[= -> ->] | ?].
      * right. right. apply lookup_insert_eq.
      * right. by left.
    + right. right. destruct (decide (j' = jobId)) as [-> | Hj].
      * rewrite lookup_insert_eq. f_equal.
        destruct (Hcb _ _ Hp') as [? ?]. by apply (Huniq p p' jobId).
      * by rewrite lookup_insert_ne.
Qed.

Lemma ledger_call_queue done ex (q q' : list Execution) cb (jobId : string) :
  ledger_ok done ex q cb →
  jobId ≠ "" →
  (∀ p, ex !! p = Some jobId → p ∈ done) →
  q' ≡ₚ (jobId, length ex) :: q →
  ledger_ok done (ex ++ [jobId]) q' cb.
Proof.
  intros (Hdone & Hlt & Hq & Hqueued & Hcb & Hall & Huniq & Hne) Hj Hold Hperm.
  apply (ledger_perm _ _ ((jobId, length ex) :: q)); [| done].
  assert (length ex ∉ done) as Hnew by (intros ?%Hlt; lia).
  split_and!; try done.
  - intros p ?%Hlt. rewrite length_app. cbn. lia.
  - cbn. apply NoDup_cons. split; [| done].
    intros ([j p] & Heq & Hin)%list_elem_of_fmap_1.
    destruct (Hqueued _ _ Hin) as (?%lookup_lt_Some & _). cbn in Heq. lia.
  - intros j p [[= -> ->] | Hin]%elem_of_cons.
    + split_and!; [| done |].
      * apply lookup_snoc_Some. by right.
      * intros Hp. destruct (Hcb _ _ Hp) as [?%lookup_lt_Some _]. lia.
    + destruct (Hqueued _ _ Hin) as (? & ? & ?). split_and!; try done.
      by apply lookup_app_l_Some.
  - intros j p Hp. destruct (Hcb _ _ Hp) as [? ?]. split; [| done].
    by apply lookup_app_l_Some.
  - intros p j [[_ Hp] | [-> ->]]%lookup_snoc_Some.
    + destruct (Hall _ _ Hp) as [? | [? | ?]]; try tauto.
      right. left. by right.
    + right. left. by left.
  - intros p1 p2 j [[_ Hp1] | [-> ->]]%lookup_snoc_Some
      [[_ Hp2] | [-> Heq]]%lookup_snoc_Some Hn1 Hn2; try done.
    + by apply (Huniq p1 p2 j).
    + subst. destruct Hn1. by apply Hold.
    + destruct Hn2. by apply Hold.
  - intros j [? | ->%list_elem_of_singleton]%elem_of_app; [by apply Hne | done].
Qed.

Lemma ledger_call_reject done ex (q : list Execution) cb (jobId : string) :
  ledger_ok done ex q cb →
  jobId ≠ "" →
  ledger_ok (done ++ [length ex]) (ex ++ [jobId]) q cb.
Proof.
  intros (Hdone & Hlt & Hq & Hqueued & Hcb & Hall & Huniq & Hne) Hj.
  assert (length ex ∉ done) as Hnew by (intros ?%Hlt; lia).
  split_and!; try done.
  - apply NoDup_app. split_and!; [done | | apply NoDup_singleton].
    intros x Hx ->%list_elem_of_singleton. done.
  - intros p [?%Hlt | ->%list_elem_of_singleton]%elem_of_app;
      rewrite length_app; cbn; lia.
  - intros j p Hin. destruct (Hqueued _ _ Hin) as (Hex & ? & ?).
    split_and!; [by apply lookup_app_l_Some | | done].
    intros [? | ->%list_elem_of_singleton]%elem_of_app; [done |].
    apply lookup_lt_Some in Hex. lia.
  - intros j p Hp. destruct (Hcb _ _ Hp) as [Hex ?].
    split; [by apply lookup_app_l_Some |].
    intros [? | ->%list_elem_of_singleton]%elem_of_app; [done |].
    apply lookup_lt_Some in Hex. lia.
  - intros p j [[_ Hp] | [-> ->]]%lookup_snoc_Some.
    + destruct (Hall _ _ Hp) as [? | [? | ?]]; try tauto.
      left. apply elem_of_app. by left.
    + left. apply elem_of_app. right. by apply list_elem_of_singleton.
  - intros p1 p2 j Hp1 Hp2 Hn1 Hn2.
    rewrite elem_of_app, list_elem_of_singleton in Hn1, Hn2.
    apply lookup_snoc_Some in Hp1 as [[_ Hp1] | [-> _]]; [| tauto].
    apply lookup_snoc_Some in Hp2 as [[_ Hp2] | [-> _]]; [| tauto].
    apply (Huniq p1 p2 j); tauto.
  - intros j [? | ->%list_elem_of_singleton]%elem_of_app; [by apply Hne | done].
Qed.


Lemma settle_ledger done ex (q : list Execution) (jobId : string)
    (how : nat → Effect) (pl : Pool) :
  (∀ p, settled [how p] = [p]) →
  ledger_ok done ex q (jobCallbacks pl) →
  ledger_ok (done ++ settled (settle jobId how pl).1) ex q
    (jobCallbacks (settle jobId how pl).2).
Proof.
  intros Hhow Hok. unfold settle.
  destruct (jobCallbacks pl !! jobId) as [p |] eqn:Hp; cbn [fst snd].
  - rewrite Hhow. by apply ledger_settle.
  - cbn. by rewrite app_nil_r.
Qed.

Lemma failCurrentJob_ledger done ex (q : list Execution) (w : nat)
    (message : string) (pl : Pool) :
  ledger_ok done ex q (jobCallbacks pl) →
  ledger_ok (done ++ settled (failCurrentJob w message pl).1) ex q
    (jobCallbacks (failCurrentJob w message pl).2).
Proof.
  intros Hok. unfold failCurrentJob.
  destruct (currentJob pl !! w) as [j |]; [| cbn; by rewrite app_nil_r].
  destruct (decide (j = "")); [cbn; by rewrite app_nil_r |].
  by apply settle_ledger.
Qed.

Lemma releaseWorker_callbacks (w : nat) (pl : Pool) :
  jobCallbacks (releaseWorker w pl) = jobCallbacks pl.
Proof.
  unfold releaseWorker. cbn.
  by destruct (bool_decide (w ∈ workers pl) && negb (isShuttingDown pl)).
Qed.

Lemma readyHandler_callbacks (w : nat) (msg : Worker.Message) (pl : Pool) :
  jobCallbacks (readyHandler w msg pl) = jobCallbacks pl.
Proof.
  unfold readyHandler. destruct (decide (w ∈ readyHandlers pl)); [| done].
  by destruct msg.
Qed.

Lemma onMessage_ledger done ex (q : list Execution) (w : nat)
    (msg : Worker.Message) (pl : Pool) :
  ledger_ok done ex q (jobCallbacks pl) →
  ledger_ok (done ++ settled (onMessage w msg pl).1) ex q
    (jobCallbacks (onMessage w msg pl).2).
Proof.
  intros Hok. unfold onMessage, handleWorkerMessage.
  destruct msg as [| jobId r | jobId m | m |];
    cbn [fst snd]; rewrite ?readyHandler_callbacks;
    try (cbn; by rewrite app_nil_r).
  - unfold handleJobSuccess.
    pose proof (settle_ledger done ex q jobId (λ p, Resolve p r) pl
                  (λ _, eq_refl) Hok) as Hs.
    destruct (settle jobId _ pl) as [es pl']. cbn [fst snd] in *.
    by rewrite readyHandler_callbacks, releaseWorker_callbacks.
  - unfold handleJobFailure.
    pose proof (settle_ledger done ex q jobId (λ p, Reject p m) pl
                  (λ _, eq_refl) Hok) as Hs.
    destruct (settle jobId _ pl) as [es pl']. cbn [fst snd] in *.
    by rewrite readyHandler_callbacks, releaseWorker_callbacks.
Qed.

Lemma handleWorkerError_ledger done ex (q : list Execution) (fresh w : nat)
    (message : string) (pl : Pool) :
  ledger_ok done ex q (jobCallbacks pl) →
  ledger_ok (done ++ settled (handleWorkerError fresh w message pl).1) ex q
    (jobCallbacks (handleWorkerError fresh w message pl).2).
Proof.
  intros Hok. unfold handleWorkerError.
  pose proof (failCurrentJob_ledger done ex q w
                ("Worker crashed: " +:+ message) pl Hok) as Hs.
  destruct (failCurrentJob w _ pl) as [es pl']. cbn [fst snd] in *.
  cbn [removeWorker with_busy with_available with_workers isShuttingDown].
  destruct (isShuttingDown pl'); unfold createWorker; cbn [fst snd]; [done |].
  unfold settled. rewrite omap_app. cbn. by rewrite app_nil_r.
Qed.

Lemma handleWorkerExit_ledger done ex (q : list Execution) (w : nat)
    (code : string) (pl : Pool) :
  ledger_ok done ex q (jobCallbacks pl) →
  ledger_ok (done ++ settled (handleWorkerExit w code pl).1) ex q
    (jobCallbacks (handleWorkerExit w code pl).2).
Proof.
  intros Hok. unfold handleWorkerExit.
  pose proof (failCurrentJob_ledger done ex q w
                ("Worker exited with code " +:+ code) pl Hok) as Hs.
  by destruct (failCurrentJob w _ pl) as [es pl'].
Qed.

Lemma with_pool_promises (h : Pool → list Effect * Pool) (st : State) :
  (∀ done ex q, ledger_ok done ex q (jobCallbacks (pool st)) →
     ledger_ok (done ++ settled (h (pool st)).1) ex q
       (jobCallbacks (h (pool st)).2)) →
  promises_ok st → promises_ok (with_pool h st).
Proof.
  intros Hh Hok. unfold promises_ok, queued in *.
  destruct (with_pool_proj h st) as (-> & _ & _ & -> & -> & -> & ->).
  unfold settled at 1. rewrite omap_app. by apply Hh.
Qed.

Lemma step_promises_ok (st st' : State) :
  step st st' → promises_ok st → promises_ok st'.
Proof.
  intros Hstep Hok.
  destruct Hstep as [fresh st Hrs Hfresh Hroom | w st Hrs
    | w msg t t' st Hrs Hw Hposts | fresh w message t st Hrs Hw Halive Hfresh
    | w code t st Hrs Hw Ht | jobId st Hne Hdone | k st Hrs | st Hrs
    | st Hrs].
  - unfold promises_ok, queued in *. cbn. unfold settled. rewrite omap_app.
    cbn. by rewrite app_nil_r.
  - apply with_pool_promises; [| done]. intros. cbn. by rewrite app_nil_r.
  - apply (with_pool_promises (onMessage w msg)) in Hok; [done |].
    intros. by apply onMessage_ledger.
  - apply (with_pool_promises (handleWorkerError fresh w message)) in Hok;
      [done |].
    intros. by apply handleWorkerError_ledger.
  - apply (with_pool_promises (handleWorkerExit w code)) in Hok; [done |].
    intros. by apply handleWorkerExit_ledger.
  - unfold executeJob. destruct (isShuttingDown (pool st)).
    + unfold promises_ok, queued in *. cbn. unfold settled. rewrite omap_app.
      cbn. by apply ledger_call_reject.
    + unfold getAvailableWorker.
      destruct (availableWorkers (pool st)) as [| w rest];
        unfold promises_ok, queued in *; cbn.
      * eapply ledger_call_queue; [done | done | done |].
        rewrite <- app_assoc. symmetry. apply Permutation_middle.
      * eapply ledger_call_queue; [done | done | done |].
        rewrite fmap_app. cbn. rewrite app_assoc.
        by rewrite <- Permutation_cons_append.
  - unfold interval. destruct (waiting st !! k) as [e |] eqn:Hk; [| done].
    unfold getAvailableWorker.
    destruct (availableWorkers (pool st)) as [| w rest]; [done |].
    unfold promises_ok, queued in *; cbn. rewrite Hrs in *. cbn in *.
    eapply ledger_perm; [done |]. rewrite app_nil_r.
    rewrite <- Permutation_cons_append. by apply delete_Permutation.
  - unfold resume. destruct (resuming st) as [| [w [jobId p]] rest] eqn:Hres;
      [done |].
    unfold promises_ok, queued in *; cbn. rewrite Hres in Hok. cbn in Hok.
    unfold settled. rewrite omap_app. cbn. rewrite app_nil_r.
    apply ledger_assign. eapply ledger_perm; [done |].
    by rewrite <- Permutation_middle.
  - apply with_pool_promises; [| done]. intros. cbn. by rewrite app_nil_r.
Qed.


Lemma settle_callbacks (jobId : string) (how : nat → Effect) (pl : Pool) :
  jobCallbacks (settle jobId how pl).2 = delete jobId (jobCallbacks pl).
Proof.
  unfold settle. destruct (jobCallbacks pl !! jobId) eqn:Hp; cbn; [done |].
  by rewrite delete_id.
Qed.

Lemma onMessage_callbacks (w : nat) (msg : Worker.Message) (pl : Pool) :
  jobCallbacks (onMessage w msg pl).2 =
    match msg with
    | Worker.Success jobId _ | Worker.Failure jobId _ =>
        delete jobId (jobCallbacks pl)
    | _ => jobCallbacks pl
    end.
Proof.
  rewrite onMessage_snd, readyHandler_callbacks.
  destruct msg as [| jobId r | jobId m | m |]; try done; cbn.
  - unfold handleJobSuccess.
    pose proof (settle_callbacks jobId (λ p, Resolve p r) pl) as Hs.
    destruct (settle jobId _ pl) as [es pl']. cbn [snd] in *.
    by rewrite releaseWorker_callbacks.
  - unfold handleJobFailure.
    pose proof (settle_callbacks jobId (λ p, Reject p m) pl) as Hs.
    destruct (settle jobId _ pl) as [es pl']. cbn [snd] in *.
    by rewrite releaseWorker_callbacks.
Qed.

Lemma failCurrentJob_callbacks (w : nat) (message : string) (pl : Pool) :
  jobCallbacks (failCurrentJob w message pl).2 =
    match currentJob pl !! w with
    | Some jobId =>
        if decide (jobId = "") then jobCallbacks pl
        else delete jobId (jobCallbacks pl)
    | None => jobCallbacks pl
    end.
Proof.
  unfold failCurrentJob. destruct (currentJob pl !! w) as [j |]; [| done].
  destruct (decide (j = "")); [done | apply settle_callbacks].
Qed.

Lemma handleWorkerError_callbacks (fresh w : nat) (message : string)
    (pl : Pool) :
  jobCallbacks (handleWorkerError fresh w message pl).2 =
    jobCallbacks (failCurrentJob w ("Worker crashed: " +:+ message) pl).2.
Proof.
  unfold handleWorkerError. destruct (failCurrentJob w _ pl) as [es pl'].
  cbn [removeWorker with_busy with_available with_workers isShuttingDown].
  by destruct (isShuttingDown pl').
Qed.

Lemma handleWorkerExit_callbacks (w : nat) (code : string) (pl : Pool) :
  jobCallbacks (handleWorkerExit w code pl).2 =
    jobCallbacks (failCurrentJob w ("Worker exited with code " +:+ code) pl).2.
Proof.
  unfold handleWorkerExit. by destruct (failCurrentJob w _ pl) as [es pl'].
Qed.

(** The callbacks that are left when a thread has ended belong to jobs
    that other threads execute. *)
Lemma tied_thread_ended (st : State) (w : nat) (message : string)
    (ts' : gmap nat Thread) :
  pool_ok st → tied st →
  (∀ x jobId, ts' !! x = Some (Executing jobId) →
     x ≠ w ∧ threads st !! x = Some (Executing jobId)) →
  (∀ x jobId, x ≠ w → threads st !! x = Some (Executing jobId) →
     ts' !! x = Some (Executing jobId)) →
  (∀ jobId p,
     jobCallbacks (failCurrentJob w message (pool st)).2 !! jobId = Some p →
     ∃ x, ts' !! x = Some (Executing jobId)) ∧
  (∀ x jobId, ts' !! x = Some (Executing jobId) → jobId ≠ "").
Proof.
  intros (_ & _ & _ & Hbusy & _ & Hexec & _) [Hcb Hne] Hold Hnew. split.
  - intros j p. rewrite failCurrentJob_callbacks. intros Hp.
    assert (jobCallbacks (pool st) !! j = Some p) as Hp'.
    { destruct (currentJob (pool st) !! w) as [j0 |]; [| done].
      destruct (decide (j0 = "")); [done |].
      by apply lookup_delete_Some in Hp as [_ ?]. }
    destruct (Hcb _ _ Hp') as [x Hx].
    destruct (decide (x = w)) as [-> | Hxw]; [| exists x; by apply Hnew].
    destruct (Hbusy _ _ (Hexec _ _ Hx)) as [_ Hcur]. rewrite Hcur in Hp.
    rewrite decide_False in Hp by (by eapply Hne).
    by rewrite lookup_delete_eq in Hp.
  - intros x j Hx. destruct (Hold _ _ Hx) as [_ ?]. by eapply Hne.
Qed.

Lemma step_tied (st st' : State) :
  step st st' → pool_ok st → promises_ok st → tied st → tied st'.
Proof.
  intros Hstep Hpool Hprom Htied. pose proof Htied as [Hcb Hne].
  destruct Hstep as [fresh st Hrs Hfresh Hroom | w st Hrs
    | w msg t t' st Hrs Hw Hposts | fresh w message t st Hrs Hw Halive Hfresh
    | w code t st Hrs Hw Ht | jobId st Hj Hdone | k st Hrs | st Hrs
    | st Hrs].
  - apply not_elem_of_dom in Hfresh. unfold tied. cbn. split.
    + intros j p Hp. destruct (Hcb _ _ Hp) as [x Hx]. exists x.
      rewrite lookup_insert_ne; [done |]. intros <-. congruence.
    + intros x j. destruct (decide (x = fresh)) as [-> | Hx].
      * by rewrite lookup_insert_eq.
      * rewrite lookup_insert_ne by done. apply Hne.
  - done.
  - unfold tied. cbn [with_threads pool threads].
    destruct (with_pool_proj (onMessage w msg) st) as (-> & -> & _).
    rewrite onMessage_callbacks.
    assert (∀ x j, threads st !! x = Some (Executing j) →
              t = Executing j ∨ x ≠ w) as Hother.
    { intros x j Hx. destruct (decide (x = w)) as [-> | ?]; [left | by right].
      congruence. }
    split.
    + intros j p Hp.
      assert (jobCallbacks (pool st) !! j = Some p ∧ t ≠ Executing j ∨
              t' = Executing j) as [[Hp' Ht] | ->].
      { destruct msg as [| j0 r | j0 m | m |], t as [| | j1 | |];
          cbn in Hposts; try done;
          try (destruct (decide (j0 = j1)) as [-> |]; [| done];
               apply lookup_delete_Some in Hp as [? ?]; left; split; [done |];
               congruence);
          try (left; by split).
        injection Hposts as <-. destruct (decide (j = j1)) as [-> |].
        - by right.
        - left. split; [done | congruence]. }
      * destruct (Hcb _ _ Hp') as [x Hx]. exists x.
        destruct (Hother _ _ Hx) as [? | ?]; [done |].
        by rewrite lookup_insert_ne.
      * exists w. apply lookup_insert_eq.
    + intros x j. destruct (decide (x = w)) as [-> | Hx].
      * rewrite lookup_insert_eq. intros [= ->].
        destruct msg, t; cbn in Hposts; try done;
          try (by destruct (decide _)).
        injection Hposts as <-. by eapply Hne.
      * rewrite lookup_insert_ne by done. apply Hne.
  - unfold tied. cbn [with_threads pool threads].
    destruct (with_pool_proj (handleWorkerError fresh w message) st)
      as (-> & -> & _).
    rewrite handleWorkerError_callbacks.
    apply not_elem_of_dom in Hfresh.
    apply tied_thread_ended; try done.
    + intros x j. destruct (isShuttingDown (pool st)).
      * destruct (decide (x = w)) as [-> | Hx].
        { by rewrite lookup_insert_eq. }
        by rewrite lookup_insert_ne.
      * destruct (decide (x = fresh)) as [-> | Hxf].
        { by rewrite lookup_insert_eq. }
        rewrite lookup_insert_ne by done.
        destruct (decide (x = w)) as [-> | Hx].
        { by rewrite lookup_insert_eq. }
        by rewrite lookup_insert_ne.
    + intros x j Hx Hthread. destruct (isShuttingDown (pool st)).
      * by rewrite lookup_insert_ne.
      * rewrite !lookup_insert_ne; [done | done |]. intros <-. congruence.
  - unfold tied. cbn [with_threads pool threads].
    destruct (with_pool_proj (handleWorkerExit w code) st) as (-> & -> & _).
    rewrite handleWorkerExit_callbacks.
    apply tied_thread_ended; try done.
    + intros x j. destruct (decide (x = w)) as [-> | Hx].
      { by rewrite lookup_insert_eq. }
      by rewrite lookup_insert_ne.
    + intros x j Hx Hthread. by rewrite lookup_insert_ne.
  - unfold executeJob. destruct (isShuttingDown (pool st)); [done |].
    unfold getAvailableWorker.
    by destruct (availableWorkers (pool st)) as [| w rest].
  - unfold interval. destruct (waiting st !! k) as [e |]; [| done].
    unfold getAvailableWorker.
    by destruct (availableWorkers (pool st)) as [| w rest].
  - unfold resume. destruct (resuming st) as [| [w [jobId p]] rest] eqn:Hres;
      [done |].
    destruct Hpool as (_ & _ & Hidle & _).
    destruct (Hidle w) as (_ & _ & Hw).
    { rewrite Hres. apply elem_of_app. right. by left. }
    assert (jobId ≠ "") as Hj.
    { destruct Hprom as (_ & _ & _ & Hq & _ & _ & _ & Hnonempty).
      destruct (Hq jobId p) as [Hex _].
      - unfold queued. rewrite Hres. apply elem_of_app. right. by left.
      - by eapply Hnonempty, list_elem_of_lookup_2. }
    unfold tied. cbn. unfold receive. rewrite Hw. split.
    + intros j q. destruct (decide (j = jobId)) as [-> | Hne'].
      * intros _. exists w. apply lookup_insert_eq.
      * rewrite lookup_insert_ne by done. intros Hq.
        destruct (Hcb _ _ Hq) as [x Hx]. exists x.
        rewrite lookup_insert_ne; [done |]. intros <-. congruence.
    + intros x j. destruct (decide (x = w)) as [-> | Hx].
      * rewrite lookup_insert_eq. by intros [= <-].
      * rewrite lookup_insert_ne by done. apply Hne.
  - done.
Qed.


Lemma reachable_pool_inv (ps : option Z) (wps : Z) (st : State) :
  reachable ps wps st → pool_ok st ∧ promises_ok st ∧ tied st.
Proof.
  induction 1 as [| st st' _ (Hpool & Hprom & Htied) Hstep].
  - split_and!.
    + unfold pool_ok, bookkeeping_ok. cbn. split_and!; try apply NoDup_nil_2.
      * by intros w ?%elem_of_nil.
      * intros w j. by rewrite lookup_empty.
      * by intros w ?%elem_of_nil.
      * intros w j. by rewrite lookup_empty.
      * by intros _ w ?%elem_of_nil.
    + unfold promises_ok, ledger_ok. cbn. split_and!; try apply NoDup_nil_2.
      * by intros p ?%elem_of_nil.
      * by intros j p ?%elem_of_nil.
      * intros j p. by rewrite lookup_empty.
      * by intros p j.
      * by intros p p' j.
      * by intros j ?%elem_of_nil.
    + split; cbn.
      * intros j p. by rewrite lookup_empty.
      * intros w j. by rewrite lookup_empty.
  - split_and!.
    + by eapply step_pool_ok.
    + by eapply step_promises_ok.
    + by eapply step_tied.
Qed.

Lemma elem_of_alive_threads (ts : gmap nat Thread) (w : nat) :
  w ∈ alive_threads ts ↔ ∃ t, ts !! w = Some t ∧ alive t = true.
Proof.
  unfold alive_threads. rewrite elem_of_dom. split.
  - intros [t [Ht Ha]%map_lookup_filter_Some]. by exists t.
  - intros (t & Ht & Ha). exists t. by apply map_lookup_filter_Some.
Qed.

Lemma alive_threads_insert (ts : gmap nat Thread) (w : nat) (t : Thread) :
  alive_threads (<[w := t]> ts) =
    if alive t then {[w]} ∪ alive_threads ts else alive_threads ts ∖ {[w]}.
Proof.
  apply set_eq. intros x. rewrite elem_of_alive_threads.
  destruct (alive t) eqn:Ht.
  - rewrite elem_of_union, elem_of_singleton, elem_of_alive_threads.
    destruct (decide (x = w)) as [-> | Hx].
    + rewrite lookup_insert_eq. split; [by left | intros _; by exists t].
    + rewrite lookup_insert_ne by done. split; [by right | by intros [? | ?]].
  - rewrite elem_of_difference, elem_of_singleton, elem_of_alive_threads.
    destruct (decide (x = w)) as [-> | Hx].
    + rewrite lookup_insert_eq. split; [| by intros [_ ?]].
      intros (t' & [= <-] & ?). congruence.
    + rewrite lookup_insert_ne by done. split; [done | by intros [? _]].
Qed.

Lemma alive_threads_same (ts : gmap nat Thread) (w : nat) (t t' : Thread) :
  ts !! w = Some t → alive t = true → alive t' = true →
  alive_threads (<[w := t']> ts) = alive_threads ts.
Proof.
  intros Hw Ht Ht'. rewrite alive_threads_insert, Ht'.
  apply set_eq. intros x. rewrite elem_of_union, elem_of_singleton.
  split; [| by right]. intros [-> | ?]; [| done].
  apply elem_of_alive_threads. by exists t.
Qed.

Lemma alive_threads_ended (ts : gmap nat Thread) (w : nat) (t : Thread) :
  alive t = false →
  (size (alive_threads (<[w := t]> ts)) ≤ size (alive_threads ts))%nat.
Proof.
  intros Ht. rewrite alive_threads_insert, Ht.
  apply subseteq_size. intros x. rewrite elem_of_difference. tauto.
Qed.

Lemma alive_threads_spawned (ts : gmap nat Thread) (fresh : nat) :
  fresh ∉ dom ts →
  size (alive_threads (<[fresh := Starting]> ts)) = S (size (alive_threads ts)).
Proof.
  intros Hfresh. rewrite alive_threads_insert. cbn.
  rewrite size_union, size_singleton; [done |].
  intros x ->%elem_of_singleton (t & Ht & _)%elem_of_alive_threads.
  apply Hfresh. by apply elem_of_dom.
Qed.

Lemma alive_threads_replaced (ts : gmap nat Thread) (w fresh : nat)
    (t : Thread) :
  ts !! w = Some t → alive t = true → fresh ∉ dom ts →
  size (alive_threads (<[fresh := Starting]> (<[w := Crashed]> ts))) =
    size (alive_threads ts).
Proof.
  intros Hw Ht Hfresh.
  rewrite alive_threads_spawned.
  - rewrite alive_threads_insert. cbn.
    rewrite size_difference, size_singleton.
    + assert (size (alive_threads ts) ≠ 0%nat); [| lia].
      apply size_non_empty_iff. intros Hempty.
      assert (w ∈ alive_threads ts) as Hin
        by (apply elem_of_alive_threads; by exists t).
      rewrite Hempty in Hin. by apply elem_of_empty in Hin.
    + intros x ->%elem_of_singleton. apply elem_of_alive_threads. by exists t.
  - rewrite dom_insert, elem_of_union, elem_of_singleton.
    intros [-> | ?]; [| done]. apply Hfresh. by apply elem_of_dom.
Qed.

Lemma posts_alive (t t' : Thread) (msg : Worker.Message) :
  posts t msg = Some t' → alive t = true ∧ alive t' = true.
Proof.
  destruct t, msg; cbn; try done; try (by intros [= <-]);
    by destruct (decide _); intros [= <-].
Qed.

Lemma step_poolSize (st st' : State) :
  step st st' → poolSize (pool st') = poolSize (pool st).
Proof.
  intros Hstep.
  destruct Hstep as [fresh st Hrs Hfresh Hroom | w st Hrs
    | w msg t t' st Hrs Hw Hposts | fresh w message t st Hrs Hw Halive Hfresh
    | w code t st Hrs Hw Ht | jobId st Hne Hdone | k st Hrs | st Hrs
    | st Hrs]; try done.
  - cbn [with_threads pool].
    destruct (with_pool_proj (onMessage w msg) st) as (-> & _).
    rewrite onMessage_snd.
    assert (poolSize (readyHandler w msg (handleWorkerMessage w msg (pool st)).2)
            = poolSize (handleWorkerMessage w msg (pool st)).2) as ->.
    { unfold readyHandler. destruct (decide _); [| done]. by destruct msg. }
    destruct msg as [| jobId r | jobId m | m |]; try done; cbn.
    + pose proof (handleJobSuccess_core w jobId r (pool st)) as Hc.
      rewrite releaseWorker_core in Hc. unfold core in Hc. congruence.
    + pose proof (handleJobFailure_core w jobId m (pool st)) as Hc.
      rewrite releaseWorker_core in Hc. unfold core in Hc. congruence.
  - cbn [with_threads pool].
    destruct (with_pool_proj (handleWorkerError fresh w message) st)
      as (-> & _).
    pose proof (handleWorkerError_core fresh w message (pool st)) as Hc.
    unfold core in Hc. congruence.
  - cbn [with_threads pool].
    destruct (with_pool_proj (handleWorkerExit w code) st) as (-> & _).
    pose proof (handleWorkerExit_core w code (pool st)) as Hc.
    unfold core in Hc. congruence.
  - unfold executeJob. destruct (isShuttingDown (pool st)); [done |].
    unfold getAvailableWorker.
    by destruct (availableWorkers (pool st)) as [| w rest].
  - unfold interval. destruct (waiting st !! k) as [e |]; [| done].
    unfold getAvailableWorker.
    by destruct (availableWorkers (pool st)) as [| w rest].
  - unfold resume. by destruct (resuming st) as [| [w [jobId p]] rest].
Qed.

Lemma step_threads_ok (st st' : State) :
  step st st' → threads_ok st → threads_ok st'.
Proof.
  intros Hstep [Hsize Hcreated]. pose proof (step_poolSize _ _ Hstep) as Hps.
  unfold threads_ok. rewrite Hps. clear Hps.
  destruct Hstep as [fresh st Hrs Hfresh Hroom | w st Hrs
    | w msg t t' st Hrs Hw Hposts | fresh w message t st Hrs Hw Halive Hfresh
    | w code t st Hrs Hw Ht | jobId st Hne Hdone | k st Hrs | st Hrs
    | st Hrs]; try done.
  - cbn. rewrite alive_threads_spawned by done. split; lia.
  - cbn [with_threads threads created].
    destruct (with_pool_proj (onMessage w msg) st) as (_ & -> & -> & _).
    destruct (posts_alive _ _ _ Hposts) as [Ht Ht'].
    by rewrite (alive_threads_same _ _ t).
  - cbn [with_threads threads created].
    destruct (with_pool_proj (handleWorkerError fresh w message) st)
      as (_ & -> & -> & _).
    split; [| done]. destruct (isShuttingDown (pool st)).
    + etrans; [by apply alive_threads_ended | done].
    + by rewrite (alive_threads_replaced _ _ _ t).
  - cbn [with_threads threads created].
    destruct (with_pool_proj (handleWorkerExit w code) st)
      as (_ & -> & -> & _).
    split; [| done]. etrans; [by apply alive_threads_ended | done].
  - unfold executeJob. destruct (isShuttingDown (pool st)); [done |].
    unfold getAvailableWorker.
    by destruct (availableWorkers (pool st)) as [| w rest].
  - unfold interval. destruct (waiting st !! k) as [e |]; [| done].
    unfold getAvailableWorker.
    by destruct (availableWorkers (pool st)) as [| w rest].
  - unfold resume. destruct (resuming st) as [| [w [jobId p]] rest]; [done |].
    cbn. split; [| done]. unfold receive.
    destruct (threads st !! w) as [[| | | |] |] eqn:Hw; try done.
    by rewrite (alive_threads_same _ _ Idle).
Qed.

Lemma reachable_threads_ok (ps : option Z) (wps : Z) (st : State) :
  reachable ps wps st →
  threads_ok st ∧ poolSize (pool st) = poolSize (new ps wps).
Proof.
  induction 1 as [| st st' _ [Hok Hps] Hstep].
  - split; [| done]. split; cbn; [| lia].
    unfold alive_threads. by rewrite map_filter_empty, dom_empty, size_empty.
  - split; [by eapply step_threads_ok |].
    by rewrite (step_poolSize _ _ Hstep).
Qed.


Lemma handleWorkerExit_fst (w : nat) (code : string) (pl : Pool) :
  (handleWorkerExit w code pl).1 =
    (failCurrentJob w ("Worker exited with code " +:+ code) pl).1.
Proof.
  unfold handleWorkerExit. by destruct (failCurrentJob w _ pl) as [es pl'].
Qed.

Lemma handleWorkerError_fst (fresh w : nat) (message : string) (pl : Pool) :
  (handleWorkerError fresh w message pl).1 =
    (failCurrentJob w ("Worker crashed: " +:+ message) pl).1 ++
    (if isShuttingDown pl then [] else [Spawn fresh]).
Proof.
  unfold handleWorkerError.
  pose proof (failCurrentJob_core w ("Worker crashed: " +:+ message) pl)
    as (_ & _ & _ & _ & Hsd & _)%core_eq.
  destruct (failCurrentJob w _ pl) as [es pl']. cbn [fst snd] in *.
  cbn [removeWorker with_busy with_available with_workers isShuttingDown].
  rewrite Hsd. destruct (isShuttingDown pl); cbn; [by rewrite app_nil_r | done].
Qed.
(** X25: the bookkeeping of the pool is consistent in every reachable
    state. [workers] and [availableWorkers] hold no worker twice, an
    available worker is a worker of the pool and is not busy, a busy worker
    is a worker of the pool whose [currentJob] is the job [busyWorkers]
    records, and the statistics add up: available and busy workers and those
    just taken by a call never outnumber the workers, and before shutdown
    they are all the workers there are. *)
Theorem pool_bookkeeping (ps : option Z) (wps : Z) (st : State) :
  reachable ps wps st →
  let pl := pool st in
  NoDup (workers pl) ∧ NoDup (availableWorkers pl) ∧
  (∀ w, w ∈ availableWorkers pl →
        w ∈ workers pl ∧ busyWorkers pl !! w = None) ∧
  (∀ w jobId, busyWorkers pl !! w = Some jobId →
        w ∈ workers pl ∧ currentJob pl !! w = Some jobId) ∧
  (available (getStats pl) + busy (getStats pl) + length (resuming st) ≤
     total (getStats pl))%nat ∧
  (isShuttingDown pl = false →
   total (getStats pl) =
     (available (getStats pl) + busy (getStats pl) + length (resuming st))%nat).
Proof.
  intros Hreach pl.
  destruct (reachable_pool_inv _ _ _ Hreach)
    as ((Hws & Hfree & Hidle & Hbusy & Hthr & Hexec & Hall) & _ & _).
  fold pl in Hws, Hfree, Hidle, Hbusy, Hthr, Hexec, Hall.
  pose proof Hfree as (Hav & _ & _)%NoDup_app.
  assert (list_to_set (availableWorkers pl ++ (resuming st).*1) ##
            (dom (busyWorkers pl) : gset nat)) as Hdisj.
  { intros w Hw%elem_of_list_to_set [j Hj]%elem_of_dom.
    destruct (Hidle _ Hw) as (_ & ? & _). congruence. }
  assert (list_to_set (availableWorkers pl ++ (resuming st).*1) ∪
            dom (busyWorkers pl) ⊆@{gset nat} list_to_set (workers pl)) as Hsub.
  { intros w [Hw%elem_of_list_to_set | [j Hj]%elem_of_dom]%elem_of_union;
      apply elem_of_list_to_set.
    - by destruct (Hidle _ Hw) as (? & _).
    - by destruct (Hbusy _ _ Hj) as (? & _). }
  assert (size (list_to_set (availableWorkers pl ++ (resuming st).*1) ∪
                dom (busyWorkers pl) : gset nat) =
          (length (availableWorkers pl) + size (busyWorkers pl) +
           length (resuming st))%nat) as Hsize.
  { rewrite size_union by done. rewrite size_list_to_set by done.
    rewrite size_dom, length_app, length_fmap. lia. }
  split_and!; try done.
  - intros w Hw. destruct (Hidle w) as (? & ? & _); [| done].
    apply elem_of_app. by left.
  - cbn. rewrite <- Hsize, <- (size_list_to_set (C := gset nat) (workers pl))
      by done.
    by apply subseteq_size.
  - intros Hsd. cbn.
    rewrite <- Hsize, <- (size_list_to_set (C := gset nat) (workers pl))
      by done.
    f_equal. apply set_eq. intros w. split; [| apply Hsub].
    intros Hw%elem_of_list_to_set. apply elem_of_union.
    destruct (Hall Hsd _ Hw) as [? | ?]; [left | right].
    + by apply elem_of_list_to_set.
    + by apply elem_of_dom.
Qed.



(** X26: a worker has one job at a time. A thread that executes a job is a
    busy worker of the pool with that job as [currentJob], and is neither
    available nor taken by a call; every available worker is idle; and a
    call that resumes posts its job to an idle thread, which then executes
    it. *)
Theorem one_job_per_worker (ps : option Z) (wps : Z) (st : State) :
  reachable ps wps st →
  (∀ w jobId, threads st !! w = Some (Executing jobId) →
     busyWorkers (pool st) !! w = Some jobId ∧
     currentJob (pool st) !! w = Some jobId ∧
     (w ∉ availableWorkers (pool st)) ∧ w ∉ (resuming st).*1) ∧
  (∀ w, w ∈ availableWorkers (pool st) → threads st !! w = Some Idle) ∧
  (∀ w jobId p rest, resuming st = (w, (jobId, p)) :: rest →
     threads st !! w = Some Idle ∧
     threads (resume st) !! w = Some (Executing jobId) ∧
     effects (resume st) = effects st ++ [Post w jobId]).
Proof.
  intros Hreach.
  destruct (reachable_pool_inv _ _ _ Hreach)
    as ((Hws & Hfree & Hidle & Hbusy & Hthr & Hexec & Hall) & _ & _).
  split_and!.
  - intros w j Hw. pose proof (Hexec _ _ Hw) as Hb.
    destruct (Hbusy _ _ Hb) as [_ Hcur].
    assert (w ∉ availableWorkers (pool st) ++ (resuming st).*1) as Hout.
    { intros Hin. destruct (Hidle _ Hin) as (_ & ? & _). congruence. }
    rewrite elem_of_app in Hout. tauto.
  - intros w Hw. destruct (Hidle w) as (_ & _ & ?); [| done].
    apply elem_of_app. by left.
  - intros w j p rest Hres. destruct (Hidle w) as (_ & _ & Hw).
    { rewrite Hres. apply elem_of_app. right. by left. }
    unfold resume. rewrite Hres. cbn. unfold receive. rewrite Hw.
    by rewrite lookup_insert_eq.
Qed.

(** X27: a promise settles at most once, and only a promise that a call of
    [executeJob] has returned settles. *)
Theorem promises_settle_once (ps : option Z) (wps : Z) (st : State) :
  reachable ps wps st →
  NoDup (settled (effects st)) ∧
  ∀ p, p ∈ settled (effects st) → is_Some (executions st !! p).
Proof.
  intros Hreach.
  destruct (reachable_pool_inv _ _ _ Hreach) as (_ & (Hdone & Hlt & _) & _).
  split; [done |]. intros p Hp. by apply lookup_lt_is_Some, Hlt.
Qed.

(** X28: no promise is lost. The promise of every call of [executeJob] has
    settled, or the call still waits for a worker, or it has taken a worker
    and resumes, or its callbacks are registered under its job id and a
    thread, busy with that job, executes it. A settled promise is in none
    of the other places. *)
Theorem no_promise_lost (ps : option Z) (wps : Z) (st : State) (p : nat)
    (jobId : string) :
  reachable ps wps st →
  executions st !! p = Some jobId →
  (p ∈ settled (effects st) ∨
   (jobId, p) ∈ waiting st ∨
   (∃ w, (w, (jobId, p)) ∈ resuming st) ∨
   (jobCallbacks (pool st) !! jobId = Some p ∧
    ∃ w, threads st !! w = Some (Executing jobId) ∧
         busyWorkers (pool st) !! w = Some jobId)) ∧
  (p ∈ settled (effects st) →
   ((jobId, p) ∉ waiting st) ∧ (∀ w, (w, (jobId, p)) ∉ resuming st) ∧
   jobCallbacks (pool st) !! jobId ≠ Some p).
Proof.
  intros Hreach Hp.
  destruct (reachable_pool_inv _ _ _ Hreach)
    as ((_ & _ & _ & _ & _ & Hexec & _) &
        (_ & _ & _ & Hq & Hcb & Hall & _) & [Htied _]).
  split.
  - destruct (Hall _ _ Hp) as [? | [Hin | Hreg]]; [by left | |].
    + apply elem_of_app in Hin as [? | Hin]; [right; by left |].
      right. right. left.
      apply list_elem_of_fmap_1 in Hin as ([w e] & -> & Hin). by exists w.
    + right. right. right. split; [done |].
      destruct (Htied _ _ Hreg) as [w Hw]. exists w. split; [done |].
      by apply Hexec.
  - intros Hdone. split_and!.
    + intros Hin. destruct (Hq jobId p) as (_ & ? & _); [| done].
      apply elem_of_app. by left.
    + intros w Hin. destruct (Hq jobId p) as (_ & ? & _); [| done].
      apply elem_of_app. right.
      by apply (list_elem_of_fmap_2 snd) in Hin.
    + intros Hreg. by destruct (Hcb _ _ Hreg) as [_ ?].
Qed.

(** X29: the end of an execution settles its promise, and a crashed worker
    keeps its job. When the thread of worker [w] executes a job whose
    callbacks are registered for promise [p], its ['success'] resolves [p]
    with the result and its ['failure'] rejects [p] with the message, and
    either makes the worker available again, last in line, unless the pool
    shuts down; its ['error'] rejects [p] with 'Worker crashed: ', removes
    the worker and starts a replacement unless the pool shuts down, but
    leaves [currentJob] of the worker as it is; an ['exit'] alone rejects
    [p] with 'Worker exited with code ' and removes the worker without a
    replacement. In each case the callbacks of the job are gone afterwards.
    The ['exit'] of a worker that has crashed looks its job id up again: it
    settles nothing if no callbacks are registered under that id then, as
    when it comes at once after the ['error']; if the job has been handed
    to the pool again in between, it rejects the promise of that later
    call, which had not settled, and takes its callbacks away, although
    another worker is busy executing the job. *)
Theorem execution_end_settles (ps : option Z) (wps : Z) (st : State)
    (w : nat) :
  reachable ps wps st →
  (∀ jobId p,
     threads st !! w = Some (Executing jobId) →
     jobCallbacks (pool st) !! jobId = Some p →
     (∀ r, let out := onMessage w (Worker.Success jobId r) (pool st) in
        out.1 = [Resolve p r] ∧
        jobCallbacks out.2 !! jobId = None ∧ busyWorkers out.2 !! w = None ∧
        availableWorkers out.2 =
          if isShuttingDown (pool st) then availableWorkers (pool st)
          else availableWorkers (pool st) ++ [w]) ∧
     (∀ m, let out := onMessage w (Worker.Failure jobId m) (pool st) in
        out.1 = [Reject p m] ∧
        jobCallbacks out.2 !! jobId = None ∧ busyWorkers out.2 !! w = None ∧
        availableWorkers out.2 =
          if isShuttingDown (pool st) then availableWorkers (pool st)
          else availableWorkers (pool st) ++ [w]) ∧
     (∀ fresh m code, let out := handleWorkerError fresh w m (pool st) in
        out.1 = Reject p ("Worker crashed: " +:+ m) ::
                (if isShuttingDown (pool st) then [] else [Spawn fresh]) ∧
        jobCallbacks out.2 !! jobId = None ∧ busyWorkers out.2 !! w = None ∧
        (w ∉ workers out.2) ∧ (w ∉ availableWorkers out.2) ∧
        (fresh ≠ w → currentJob out.2 !! w = Some jobId) ∧
        (handleWorkerExit w code out.2).1 = []) ∧
     (∀ code, let out := handleWorkerExit w code (pool st) in
        out.1 = [Reject p ("Worker exited with code " +:+ code)] ∧
        jobCallbacks out.2 !! jobId = None ∧ busyWorkers out.2 !! w = None ∧
        (w ∉ workers out.2) ∧ w ∉ availableWorkers out.2)) ∧
  (∀ jobId code,
     threads st !! w = Some Crashed →
     currentJob (pool st) !! w = Some jobId →
     jobId ≠ "" →
     let out := handleWorkerExit w code (pool st) in
     (jobCallbacks (pool st) !! jobId = None → out.1 = []) ∧
     (∀ p, jobCallbacks (pool st) !! jobId = Some p →
        out.1 = [Reject p ("Worker exited with code " +:+ code)] ∧
        jobCallbacks out.2 !! jobId = None ∧
        executions st !! p = Some jobId ∧
        (p ∉ settled (effects st)) ∧
        ∃ w', w' ≠ w ∧
              threads st !! w' = Some (Executing jobId) ∧
              busyWorkers (pool st) !! w' = Some jobId ∧
              busyWorkers out.2 !! w' = Some jobId)).
Proof.
  intros Hreach.
  destruct (reachable_pool_inv _ _ _ Hreach)
    as ((Hws & Hfree & Hidle & Hbusy & Hthr & Hexec & Hall) &
        (_ & _ & _ & _ & Hreg & _) & [Htied Hne]).
  split.
  - intros jobId p Hw Hp.
  pose proof (Hexec _ _ Hw) as Hb. destruct (Hbusy _ _ Hb) as [Hin Hcur].
  pose proof (Hne _ _ Hw) as Hj.
  pose proof Hfree as (Hav & _ & _)%NoDup_app.
  assert (bool_decide (w ∈ workers (pool st)) = true) as Hdec
    by (by apply bool_decide_eq_true).
  assert (∀ m, (failCurrentJob w m (pool st)).1 = [Reject p m]) as Hfail.
  { intros m. unfold failCurrentJob, settle.
    by rewrite Hcur, decide_False, Hp by done. }
  assert (∀ m, jobCallbacks (failCurrentJob w m (pool st)).2 !! jobId = None)
    as Hgone.
  { intros m. rewrite failCurrentJob_callbacks, Hcur, decide_False by done.
    apply lookup_delete_eq. }
  split_and!.
  + intros r out. subst out.
    pose proof (onMessage_callbacks w (Worker.Success jobId r) (pool st)) as Hc.
    pose proof (onMessage_snd w (Worker.Success jobId r) (pool st)) as Hs.
    pose proof (readyHandler_core w (Worker.Success jobId r)
                  (handleWorkerMessage w (Worker.Success jobId r) (pool st)).2
                  ltac:(done))
      as Hcore.
    rewrite <- Hs in Hcore. cbn [handleWorkerMessage] in Hcore.
    rewrite handleJobSuccess_core, releaseWorker_core, Hdec in Hcore.
    unfold core in Hcore. injection Hcore as _ Hav' Hb' _ _ _.
    split_and!.
    * unfold onMessage, handleWorkerMessage, handleJobSuccess, settle.
      by rewrite Hp.
    * rewrite Hc. apply lookup_delete_eq.
    * rewrite Hb'. apply lookup_delete_eq.
    * rewrite Hav'. by destruct (isShuttingDown (pool st)).
  + intros m out. subst out.
    pose proof (onMessage_callbacks w (Worker.Failure jobId m) (pool st)) as Hc.
    pose proof (onMessage_snd w (Worker.Failure jobId m) (pool st)) as Hs.
    pose proof (readyHandler_core w (Worker.Failure jobId m)
                  (handleWorkerMessage w (Worker.Failure jobId m) (pool st)).2
                  ltac:(done))
      as Hcore.
    rewrite <- Hs in Hcore. cbn [handleWorkerMessage] in Hcore.
    rewrite handleJobFailure_core, releaseWorker_core, Hdec in Hcore.
    unfold core in Hcore. injection Hcore as _ Hav' Hb' _ _ _.
    split_and!.
    * unfold onMessage, handleWorkerMessage, handleJobFailure, settle.
      by rewrite Hp.
    * rewrite Hc. apply lookup_delete_eq.
    * rewrite Hb'. apply lookup_delete_eq.
    * rewrite Hav'. by destruct (isShuttingDown (pool st)).
  + intros fresh m code out. subst out.
    pose proof (handleWorkerError_core fresh w m (pool st)) as Hcore.
    pose proof (handleWorkerError_callbacks fresh w m (pool st)) as Hc.
    unfold core in Hcore. injection Hcore as Hws' Hav' Hb' Hcur' Hsd' _.
    split_and!.
    * by rewrite handleWorkerError_fst, Hfail.
    * rewrite Hc. apply Hgone.
    * rewrite Hb'. apply lookup_delete_eq.
    * rewrite Hws'. intros [_ ?]%elem_of_splice_out; done.
    * rewrite Hav'. intros [_ ?]%elem_of_splice_out; done.
    * intros Hfw. rewrite Hcur'. destruct (isShuttingDown (pool st)); [done |].
      by rewrite lookup_delete_ne.
    * rewrite handleWorkerExit_fst.
      unfold failCurrentJob, settle. rewrite Hcur'.
      assert (jobCallbacks (handleWorkerError fresh w m (pool st)).2
                !! jobId = None) as Hg by (rewrite Hc; apply Hgone).
      destruct (isShuttingDown (pool st)).
      -- by rewrite Hcur, decide_False, Hg by done.
      -- destruct (decide (fresh = w)) as [-> | Hfw].
         ++ by rewrite lookup_delete_eq.
         ++ by rewrite lookup_delete_ne, Hcur, decide_False, Hg by done.
  + intros code out. subst out.
    pose proof (handleWorkerExit_core w code (pool st)) as Hcore.
    pose proof (handleWorkerExit_callbacks w code (pool st)) as Hc.
    unfold core in Hcore. injection Hcore as Hws' Hav' Hb' _ _ _.
    split_and!.
    * by rewrite handleWorkerExit_fst, Hfail.
    * rewrite Hc. apply Hgone.
    * rewrite Hb'. apply lookup_delete_eq.
    * rewrite Hws'. intros [_ ?]%elem_of_splice_out; done.
    * rewrite Hav'. intros [_ ?]%elem_of_splice_out; done.
  - intros jobId code Hw Hcur Hj out. subst out.
    pose proof (handleWorkerExit_core w code (pool st)) as Hcore.
    pose proof (handleWorkerExit_callbacks w code (pool st)) as Hc.
    unfold core in Hcore. injection Hcore as _ _ Hb' _ _ _.
    rewrite failCurrentJob_callbacks, Hcur, decide_False in Hc by done.
    rewrite handleWorkerExit_fst. unfold failCurrentJob, settle.
    rewrite Hcur, decide_False by done. split.
    + by intros ->.
    + intros p Hp. rewrite Hp. cbn [fst].
      destruct (Hreg _ _ Hp) as [Hex Hnew].
      destruct (Htied _ _ Hp) as [w' Hw'].
      split_and!; [done | | done | done |].
      * rewrite Hc. apply lookup_delete_eq.
      * assert (w' ≠ w) as Hne' by (intros ->; congruence).
        exists w'. split_and!; [done | done | by apply Hexec |].
        rewrite Hb', lookup_delete_ne by done. by apply Hexec.
Qed.

(** X30: the pool stays within its size. The size is the one the pool was
    built with; the threads that have neither crashed nor exited, and so
    the workers of the pool, never outnumber it: [initialize] starts at
    most that many, and a replacement is started only for a thread that
    has just crashed. *)
Theorem pool_within_size (ps : option Z) (wps : Z) (st : State) :
  reachable ps wps st →
  poolSize (pool st) = poolSize (new ps wps) ∧
  Z.of_nat (size (alive_threads (threads st))) ≤ Z.max 0 (poolSize (pool st)) ∧
  Z.of_nat (total (getStats (pool st))) ≤ Z.max 0 (poolSize (pool st)).
Proof.
  intros Hreach.
  destruct (reachable_threads_ok _ _ _ Hreach) as [[Hsize Hcreated] Hps].
  destruct (reachable_pool_inv _ _ _ Hreach)
    as ((Hws & _ & _ & _ & Hthr & _) & _ & _).
  split_and!; [done | lia |].
  assert (length (workers (pool st)) ≤ size (alive_threads (threads st)))%nat;
    [| cbn; lia].
  rewrite <- (size_list_to_set (C := gset nat) (workers (pool st))) by done.
  apply subseteq_size. intros w Hw%elem_of_list_to_set.
  apply elem_of_alive_threads.
  destruct (Hthr _ Hw) as [? | [j ?]]; eexists; by split.
Qed.

End Pool.

Lemma reachable_p_spawned : WorkerPool.reachable None 2 p_spawned.
Proof.
  eapply WorkerPool.reach_next; [apply WorkerPool.reach_boot |].
  apply WorkerPool.step_initialize; [done | | done].
  apply not_elem_of_dom. by vm_compute.
Qed.

Lemma reachable_p_ready : WorkerPool.reachable None 2 p_ready.
Proof.
  eapply WorkerPool.reach_next; [apply reachable_p_spawned |].
  by apply (WorkerPool.step_message 1 Worker.Ready WorkerPool.Starting).
Qed.

Lemma reachable_p_called : WorkerPool.reachable None 2 p_called.
Proof.
  eapply WorkerPool.reach_next; [apply reachable_p_ready |].
  apply WorkerPool.step_executeJob; [done |].
  intros p Hp. vm_compute in Hp. by destruct p.
Qed.

Lemma reachable_p_assigned : WorkerPool.reachable None 2 p_assigned.
Proof.
  eapply WorkerPool.reach_next; [apply reachable_p_called |].
  by apply WorkerPool.step_resume.
Qed.

Lemma reachable_p_replied : WorkerPool.reachable None 2 p_replied.
Proof.
  eapply WorkerPool.reach_next; [apply reachable_p_assigned |].
  by apply (WorkerPool.step_message 1 _ (WorkerPool.Executing "a")).
Qed.

Lemma reachable_p_second : WorkerPool.reachable None 2 p_second.
Proof.
  eapply WorkerPool.reach_next.
  - eapply WorkerPool.reach_next; [apply reachable_p_assigned |].
    apply (WorkerPool.step_initialize 2); [done | | done].
    apply not_elem_of_dom. by vm_compute.
  - by apply (WorkerPool.step_message 2 Worker.Ready WorkerPool.Starting).
Qed.

Lemma reachable_p_both : WorkerPool.reachable None 2 p_both.
Proof.
  eapply WorkerPool.reach_next.
  - eapply WorkerPool.reach_next; [apply reachable_p_second |].
    apply (WorkerPool.step_executeJob "b"); [done |].
    intros p Hp. vm_compute in Hp. by destruct p as [| []].
  - by apply WorkerPool.step_resume.
Qed.

Lemma reachable_p_crashed : WorkerPool.reachable None 2 p_crashed.
Proof.
  eapply WorkerPool.reach_next; [apply reachable_p_both |].
  apply (WorkerPool.step_error 3 2 "out of memory" (WorkerPool.Executing "b"));
    done.
Qed.

Lemma pool_bookkeeping_witness :
  let pl := WorkerPool.pool p_second in
  NoDup (WorkerPool.workers pl) ∧ NoDup (WorkerPool.availableWorkers pl) ∧
  (∀ w, w ∈ WorkerPool.availableWorkers pl →
        w ∈ WorkerPool.workers pl ∧ WorkerPool.busyWorkers pl !! w = None) ∧
  (∀ w jobId, WorkerPool.busyWorkers pl !! w = Some jobId →
        w ∈ WorkerPool.workers pl ∧
        WorkerPool.currentJob pl !! w = Some jobId) ∧
  (WorkerPool.available (WorkerPool.getStats pl) +
   WorkerPool.busy (WorkerPool.getStats pl) +
   length (WorkerPool.resuming p_second) ≤
     WorkerPool.total (WorkerPool.getStats pl))%nat ∧
  (WorkerPool.isShuttingDown pl = false →
   WorkerPool.total (WorkerPool.getStats pl) =
     (WorkerPool.available (WorkerPool.getStats pl) +
      WorkerPool.busy (WorkerPool.getStats pl) +
      length (WorkerPool.resuming p_second))%nat).
Proof. apply (pool_bookkeeping None 2 p_second reachable_p_second). Defined.

Lemma one_job_per_worker_witness :
  (∀ w jobId,
     WorkerPool.threads p_called !! w = Some (WorkerPool.Executing jobId) →
     WorkerPool.busyWorkers (WorkerPool.pool p_called) !! w = Some jobId ∧
     WorkerPool.currentJob (WorkerPool.pool p_called) !! w = Some jobId ∧
     (w ∉ WorkerPool.availableWorkers (WorkerPool.pool p_called)) ∧
     w ∉ (WorkerPool.resuming p_called).*1) ∧
  (∀ w, w ∈ WorkerPool.availableWorkers (WorkerPool.pool p_called) →
     WorkerPool.threads p_called !! w = Some WorkerPool.Idle) ∧
  (∀ w jobId p rest,
     WorkerPool.resuming p_called = (w, (jobId, p)) :: rest →
     WorkerPool.threads p_called !! w = Some WorkerPool.Idle ∧
     WorkerPool.threads (WorkerPool.resume p_called) !! w =
       Some (WorkerPool.Executing jobId) ∧
     WorkerPool.effects (WorkerPool.resume p_called) =
       WorkerPool.effects p_called ++ [WorkerPool.Post w jobId]).
Proof. apply (one_job_per_worker None 2 p_called reachable_p_called). Defined.

Lemma promises_settle_once_witness :
  NoDup (WorkerPool.settled (WorkerPool.effects p_replied)) ∧
  ∀ p, p ∈ WorkerPool.settled (WorkerPool.effects p_replied) →
       is_Some (WorkerPool.executions p_replied !! p).
Proof. apply (promises_settle_once None 2 p_replied reachable_p_replied). Defined.

Lemma no_promise_lost_witness :
  (1%nat ∈ WorkerPool.settled (WorkerPool.effects p_both) ∨
   ("b", 1%nat) ∈ WorkerPool.waiting p_both ∨
   (∃ w, (w, ("b", 1%nat)) ∈ WorkerPool.resuming p_both) ∨
   (WorkerPool.jobCallbacks (WorkerPool.pool p_both) !! "b" = Some 1%nat ∧
    ∃ w, WorkerPool.threads p_both !! w = Some (WorkerPool.Executing "b") ∧
         WorkerPool.busyWorkers (WorkerPool.pool p_both) !! w = Some "b")) ∧
  (1%nat ∈ WorkerPool.settled (WorkerPool.effects p_both) →
   (("b", 1%nat) ∉ WorkerPool.waiting p_both) ∧
   (∀ w, (w, ("b", 1%nat)) ∉ WorkerPool.resuming p_both) ∧
   WorkerPool.jobCallbacks (WorkerPool.pool p_both) !! "b" ≠ Some 1%nat).
Proof.
  apply (no_promise_lost None 2 p_both 1 "b" reachable_p_both).
  vm_compute. reflexivity.
Defined.

Lemma pool_within_size_witness :
  WorkerPool.poolSize (WorkerPool.pool p_crashed) =
    WorkerPool.poolSize (WorkerPool.new None 2) ∧
  Z.of_nat (size (WorkerPool.alive_threads (WorkerPool.threads p_crashed))) ≤
    Z.max 0 (WorkerPool.poolSize (WorkerPool.pool p_crashed)) ∧
  Z.of_nat (WorkerPool.total (WorkerPool.getStats (WorkerPool.pool p_crashed))) ≤
    Z.max 0 (WorkerPool.poolSize (WorkerPool.pool p_crashed)).
Proof. apply (pool_within_size None 2 p_crashed reachable_p_crashed). Defined.

Lemma reachable_p_freed : WorkerPool.reachable None 2 p_freed.
Proof.
  eapply WorkerPool.reach_next; [apply reachable_p_crashed |].
  by apply (WorkerPool.step_message 1 _ (WorkerPool.Executing "a")).
Qed.

Lemma reachable_p_retried : WorkerPool.reachable None 2 p_retried.
Proof.
  eapply WorkerPool.reach_next.
  - eapply WorkerPool.reach_next; [apply reachable_p_freed |].
    apply (WorkerPool.step_executeJob "b"); [done |].
    intros p Hp. vm_compute in Hp.
    destruct p as [| [| [| p]]]; try done.
    vm_compute. apply list_elem_of_In. cbn. tauto.
  - by apply WorkerPool.step_resume.
Qed.

Lemma execution_end_settles_witness :
  let pl := WorkerPool.pool p_retried in
  ((∀ r, let out := WorkerPool.onMessage 1 (Worker.Success "b" r) pl in
      out.1 = [WorkerPool.Resolve 2 r] ∧
      WorkerPool.jobCallbacks out.2 !! "b" = None ∧
      WorkerPool.busyWorkers out.2 !! 1%nat = None ∧
      WorkerPool.availableWorkers out.2 =
        if WorkerPool.isShuttingDown pl then WorkerPool.availableWorkers pl
        else WorkerPool.availableWorkers pl ++ [1%nat]) ∧
   (∀ m, let out := WorkerPool.onMessage 1 (Worker.Failure "b" m) pl in
      out.1 = [WorkerPool.Reject 2 m] ∧
      WorkerPool.jobCallbacks out.2 !! "b" = None ∧
      WorkerPool.busyWorkers out.2 !! 1%nat = None ∧
      WorkerPool.availableWorkers out.2 =
        if WorkerPool.isShuttingDown pl then WorkerPool.availableWorkers pl
        else WorkerPool.availableWorkers pl ++ [1%nat]) ∧
   (∀ fresh m code, let out := WorkerPool.handleWorkerError fresh 1 m pl in
      out.1 = WorkerPool.Reject 2 ("Worker crashed: " +:+ m) ::
              (if WorkerPool.isShuttingDown pl then []
               else [WorkerPool.Spawn fresh]) ∧
      WorkerPool.jobCallbacks out.2 !! "b" = None ∧
      WorkerPool.busyWorkers out.2 !! 1%nat = None ∧
      (1%nat ∉ WorkerPool.workers out.2) ∧
      (1%nat ∉ WorkerPool.availableWorkers out.2) ∧
      (fresh ≠ 1%nat → WorkerPool.currentJob out.2 !! 1%nat = Some "b") ∧
      (WorkerPool.handleWorkerExit 1 code out.2).1 = []) ∧
   (∀ code, let out := WorkerPool.handleWorkerExit 1 code pl in
      out.1 = [WorkerPool.Reject 2 ("Worker exited with code " +:+ code)] ∧
      WorkerPool.jobCallbacks out.2 !! "b" = None ∧
      WorkerPool.busyWorkers out.2 !! 1%nat = None ∧
      (1%nat ∉ WorkerPool.workers out.2) ∧
      1%nat ∉ WorkerPool.availableWorkers out.2)) ∧
  (let out := WorkerPool.handleWorkerExit 2 "1" pl in
   out.1 = [WorkerPool.Reject 2 "Worker exited with code 1"] ∧
   WorkerPool.jobCallbacks out.2 !! "b" = None ∧
   WorkerPool.executions p_retried !! 2%nat = Some "b" ∧
   (2%nat ∉ WorkerPool.settled (WorkerPool.effects p_retried)) ∧
   ∃ w', w' ≠ 2%nat ∧
         WorkerPool.threads p_retried !! w' = Some (WorkerPool.Executing "b") ∧
         WorkerPool.busyWorkers pl !! w' = Some "b" ∧
         WorkerPool.busyWorkers out.2 !! w' = Some "b").
Proof.
  split.
  - apply (proj1 (execution_end_settles None 2 p_retried 1 reachable_p_retried)
             "b" 2%nat).
    + vm_compute. reflexivity.
    + vm_compute. reflexivity.
  - apply (proj2 (execution_end_settles None 2 p_retried 2 reachable_p_retried)
             "b" "1").
    + vm_compute. reflexivity.
    + vm_compute. reflexivity.
    + done.
    + vm_compute. reflexivity.
Defined.
